(** * SCSSim dashboard (app.py): data pipeline and its properties

    A shallow embedding of the data-preparation part of [app.py]: the
    column-name normaliser of [load_excel], the per-round aggregates, the
    derived COGS column, the Vitamin-C filter, the component pivots, the
    overview joins and the export block of the data explorer.

    Modelling conventions.
    - A Python [str] is a [string]; every character is a code point below
      256, so the whitespace and letter-case tables are those of Python on
      that range.
    - A number is an exact rational ([Qc]); a missing value (NaN / None) is
      the cell [NA].
    - A pandas call that raises is a result [None]. *)

From Stdlib Require Import QArith Qcanon Qround Sorted.
From stdpp Require Import gmap strings list fin_maps.
From Stdlib Require Import Ascii String.

Local Open Scope string_scope.
Local Open Scope list_scope.

(** ** Python string methods used by [norm] *)

Module Str.

(** [str.isspace] of one character, on code points below 256:
    U+0009..U+000D, U+001C..U+0020, U+0085 and U+00A0. *)
Definition isspace (c : ascii) : bool :=
  let n := nat_of_ascii c in
  (((9 <=? n) && (n <=? 13)) || ((28 <=? n) && (n <=? 32))
   || (n =? 133) || (n =? 160))%nat.

(** Upper-case letters below 256: A..Z, and U+00C0..U+00DE except the
    multiplication sign U+00D7. *)
Definition isupper (c : ascii) : bool :=
  let n := nat_of_ascii c in
  (((65 <=? n) && (n <=? 90))
   || ((192 <=? n) && (n <=? 222) && negb (n =? 215)))%nat.

Definition lower_char (c : ascii) : ascii :=
  if isupper c then ascii_of_nat (nat_of_ascii c + 32) else c.

Fixpoint lstrip_chars (s : list ascii) : list ascii :=
  match s with
  | c :: s' => if isspace c then lstrip_chars s' else s
  | [] => []
  end.

Definition rstrip_chars (s : list ascii) : list ascii :=
  rev (lstrip_chars (rev s)).

Definition strip_chars (s : list ascii) : list ascii :=
  rstrip_chars (lstrip_chars s).

Fixpoint starts_with (p s : list ascii) : bool :=
  match p, s with
  | [], _ => true
  | a :: p', b :: s' => Ascii.eqb a b && starts_with p' s'
  | _ :: _, [] => false
  end.

(** [str.replace(old, new)]: the occurrences of [old] are found from the
    left and do not overlap.  [skip] counts the characters of a matched
    occurrence that are still to be passed over. *)
Fixpoint replace_from (old new : list ascii) (skip : nat) (s : list ascii)
  : list ascii :=
  match s with
  | [] => match old with [] => new | _ => [] end
  | c :: s' =>
      match skip with
      | S k => replace_from old new k s'
      | O =>
          if starts_with old s
          then new ++ match old with
                      | [] => c :: replace_from old new 0 s'
                      | _ => replace_from old new (List.length old - 1) s'
                      end
          else c :: replace_from old new 0 s'
      end
  end.

Definition replace_chars (old new s : list ascii) : list ascii :=
  replace_from old new 0 s.

(** Matching under [re.IGNORECASE]: two characters agree when their lower
    cases do. *)
Definition ci_eqb (a b : ascii) : bool :=
  Ascii.eqb (lower_char a) (lower_char b).

Fixpoint starts_with_ci (p s : list ascii) : bool :=
  match p, s with
  | [], _ => true
  | a :: p', b :: s' => ci_eqb a b && starts_with_ci p' s'
  | _ :: _, [] => false
  end.

(** [re.search] of a pattern without metacharacters: some suffix of the
    text starts with the pattern. *)
Fixpoint search_ci (p s : list ascii) : bool :=
  starts_with_ci p s ||
  match s with
  | [] => false
  | _ :: s' => search_ci p s'
  end.

Definition contains_ci (pat s : string) : bool :=
  search_ci (list_ascii_of_string pat) (list_ascii_of_string s).



Definition strip (s : string) : string :=
  string_of_list_ascii (strip_chars (list_ascii_of_string s)).

Definition lower (s : string) : string :=
  string_of_list_ascii (map lower_char (list_ascii_of_string s)).

Definition replace (old new s : string) : string :=
  string_of_list_ascii
    (replace_chars (list_ascii_of_string old) (list_ascii_of_string new)
       (list_ascii_of_string s)).

End Str.

Definition LF : string := String (ascii_of_nat 10) EmptyString.
Definition CR : string := String (ascii_of_nat 13) EmptyString.
Definition TAB : string := String (ascii_of_nat 9) EmptyString.

(** The chain of [.str] calls that [norm] applies to every column label
    (app.py, lines 78-86). *)
Definition norm_name (s : string) : string :=
  Str.replace " " "_"
    (Str.replace "  " " "
       (Str.replace CR " "
          (Str.replace LF " "
             (Str.lower (Str.strip s))))).

(** ** Cells, series and frames *)

(** A cell of a sheet: a missing value, a number or a text. *)
Inductive cell : Type :=
| NA
| Num (q : Qc)
| Text (s : string).

Abbreviation Series := (list cell).

(** A [DataFrame] is the ordered list of its labelled columns; the row
    index is the default positional one throughout the script. *)
Abbreviation DataFrame := (list (string * Series)).

Definition Qc_eqb (a b : Qc) : bool := Qeq_bool a b.

Definition cell_eqb (a b : cell) : bool :=
  match a, b with
  | NA, NA => true
  | Num x, Num y => Qc_eqb x y
  | Text x, Text y => String.eqb x y
  | _, _ => false
  end.

Definition is_na (c : cell) : bool :=
  match c with NA => true | _ => false end.

Definition is_str (c : cell) : bool :=
  match c with Text _ => true | _ => false end.

Definition labels (df : DataFrame) : list string := map fst df.

(** [df[name]]: the series under a label.  A label that is absent raises
    KeyError; a label carried by several columns yields a frame instead of
    a series and the calls of the script that follow fail on it. *)
Definition get_col (name : string) (df : DataFrame) : option Series :=
  match List.filter (fun p => String.eqb (fst p) name) df with
  | [(_, s)] => Some s
  | _ => None
  end.

Definition has_label (n : string) (df : DataFrame) : bool :=
  existsb (String.eqb n) (labels df).

(** [df[name] = s]: overwrite what stands under the label, or append a
    new column. *)
Definition setitem (name : string) (s : Series) (df : DataFrame) : DataFrame :=
  if has_label name df
  then map (fun p => if String.eqb (fst p) name then (fst p, s) else p) df
  else df ++ [(name, s)].

(** [df.rename(columns={old: new})]. *)
Definition rename (old new : string) (df : DataFrame) : DataFrame :=
  map (fun p => (if String.eqb (fst p) old then new else fst p, snd p)) df.

(** [df[mask]] for a boolean mask. *)
Definition mask_series {A} (mask : list bool) (s : list A) : list A :=
  map snd (List.filter fst (combine mask s)).

Definition select_rows (mask : list bool) (df : DataFrame) : DataFrame :=
  map (fun p => (fst p, mask_series mask (snd p))) df.

(** [df[cols]] for a list of labels. *)
Definition select_cols (cols : list string) (df : DataFrame)
  : option DataFrame :=
  mapM (fun n => s ← get_col n df; Some (n, s)) cols.

(** ** [load_excel]: [norm] and [get_sheet] (app.py, lines 73-107) *)

(** [norm]: a copy of the frame whose labels went through [norm_name]. *)
Definition norm (df : DataFrame) : DataFrame :=
  map (fun p => (norm_name (fst p), snd p)) df.

(** A workbook: its sheets in order, each under its name. *)
Abbreviation Workbook := (list (string * DataFrame)).

Definition sheet_names (xl : Workbook) : list string := map fst xl.

Fixpoint read_excel (xl : Workbook) (name : string) : option DataFrame :=
  match xl with
  | [] => None
  | (n, df) :: xl' => if String.eqb n name then Some df else read_excel xl' name
  end.

Definition get_sheet (xl : Workbook) (name : string) : option DataFrame :=
  if existsb (String.eqb name) (sheet_names xl)
  then norm <$> read_excel xl name
  else None.

Record Sheets : Type := {
  product : option DataFrame;
  component : option DataFrame;
  warehouse : option DataFrame;
  customer : option DataFrame;
  product_warehouse : option DataFrame
}.

Definition load_excel (xl : Workbook) : Sheets :=
  {| product := get_sheet xl "Product";
     component := get_sheet xl "Component";
     warehouse := get_sheet xl "Warehouse, Salesarea";
     customer := get_sheet xl "Customer";
     product_warehouse := get_sheet xl "Product - Warehouse" |}.

(** ** Sorting the distinct values of a key *)

Section SortUniq.
Context {A : Type} (cmp : A -> A -> comparison).

Fixpoint insert_uniq (x : A) (l : list A) : list A :=
  match l with
  | [] => [x]
  | y :: l' =>
      match cmp x y with
      | Lt => x :: l
      | Eq => l
      | Gt => y :: insert_uniq x l'
      end
  end.

Definition sort_uniq (l : list A) : list A :=
  fold_right insert_uniq [] l.

Definition increasing : list A -> Prop :=
  StronglySorted (fun a b => cmp a b = Lt).
End SortUniq.

(** ** Aggregation by round (app.py, lines 190-223) *)

Definition numeric (s : Series) : bool := forallb (fun c => negb (is_str c)) s.

(** The values of a numeric series that are not missing. *)
Fixpoint present (s : Series) : list Qc :=
  match s with
  | [] => []
  | Num q :: s' => q :: present s'
  | _ :: s' => present s'
  end.

Definition Qc_sum (l : list Qc) : Qc := fold_right Qcplus 0%Qc l.

Definition Qc_of_nat (n : nat) : Qc := Q2Qc (inject_Z (Z.of_nat n)).

(** ["mean"] skips the missing values and is missing when nothing is
    left; ["sum"] skips them too and is 0 when nothing is left. *)
Definition agg_mean (s : Series) : cell :=
  match present s with
  | [] => NA
  | v => Num (Qc_sum v / Qc_of_nat (List.length v))
  end.

Definition agg_sum (s : Series) : cell := Num (Qc_sum (present s)).

Inductive aggfunc : Type := Mean | Sum.

Definition aggregate (f : aggfunc) (s : Series) : cell :=
  match f with
  | Mean => agg_mean s
  | Sum => agg_sum s
  end.

(** The values of [vals] on the rows whose key is [k]. *)
Definition group_of (keys : Series) (k : cell) (vals : Series) : Series :=
  mask_series (map (cell_eqb k) keys) vals.

(** The group keys of [groupby]: the distinct values of the key column,
    in increasing order, the missing ones dropped.  The round is a
    number; a text key is refused. *)
Definition group_keys (keys : Series) : option (list Qc) :=
  if numeric keys then Some (sort_uniq Qccompare (present keys)) else None.

(** One named aggregation [out=(src, f)]. *)
Abbreviation NamedAgg := (string * (string * aggfunc))%type.

(** The aggregate of [vals] for each key of [ks], in order. *)
Definition agg_series (f : aggfunc) (keys : Series) (ks : list Qc)
    (vals : Series) : Series :=
  map (fun k => aggregate f (group_of keys (Num k) vals)) ks.

(** The aggregated field is a number field; a text field is refused. *)
Definition agg_column (df : DataFrame) (keys : Series) (ks : list Qc)
    (spec : NamedAgg) : option (string * Series) :=
  vals ← get_col (fst (snd spec)) df;
  if numeric vals
  then Some (fst spec, agg_series (snd (snd spec)) keys ks vals)
  else None.

(** [df.groupby(by).agg(out=(src, f), ...).reset_index()]. *)
Definition groupby_agg (df : DataFrame) (by_ : string) (specs : list NamedAgg)
  : option DataFrame :=
  keys ← get_col by_ df;
  ks ← group_keys keys;
  cols ← mapM (agg_column df keys ks) specs;
  Some ((by_, map Num ks) :: cols).

(** [df.groupby(by)[col].mean().reset_index()]. *)
Definition groupby_mean (df : DataFrame) (by_ col : string) : option DataFrame :=
  groupby_agg df by_ [(col, (col, Mean))].

(** Subtraction of two cells: missing as soon as one side is missing. *)
Definition cell_sub (a b : cell) : option cell :=
  match a, b with
  | Text _, _ | _, Text _ => None
  | Num x, Num y => Some (Num (x - y))
  | _, _ => Some NA
  end.

Definition series_sub (a b : Series) : option Series :=
  mapM (fun p => cell_sub (fst p) (snd p)) (combine a b).

Definition product_aggs : list NamedAgg :=
  [ ("avg_service_pct", ("service_level_(pieces)", Mean));
    ("fg_stock_weeks_avg", ("stock_(weeks)", Mean));
    ("mape_pct", ("forecast_error_(mape)", Mean));
    ("product_obsol_pct_avg", ("obsoletes_(%)", Mean));
    ("realized_revenue", ("demand_per_week_(value)", Sum));
    ("gross_margin_per_week", ("gross_margin_per_week", Sum)) ].

(** Line 200: [agg["cogs"] = agg["realized_revenue"] -
    agg["gross_margin_per_week"]]. *)
Definition add_cogs (agg : DataFrame) : option DataFrame :=
  rev ← get_col "realized_revenue" agg;
  gm ← get_col "gross_margin_per_week" agg;
  cogs ← series_sub rev gm;
  Some (setitem "cogs" cogs agg).

Definition prod_agg (prod : DataFrame) : option DataFrame :=
  groupby_agg prod "round" product_aggs ≫= add_cogs.

Definition component_aggs : list NamedAgg :=
  [ ("component_availability_pct_avg", ("component_availability_(%)", Mean));
    ("component_stock_weeks_avg", ("stock_(weeks)", Mean));
    ("component_obsolescence_pct_avg", ("obsoletes_(%)", Mean));
    ("component_delivery_reliability_pct_avg", ("delivery_reliability_(%)", Mean)) ].

Definition comp_agg (comp : DataFrame) : option DataFrame :=
  groupby_agg comp "round" component_aggs.


(** ** Text filters (app.py, lines 211-212 and 219-222) *)

(** The [.str] accessor is refused on a series that holds no text
    (AttributeError, "Can only use .str accessor with string values"): a
    column read from the workbook has a numeric dtype when its cells are
    all numbers or all empty, and the object dtype only when a text cell
    occurs or the sheet has no row. *)
Definition str_accessor_ok (s : Series) : bool :=
  match s with
  | [] => true
  | _ => existsb is_str s
  end.

(** [s.str.contains(pat, case=False, na=False)] for a pattern without
    metacharacters: a cell that is not a text yields the [na] value. *)
Definition str_contains (pat : string) (s : Series) : option (list bool) :=
  if str_accessor_ok s
  then Some (map (fun c => match c with
                           | Text x => Str.contains_ci pat x
                           | _ => false
                           end) s)
  else None.

Definition filter_contains (df : DataFrame) (col pat : string)
  : option DataFrame :=
  s ← get_col col df;
  mask ← str_contains pat s;
  Some (select_rows mask df).

Definition vitc (comp : DataFrame) : option DataFrame :=
  filter_contains comp "component" "vitamin".

Definition vitc_obsol (comp : DataFrame) : option DataFrame :=
  v ← vitc comp; groupby_mean v "round" "obsoletes_(%)".

Definition inbound (wh : DataFrame) : option DataFrame :=
  f ← filter_contains wh "warehouse" "raw materials";
  g ← groupby_mean f "round" "cube_utilization_(%)";
  Some (rename "cube_utilization_(%)" "inbound_util" g).

Definition outbound (wh : DataFrame) : option DataFrame :=
  f ← filter_contains wh "warehouse" "finished goods";
  g ← groupby_mean f "round" "cube_utilization_(%)";
  Some (rename "cube_utilization_(%)" "outbound_util" g).

Definition ppa (prod : DataFrame) : option DataFrame :=
  g ← groupby_mean prod "round" "production_plan_adherence_(%)";
  Some (rename "production_plan_adherence_(%)" "ppa" g).

(** ** Pivots (app.py, lines 215-216) *)

Definition text_or_na (s : Series) : bool :=
  forallb (fun c => match c with Num _ => false | _ => true end) s.

(** The values of [v] on the rows whose index key is [rk] and whose
    column key is [cn]. *)
Definition pivot_group (r c v : Series) (rk : Qc) (cn : string) : Series :=
  mask_series
    (map (fun p => cell_eqb (Num rk) (fst p) && cell_eqb (Text cn) (snd p))
         (combine r c)) v.

(** The (index, column) groups that [pivot_table] keeps: rows with a
    missing key are dropped by the grouping, and so is a group whose
    aggregate is missing ([dropna=True], the default). *)
Fixpoint pivot_live (r c v : Series) (rows : list (cell * (cell * cell)))
  : list (Qc * string) :=
  match rows with
  | [] => []
  | (Num rk, (Text cn, _)) :: rows' =>
      if is_na (agg_mean (pivot_group r c v rk cn))
      then pivot_live r c v rows'
      else (rk, cn) :: pivot_live r c v rows'
  | _ :: rows' => pivot_live r c v rows'
  end.

(** [df.pivot_table(index=, columns=, values=, aggfunc="mean")
    .reset_index()].  The index is a number and the column keys are
    texts; [reset_index] cannot insert the index under a label that a
    column already carries. *)
Definition pivot_table (df : DataFrame) (index columns values : string)
  : option DataFrame :=
  r ← get_col index df;
  c ← get_col columns df;
  v ← get_col values df;
  if numeric r && text_or_na c && numeric v then
    let live := pivot_live r c v (combine r (combine c v)) in
    let ridx := sort_uniq Qccompare (map fst live) in
    let cidx := sort_uniq String.compare (map snd live) in
    if existsb (String.eqb index) cidx then None
    else Some ((index, map Num ridx)
               :: map (fun cn =>
                         (cn, map (fun rk => agg_mean (pivot_group r c v rk cn)) ridx))
                      cidx)
  else None.

Definition weeks_pivot (comp : DataFrame) : option DataFrame :=
  pivot_table comp "round" "component" "stock_(weeks)".

Definition avail_pivot (comp : DataFrame) : option DataFrame :=
  pivot_table comp "round" "component" "component_availability_(%)".

(** ** The overview joins (app.py, lines 226-234) *)

Definition all_num (s : Series) : bool :=
  forallb (fun c => match c with Num _ => true | _ => false end) s.

(** [sorted(s.unique())] on numbers. *)
Definition sorted_unique (s : Series) : option Series :=
  if all_num s then Some (map Num (sort_uniq Qccompare (present s))) else None.

Definition rounds_df (agg : DataFrame) : option DataFrame :=
  r ← get_col "round" agg;
  ks ← sorted_unique r;
  Some [("round", ks)].

(** How many rows of the right frame carry the key [k]. *)
Definition matches (rk : Series) (k : cell) : nat :=
  List.length (group_of rk k rk).

(** A left column after the join: the row is kept once when no right row
    has its key, and once per right row that has it. *)
Definition merge_left_col (lk rk s : Series) : Series :=
  flat_map (fun p => replicate (Nat.max 1 (matches rk (fst p))) (snd p))
           (combine lk s).

(** A right column after the join: for each left row the values of the
    right rows with its key, or one missing value when there is none. *)
Definition merge_right_col (lk rk t : Series) : Series :=
  flat_map (fun k => match matches rk k with
                     | O => [NA]
                     | _ => group_of rk k t
                     end) lk.

(** [l.merge(r, on=on, how="left")]: the rows of [l] in their order; a
    label other than the key that both frames carry gets the suffixes
    [_x] and [_y]. *)
Definition merge_left (l r : DataFrame) (on : string) : option DataFrame :=
  lk ← get_col on l;
  rk ← get_col on r;
  let shared n := negb (String.eqb n on) && has_label n l && has_label n r in
  Some (map (fun p => (if shared (fst p) then String.append (fst p) "_x" else fst p,
                       merge_left_col lk rk (snd p))) l
        ++ map (fun p => (if shared (fst p) then String.append (fst p) "_y" else fst p,
                          merge_right_col lk rk (snd p)))
               (List.filter (fun p => negb (String.eqb (fst p) on)) r)).

(** Lines 226-234, on the five aggregates. *)
Definition join_overview (pa ca inb outb pp : DataFrame) : option DataFrame :=
  r0 ← rounds_df pa;
  m1 ← merge_left r0 pa "round";
  m2 ← merge_left m1 ca "round";
  m3 ← merge_left m2 inb "round";
  m4 ← merge_left m3 outb "round";
  merge_left m4 pp "round".

(** The overview as a function of the three sheets. *)
Definition overview (prod comp wh : DataFrame) : option DataFrame :=
  pa ← prod_agg prod;
  ca ← comp_agg comp;
  inb ← inbound wh;
  outb ← outbound wh;
  pp ← ppa prod;
  join_overview pa ca inb outb pp.

(** Lines 189-234 in the order of the script: every table it prepares,
    or [None] as soon as one statement raises. *)
Record Prepared : Type := {
  p_prod_agg : DataFrame;
  p_comp_agg : DataFrame;
  p_vitc : DataFrame;
  p_vitc_obsol : DataFrame;
  p_weeks_pivot : DataFrame;
  p_avail_pivot : DataFrame;
  p_inbound : DataFrame;
  p_outbound : DataFrame;
  p_ppa : DataFrame;
  p_overview : DataFrame
}.

Definition data_prep (prod comp wh : DataFrame) : option Prepared :=
  pa ← prod_agg prod;
  ca ← comp_agg comp;
  v ← vitc comp;
  vo ← groupby_mean v "round" "obsoletes_(%)";
  wp ← weeks_pivot comp;
  ap ← avail_pivot comp;
  inb ← inbound wh;
  outb ← outbound wh;
  pp ← ppa prod;
  ov ← join_overview pa ca inb outb pp;
  Some {| p_prod_agg := pa; p_comp_agg := ca; p_vitc := v;
          p_vitc_obsol := vo; p_weeks_pivot := wp; p_avail_pivot := ap;
          p_inbound := inb; p_outbound := outb; p_ppa := pp;
          p_overview := ov |}.

(** ** The round filter and the export block (app.py, lines 241-244 and
    432-445)

    Frames are objects on a heap: a variable of the script holds the
    address of its frame, [.copy()] and a selection allocate a new frame,
    and [tidy[c] = ...] overwrites the frame at the address that [tidy]
    holds. *)

Abbreviation loc := positive.

Abbreviation heap := (gmap loc DataFrame).

(** A statement of the script: it reads and updates the heap, or raises. *)
Definition Py (A : Type) : Type := heap -> option (A * heap).

Definition ret {A} (a : A) : Py A := fun h => Some (a, h).

Definition bind {A B} (m : Py A) (k : A -> Py B) : Py B :=
  fun h => match m h with
           | Some (a, h') => k a h'
           | None => None
           end.

Notation "'let!' x ':=' m 'in' k" := (bind m (fun x => k))
  (at level 10, x name, m at level 100, k at level 200).

Definition lift {A} (o : option A) : Py A :=
  fun h => match o with Some a => Some (a, h) | None => None end.

Definition alloc (df : DataFrame) : Py loc :=
  fun h => let l := fresh (dom h) in Some (l, <[l := df]> h).

Definition load (l : loc) : Py DataFrame :=
  fun h => match h !! l with Some df => Some (df, h) | None => None end.

Definition store (l : loc) (df : DataFrame) : Py unit :=
  fun h => match h !! l with
           | Some _ => Some (tt, <[l := df]> h)
           | None => None
           end.

(** [x.copy()]. *)
Definition copy (l : loc) : Py loc :=
  let! df := load l in alloc df.

Fixpoint for_each {A} (xs : list A) (body : A -> Py unit) : Py unit :=
  match xs with
  | [] => ret tt
  | x :: xs' => let! _ := body x in for_each xs' body
  end.

(** [(s >= lo) & (s <= hi)]: a comparison with a missing value is false. *)
Definition between (lo hi : Z) (c : cell) : option bool :=
  match c with
  | Num x => Some (Qle_bool (inject_Z lo) x && Qle_bool x (inject_Z hi))
  | NA => Some false
  | Text _ => None
  end.

(** Lines 243-244: [ov = overview[mask].copy()]. *)
Definition slice_rounds (overview_ : loc) (sel : Z * Z) : Py loc :=
  let! df := load overview_ in
  let! r := lift (get_col "round" df) in
  let! mask := lift (mapM (between (fst sel) (snd sel)) r) in
  let! view := alloc (select_rows mask df) in
  copy view.

(** Rounding to the nearest integer, ties to the even one. *)
Definition round_half_even (x : Qc) : Z :=
  let f := Qfloor x in
  match (x - Q2Qc (inject_Z f) ?= Q2Qc (1 # 2))%Qc with
  | Lt => f
  | Gt => (f + 1)%Z
  | Eq => if Z.even f then f else (f + 1)%Z
  end.

(** [x.round(2)]. *)
Definition round2 (x : Qc) : Qc :=
  (Q2Qc (inject_Z (round_half_even (x * Q2Qc (inject_Z 100)))) / Q2Qc (inject_Z 100))%Qc.

(** One cell of [(s*100).round(2)]. *)
Definition scale_pct (c : cell) : option cell :=
  match c with
  | Num x => Some (Num (round2 (x * Q2Qc (inject_Z 100))))
  | NA => Some NA
  | Text _ => None
  end.

Definition show_cols : list string :=
  [ "round"; "avg_service_pct"; "component_availability_pct_avg";
    "fg_stock_weeks_avg"; "mape_pct"; "product_obsol_pct_avg";
    "realized_revenue"; "cogs"; "gross_margin_per_week";
    "inbound_util"; "outbound_util"; "ppa" ].

Definition pct_cols : list string :=
  [ "avg_service_pct"; "component_availability_pct_avg"; "mape_pct";
    "product_obsol_pct_avg"; "inbound_util"; "outbound_util"; "ppa" ].

(** [tidy[c] = (tidy[c]*100).round(2)]. *)
Definition rescale (tidy : loc) (c : string) : Py unit :=
  let! df := load tidy in
  let! s := lift (get_col c df) in
  let! s' := lift (mapM scale_pct s) in
  store tidy (setitem c s' df).

(** Lines 438-443: the frame handed to [st.dataframe] and [to_csv]. *)
Definition export_block (ov : loc) : Py loc :=
  let! df := load ov in
  let! sel := lift (select_cols show_cols df) in
  let! view := alloc sel in
  let! tidy := copy view in
  let! _ := for_each pct_cols (rescale tidy) in
  ret tidy.

(** What one round of the loop does to the frame of [tidy], and what
    the whole loop does to it. *)
Definition rescale_frame (c : string) (df : DataFrame) : option DataFrame :=
  s ← get_col c df;
  s' ← mapM scale_pct s;
  Some (setitem c s' df).

Fixpoint rescale_all (cols : list string) (df : DataFrame) : option DataFrame :=
  match cols with
  | [] => Some df
  | c :: cols' => df' ← rescale_frame c df; rescale_all cols' df'
  end.

(** Every object of [h] is in [h'] and is the same there. *)
Definition unchanged (h h' : heap) : Prop :=
  forall l df, h !! l = Some df -> h' !! l = Some df.

(** ** The start of the script (app.py, lines 16-67 and 180-187) *)

Inductive st_event : Type :=
| SetPageConfig
| Markdown (body : string)
| Error (msg : string)
| Element (name : string).

Inductive outcome : Type :=
| Stopped (log : list st_event)
| Rendered (log : list st_event).

Definition PRIMARY : string := "#1F2340".
Definition ACCENT : string := "#FF7A00".
Definition CARD_BG : string := "#FFFFFF".
Definition SUBTLE : string := "#F3F5F9".

(** The style sheet of lines 29-66, with the theme colours filled in. *)
Definition CUSTOM_CSS : string := "
<style>
/* Clean, modern look */
section.main > div { padding-top: 1rem; }
/* KPI cards */
.kpi-card {
  background: #FFFFFF;
  border: 1px solid #E8ECF3;
  border-radius: 14px;
  padding: 18px 18px 12px 18px;
  box-shadow: 0 2px 12px rgba(0,0,0,0.03);
}
.kpi-title {
  color: #6B7280; font-size: 0.8rem; text-transform: uppercase; letter-spacing: .06rem;
}
.kpi-value {
  font-size: 1.8rem; font-weight: 700; color: #1F2340;
}
.kpi-sub {
  color: #6B7280; font-size: 0.85rem;
}
/* Footer */
.footer {
  margin-top: 48px; padding: 16px 0; border-top: 1px solid #eaecef; color:#4B5563;
}
/* Section header watermark look */
.section-head {
  position: relative;
  padding: 12px 16px;
  background: #F3F5F9;
  border-radius: 12px;
  border: 1px solid #E8ECF3;
}
.section-head h3 {
  margin: 0; color: #1F2340;
}
</style>
".

Definition missing_sheets_msg : string :=
  "Required sheets not found. Please make sure `TFC_0_6.xlsx` has sheets: Product, Component, Warehouse, Salesarea.".

Section Script.
(** What the script emits from line 189 on, given the three sheets. *)
Variable dashboard : DataFrame -> DataFrame -> DataFrame -> list st_event.

Definition app (xl : Workbook) : outcome :=
  let log := [SetPageConfig; Markdown CUSTOM_CSS] in
  let dfs := load_excel xl in
  match product dfs, component dfs, warehouse dfs with
  | Some prod, Some comp, Some wh => Rendered (log ++ dashboard prod comp wh)
  | _, _, _ => Stopped (log ++ [Error missing_sheets_msg])
  end.
End Script.

(** ** The normal form of a label, in the words of the specification *)

Module NormSpec.

(** Every maximal run of whitespace becomes one underscore.  [in_run]
    tells that the previous character was whitespace already. *)
Fixpoint squeeze_from (in_run : bool) (s : list ascii) : list ascii :=
  match s with
  | [] => []
  | c :: s' =>
      if Str.isspace c
      then (if in_run then squeeze_from true s'
            else "_"%char :: squeeze_from true s')
      else c :: squeeze_from false s'
  end.

(** Stripped, lower-cased, and every run of whitespace replaced by a
    single separator. *)
Definition norm_spec (s : string) : string :=
  string_of_list_ascii
    (squeeze_from false
       (map Str.lower_char (Str.strip_chars (list_ascii_of_string s)))).

End NormSpec.

(** The three characters that [norm] rewrites: space, line feed and
    carriage return. *)
Definition is_gap (c : ascii) : bool :=
  Ascii.eqb c " "%char || Ascii.eqb c (ascii_of_nat 10)
  || Ascii.eqb c (ascii_of_nat 13).

Definition is_lowercase (s : string) : bool :=
  forallb (fun c => negb (Str.isupper c)) (list_ascii_of_string s).

Definition no_whitespace (s : string) : bool :=
  forallb (fun c => negb (Str.isspace c)) (list_ascii_of_string s).

Definition no_gap_chars (s : string) : bool :=
  forallb (fun c => negb (is_gap c)) (list_ascii_of_string s).

(** No leading and no trailing whitespace. *)
Definition trimmed (s : string) : bool := String.eqb (Str.strip s) s.

(** No three whitespace characters in a row. *)
Fixpoint short_gaps (s : list ascii) : bool :=
  match s with
  | [] => true
  | a :: s' =>
      match s' with
      | b :: c :: _ => negb (Str.isspace a && Str.isspace b && Str.isspace c)
      | _ => true
      end && short_gaps s'
  end.

(** Inside the label, whitespace is a space, a line feed or a carriage
    return, and comes in runs of at most two. *)
Definition simple_spacing (s : string) : bool :=
  let t := Str.strip_chars (list_ascii_of_string s) in
  forallb (fun c => implb (Str.isspace c) (is_gap c)) t && short_gaps t.

(** A label in canonical form: lower case and free of whitespace. *)
Definition canonical (s : string) : bool := is_lowercase s && no_whitespace s.

(** [norm_name] on the characters of the label: the single-character
    replacements are maps. *)
Definition swap_char (a b c : ascii) : ascii := if Ascii.eqb a c then b else c.

Definition norm_chars (s : list ascii) : list ascii :=
  map (swap_char " " "_")
    (Str.replace_from [" "%char; " "%char] [" "%char] 0
       (map (swap_char (ascii_of_nat 13) " ")
          (map (swap_char (ascii_of_nat 10) " ")
             (map Str.lower_char (Str.strip_chars s))))).

(** ** Sample sheets *)

(** An integer cell and a fraction cell. *)
Definition int_cell (n : Z) : cell := Num (Q2Qc (inject_Z n)).

Definition frac_cell (n : Z) (d : positive) : cell := Num (Q2Qc (n # d)).

(** A header cell broken over two lines, and one with a tab in it. *)
Definition stock_weeks_label : string :=
  String.append "  Stock " (String.append LF "(Weeks) ").

Definition tab_label : string :=
  String.append "unit" (String.append TAB "cost").

(** A sheet as it comes out of the workbook, before [norm]. *)
Definition raw_sheet : DataFrame :=
  [ ("Round", [int_cell 1; int_cell 2]);
    (stock_weeks_label, [int_cell 3; NA]);
    ("Gross Margin  Per Week", [int_cell 5; int_cell 8]) ].

(** Every column of the frame has [n] rows. *)
Definition rect (n : nat) (df : DataFrame) : Prop :=
  Forall (fun p => List.length (snd p) = n) df.

(** No label of [l] other than the key is a label of [r]. *)
Definition disjoint_but (on : string) (l r : DataFrame) : bool :=
  forallb (fun n => String.eqb n on || negb (has_label n r)) (labels l).

(** ** Reading a frame by round *)

Fixpoint index_of (k : cell) (s : Series) : option nat :=
  match s with
  | [] => None
  | c :: s' => if cell_eqb k c then Some 0 else S <$> index_of k s'
  end.

(** The cell of column [col] on the first row whose round is [r]. *)
Definition cell_at (df : DataFrame) (r : Qc) (col : string) : option cell :=
  rs ← get_col "round" df;
  s ← get_col col df;
  i ← index_of (Num r) rs;
  s !! i.


Definition has_numeric_col (df : DataFrame) (n : string) : bool :=
  match get_col n df with
  | Some s => numeric s
  | None => false
  end.




(** The Component sheet carries what the stock-weeks pivot reads, and no
    component is called "round". *)
Definition pivot_ok (comp : DataFrame) : bool :=
  has_numeric_col comp "round" && has_numeric_col comp "stock_(weeks)"
  && match get_col "component" comp with
     | Some c => text_or_na c
                 && forallb (fun x => negb (cell_eqb x (Text "round"))) c
     | None => false
     end.

(** The product fields aggregated by their mean: output and source. *)
Definition product_mean_fields : list (string * string) :=
  [ ("avg_service_pct", "service_level_(pieces)");
    ("fg_stock_weeks_avg", "stock_(weeks)");
    ("mape_pct", "forecast_error_(mape)");
    ("product_obsol_pct_avg", "obsoletes_(%)") ].

(** The shape of [prod_agg]: the round, the six aggregates, and [cogs]. *)
Definition product_frame (r a1 a2 a3 a4 rev gm cogs : Series) : DataFrame :=
  [ ("round", r); ("avg_service_pct", a1); ("fg_stock_weeks_avg", a2);
    ("mape_pct", a3); ("product_obsol_pct_avg", a4);
    ("realized_revenue", rev); ("gross_margin_per_week", gm);
    ("cogs", cogs) ].


(** Missing values replaced by zero. *)
Definition fill_zero (s : Series) : Series :=
  map (fun c => match c with NA => Num 0 | _ => c end) s.

Definition drop_na (s : Series) : Series :=
  List.filter (fun c => negb (is_na c)) s.

(** A product sheet: round 1 has service levels 10, missing and 20. *)
Definition sample_product : DataFrame :=
  [ ("round", [int_cell 1; int_cell 1; int_cell 2; int_cell 1; int_cell 3]);
    ("service_level_(pieces)", [int_cell 10; NA; frac_cell 9 10; int_cell 20; frac_cell 95 100]);
    ("stock_(weeks)", [int_cell 2; int_cell 3; NA; int_cell 4; int_cell 1]);
    ("forecast_error_(mape)", [frac_cell 1 4; frac_cell 1 2; frac_cell 1 5; NA; NA]);
    ("obsoletes_(%)", [NA; NA; frac_cell 1 10; NA; int_cell 0]);
    ("demand_per_week_(value)", [int_cell 100; NA; int_cell 250; int_cell 50; NA]);
    ("gross_margin_per_week", [int_cell 40; int_cell 5; NA; int_cell 15; NA]);
    ("production_plan_adherence_(%)", [frac_cell 4 5; NA; frac_cell 9 10; int_cell 1; NA]) ].



Definition sample_names : Series :=
  [ Text "Vitamin C Premix"; Text "Packaging Film"; Text "Vitamin C Premix";
    Text "Packaging Film"; NA; Text "VITAMIN D"; Text "Orange Pulp" ].

Definition sample_component : DataFrame :=
  [ ("round", [int_cell 1; int_cell 1; int_cell 1; int_cell 2; int_cell 2; int_cell 2; int_cell 3]);
    ("component", sample_names);
    ("component_availability_(%)",
      [frac_cell 9 10; frac_cell 4 5; NA; frac_cell 19 20; int_cell 1; frac_cell 1 2; NA]);
    ("stock_(weeks)", [int_cell 2; int_cell 3; int_cell 4; NA; int_cell 5; int_cell 6; NA]);
    ("obsoletes_(%)", [frac_cell 1 10; NA; frac_cell 3 10; int_cell 0; NA; frac_cell 1 5; NA]);
    ("delivery_reliability_(%)",
      [frac_cell 9 10; frac_cell 9 10; NA; int_cell 1; NA; frac_cell 7 10; frac_cell 1 2]) ].

Definition sample_warehouse : DataFrame :=
  [ ("round", [int_cell 1; int_cell 1; int_cell 2; int_cell 2]);
    ("warehouse",
      [Text "Raw materials warehouse"; Text "Finished goods warehouse";
       Text "Raw Materials Warehouse"; NA]);
    ("cube_utilization_(%)", [frac_cell 4 5; NA; frac_cell 17 20; frac_cell 1 2]) ].


(** A heap that holds an overview of three rounds at address 1. *)
Definition sample_overview : DataFrame :=
  default [] (overview sample_product sample_component sample_warehouse).

Definition sample_heap : heap := {[ 1%positive := sample_overview ]}.

(** The round filter on rounds 1 to 2, then the export block. *)
Definition sample_slice : loc * heap :=
  default (1%positive, sample_heap)
          (slice_rounds 1%positive (1, 2)%Z sample_heap).

Definition sample_export : loc * heap :=
  default sample_slice (export_block (fst sample_slice) (snd sample_slice)).

(** ** The rest of the script: what the claims leave out *)



(** The component fields aggregated by their mean: output and source. *)
Definition component_mean_fields : list (string * string) :=
  [ ("component_availability_pct_avg", "component_availability_(%)");
    ("component_stock_weeks_avg", "stock_(weeks)");
    ("component_obsolescence_pct_avg", "obsoletes_(%)");
    ("component_delivery_reliability_pct_avg", "delivery_reliability_(%)") ].

(** The mask of [s.str.contains(pat, case=False, na=False)], cell by
    cell. *)
Definition contains_mask (pat : string) (s : Series) : list bool :=
  map (fun c => match c with
                | Text x => Str.contains_ci pat x
                | _ => false
                end) s.

(** The values of [vals] on the rows that pass the mask and whose key is
    [k], in the order of the sheet. *)
Definition masked_group (mask : list bool) (keys : Series) (k : cell)
    (vals : Series) : Series :=
  mask_series
    (map (fun p => fst p && cell_eqb k (snd p)) (combine mask keys)) vals.

(** ** The sidebar and the latest round (app.py, lines 241-247) *)

Definition Qc_min (a b : Qc) : Qc := if Qle_bool a b then a else b.

Definition Qc_max (a b : Qc) : Qc := if Qle_bool a b then b else a.

(** [s.min()] and [s.max()] on a number column: the missing values are
    skipped and the result is missing when nothing is left.  The round
    is a number column, as in [group_keys]. *)
Definition series_min (s : Series) : option cell :=
  if numeric s
  then Some (match present s with
             | [] => NA
             | x :: l => Num (fold_right Qc_min x l)
             end)
  else None.

Definition series_max (s : Series) : option cell :=
  if numeric s
  then Some (match present s with
             | [] => NA
             | x :: l => Num (fold_right Qc_max x l)
             end)
  else None.

(** [int(x)] on a float: the fraction is cut off, towards zero; a
    missing value raises ValueError. *)
Definition trunc (x : Qc) : Z := Z.quot (Qnum x) (Zpos (Qden x)).

Definition to_int (c : cell) : option Z :=
  match c with
  | Num x => Some (trunc x)
  | _ => None
  end.

Definition of_int (n : Z) : Qc := Q2Qc (inject_Z n).

(** Line 241: [min_r, max_r]. *)
Definition round_bounds (overview_ : DataFrame) : option (Z * Z) :=
  r ← get_col "round" overview_;
  lo ← series_min r ≫= to_int;
  hi ← series_max r ≫= to_int;
  Some (lo, hi).

(** The test of line 243 on a round. *)
Definition in_range (sel : Z * Z) (k : Qc) : bool :=
  Qle_bool (inject_Z (fst sel)) k && Qle_bool k (inject_Z (snd sel)).

(** Line 246: [latest]. *)
Definition latest (ov : DataFrame) : option Z :=
  r ← get_col "round" ov;
  series_max r ≫= to_int.

(** [df.iloc[i]]: the row at position [i], label by label; IndexError
    when the frame has no such row. *)
Definition iloc (i : nat) (df : DataFrame) : option (list (string * cell)) :=
  match df with
  | [] => None
  | _ => mapM (fun p => c ← snd p !! i; Some (fst p, c)) df
  end.

(** [row.to_dict()]: with a label that occurs twice, the later entry
    stays. *)
Definition to_dict (row : list (string * cell)) : gmap string cell :=
  list_to_map (rev row).

(** Line 247: [ov[ov["round"] == latest].iloc[0].to_dict()]. *)
Definition ov_latest (ov : DataFrame) : option (gmap string cell) :=
  n ← latest ov;
  r ← get_col "round" ov;
  row ← iloc 0 (select_rows (map (cell_eqb (Num (of_int n))) r) ov);
  Some (to_dict row).

(** [m] is the largest of [ks]. *)
Definition is_max (m : Qc) (ks : list Qc) : Prop :=
  In m ks /\ forall k, In k ks -> (k <= m)%Qc.

Definition is_min (m : Qc) (ks : list Qc) : Prop :=
  In m ks /\ forall k, In k ks -> (m <= k)%Qc.

(** ** Charts (app.py, lines 130-172)

    A figure is kept as its traces and the titles of its axes; the
    constant parts of the layout (margins, legend, template) are left
    out.  The parameter [color] of [line_chart] is never read. *)

Inductive yaxis : Type := Y1 | Y2.

Inductive trace : Type :=
| Scatter (x y : Series) (name : string) (axis : yaxis)
| Bar (x y : Series) (name : string) (color : string).

Definition trace_name (t : trace) : string :=
  match t with Scatter _ _ n _ => n | Bar _ _ n _ => n end.

Definition trace_x (t : trace) : Series :=
  match t with Scatter x _ _ _ => x | Bar x _ _ _ => x end.

Definition trace_y (t : trace) : Series :=
  match t with Scatter _ y _ _ => y | Bar _ y _ _ => y end.

Definition trace_axis (t : trace) : yaxis :=
  match t with Scatter _ _ _ a => a | Bar _ _ _ _ => Y1 end.

Record figure : Type := {
  traces : list trace;
  title : string;
  xaxis_title : option string;
  yaxis_title : string;
  yaxis2_title : option string
}.

(** [go.Scatter(x=df[x], y=df[col], mode="lines+markers", name=col)]. *)
Definition scatter (df : DataFrame) (x col : string) (ax : yaxis)
  : option trace :=
  xs ← get_col x df;
  ys ← get_col col df;
  Some (Scatter xs ys col ax).

(** Lines 130-155.  [y] is one label or a list of labels; the second
    axis is used when [secondary_y] is a list that is not empty. *)
Definition line_chart (df : DataFrame) (x : string) (y : string + list string)
    (title_ yaxis_title_ : option string) (secondary_y : option (list string))
  : option figure :=
  t1 ← match y with
       | inr cols => mapM (fun col => scatter df x col Y1) cols
       | inl col => t ← scatter df x col Y1; Some [t]
       end;
  match secondary_y with
  | Some (c :: cs) =>
      t2 ← mapM (fun col => scatter df x col Y2) (c :: cs);
      Some {| traces := t1 ++ t2;
              title := default "" title_;
              xaxis_title := None;
              yaxis_title := default "" yaxis_title_;
              yaxis2_title := Some "" |}
  | _ =>
      Some {| traces := t1;
              title := default "" title_;
              xaxis_title := None;
              yaxis_title := default "" yaxis_title_;
              yaxis2_title := None |}
  end.

(** Lines 157-172. *)
Definition bar_line_combo (df : DataFrame) (x bar_y line_y : string)
    (title_ : option string) (y1_title y2_title : string) : option figure :=
  xs ← get_col x df;
  b ← get_col bar_y df;
  xs' ← get_col x df;
  ln ← get_col line_y df;
  Some {| traces := [Bar xs b bar_y ACCENT; Scatter xs' ln line_y Y2];
          title := default "" title_;
          xaxis_title := Some x;
          yaxis_title := y1_title;
          yaxis2_title := Some y2_title |}.

(** The labels that a call of [line_chart] reads, in the order of its
    traces. *)
Definition y_labels (y : string + list string) : list string :=
  match y with inr cols => cols | inl col => [col] end.

Definition traced (y : string + list string) (secondary_y : option (list string))
  : list string :=
  y_labels y ++ default [] secondary_y.

(** ** The charts of the dashboard (app.py, lines 270-425)

    Every chart of the overview is drawn from the slice [ov] over its
    column "round".  A title is passed on to the figure unread; a
    character beyond Latin-1 stands in it as its UTF-8 bytes. *)

Inductive chart : Type :=
| Line (y : list string) (title_ yaxis_title_ : string)
       (secondary_y : option (list string))
| BarLine (bar_y line_y title_ y1_title y2_title : string).

Definition draw (df : DataFrame) (c : chart) : option figure :=
  match c with
  | Line y t yt sec => line_chart df "round" (inr y) (Some t) (Some yt) sec
  | BarLine b l t y1 y2 => bar_line_combo df "round" b l (Some t) y1 y2
  end.

(** The charts drawn from [ov], in the order of the script. *)
Definition overview_charts : list chart :=
  [ Line ["avg_service_pct"; "component_availability_pct_avg"; "ppa"]
         "Service, Availability & Plan Adherence (%, by Round)" "%" None;
    BarLine "realized_revenue" "cogs"
            "Financials: Revenue (bars) vs COGS (line)" "Revenue" "COGS";
    Line ["fg_stock_weeks_avg"] "FG Stock Weeks (Avg)" "Weeks" None;
    Line ["mape_pct"; "product_obsol_pct_avg"]
         "MAPE & FG Obsolescence (%, by Round)" "%" None;
    Line ["component_delivery_reliability_pct_avg";
          "component_availability_pct_avg"]
         "Delivery Reliability vs Component Availability (%, by Round)"
         "%" None;
    Line ["component_obsolescence_pct_avg"; "component_stock_weeks_avg"]
         "Component Obsolescence % vs Stock Weeks (by Round)" "Value" None;
    Line ["avg_service_pct"] "Average Service Level (%, by Round)" "%" None;
    Line ["mape_pct"] "Forecast Error (MAPE %, by Round)" "%" None;
    BarLine "realized_revenue" "product_obsol_pct_avg"
            "Revenue (bars) vs FG Obsolescence % (line)"
            "Revenue" "Obsolescence %";
    Line ["component_availability_pct_avg"]
         "Component Availability (%, by Round)" "%" None;
    Line ["fg_stock_weeks_avg"] "FG Stock Weeks (by Round)" "Weeks" None;
    Line ["inbound_util"; "outbound_util"]
         "Cube Utilization (%, by Round)" "%" None;
    Line ["ppa"] "Production Plan Adherence (%, by Round)" "%" None;
    Line ["component_delivery_reliability_pct_avg";
          "component_availability_pct_avg"]
         "Purchase → Reliability & Availability (proxy for COGS risk)"
         "%" None;
    BarLine "realized_revenue" "avg_service_pct"
            "Sales → Service Level (line) vs Revenue (bars)"
            "Revenue" "Service %";
    Line ["component_availability_pct_avg"; "realized_revenue"]
         "Supply Chain → Availability vs Revenue" ""
         (Some ["realized_revenue"]);
    Line ["outbound_util"; "ppa"]
         "Operations → Utilization vs Plan Adherence (cost drivers)"
         "%" None ].

(** The labels that a chart reads beside "round". *)
Definition chart_labels (c : chart) : list string :=
  match c with
  | Line y _ _ sec => y ++ default [] sec
  | BarLine b l _ _ _ => [b; l]
  end.

(** [df.empty]: the frame has no column or no row. *)
Definition frame_empty (df : DataFrame) : bool :=
  match df with
  | [] => true
  | (_, s) :: _ => Nat.eqb (List.length s) 0
  end.

(** Line 323: [[c for c in weeks_pivot.columns if c != "round"]]. *)
Definition comp_list (weeks : DataFrame) : list string :=
  List.filter (fun c => negb (String.eqb c "round")) (labels weeks).

(** Lines 322-336: the figures of the stock-weeks tabs and of the
    availability tabs, for the first three components of the stock-weeks
    pivot. *)
Definition component_tabs (weeks avail : DataFrame)
  : option (list figure * list figure) :=
  if frame_empty weeks then Some ([], [])
  else
    let cl := take 3 (comp_list weeks) in
    f1 ← mapM (fun c => line_chart weeks "round" (inr [c])
                          (Some (String.append c " — Weeks of Stock"))
                          (Some "Weeks") None) cl;
    f2 ← mapM (fun c => line_chart avail "round" (inr [c])
                          (Some (String.append c " — Availability %"))
                          (Some "%") None) cl;
    Some (f1, f2).

(** Lines 339-341: the chart of the Vitamin-C obsolescence, when its
    table has a row. *)
Definition vitc_chart (vo : DataFrame) : option (option figure) :=
  if frame_empty vo then Some None
  else Some <$> line_chart vo "round" (inr ["obsoletes_(%)"])
                  (Some "Vitamin C Obsolescence (%)") (Some "%") None.

(** A Component sheet in which "Orange Pulp" has stock values and no
    availability value. *)
Definition pulp_components : DataFrame :=
  [ ("round", [int_cell 1; int_cell 1; int_cell 2; int_cell 2]);
    ("component",
      [Text "Orange Pulp"; Text "Vitamin C"; Text "Orange Pulp";
       Text "Vitamin C"]);
    ("component_availability_(%)",
      [NA; frac_cell 9 10; NA; frac_cell 19 20]);
    ("stock_(weeks)", [int_cell 2; int_cell 3; int_cell 4; int_cell 5]);
    ("obsoletes_(%)", [NA; frac_cell 1 10; NA; NA]);
    ("delivery_reliability_(%)", [int_cell 1; int_cell 1; NA; NA]) ].

(** ** Vocabulary of the proofs *)

(** The first character, if any, is not whitespace. *)
Definition edge_ok (s : list ascii) : Prop :=
  match s with
  | [] => True
  | c :: _ => Str.isspace c = false
  end.

(** The step [replace("  ", " ")]. *)
Abbreviation collapse := (Str.replace_from [" "%char; " "%char] [" "%char]).

Definition next_is_space (s : list ascii) : bool :=
  match s with
  | [] => false
  | y :: _ => Ascii.eqb " " y
  end.

(** A whitespace character seen as a space. *)
Definition blank (c : ascii) : ascii := if Str.isspace c then " "%char else c.

(** The sum of a field over the group of a round. *)
Abbreviation group_sum keys vals :=
  (fun k => Qc_sum (present (group_of keys (Num k) vals))).


(** A two-column table of a mean by round, with numeric cells. *)
Definition mean_table (name : string) (t : DataFrame) : Prop :=
  exists ks s,
    List.NoDup ks /\ List.length s = List.length ks /\ numeric s = true
    /\ t = [ ("round", map Num ks); (name, s) ].

(** * Proofs *)

(** ** Characters *)

Ltac all_chars c :=
  destruct c as [[] [] [] [] [] [] [] []]; vm_compute; try reflexivity; try discriminate.

Lemma isspace_lower_char c : Str.isspace (Str.lower_char c) = Str.isspace c.
Proof. all_chars c. Qed.

Lemma isupper_lower_char c : Str.isupper (Str.lower_char c) = false.
Proof. all_chars c. Qed.

Lemma is_gap_lower_char c : is_gap (Str.lower_char c) = is_gap c.
Proof. all_chars c. Qed.

Lemma lower_char_fixed c : Str.isupper c = false -> Str.lower_char c = c.
Proof. unfold Str.lower_char. now intros ->. Qed.

Lemma is_gap_isspace c : is_gap c = true -> Str.isspace c = true.
Proof. all_chars c. Qed.

Lemma is_gap_false c :
  is_gap c = false ->
  Ascii.eqb " " c = false /\ Ascii.eqb (ascii_of_nat 10) c = false
  /\ Ascii.eqb (ascii_of_nat 13) c = false.
Proof.
  unfold is_gap. rewrite !(Ascii.eqb_sym c).
  intros H. repeat (apply orb_false_elim in H as [H ?]). auto.
Qed.

(** ** [strip] *)

Lemma lstrip_fixed s : edge_ok s -> Str.lstrip_chars s = s.
Proof. destruct s as [|c s]; simpl; [easy|]. now intros ->. Qed.

Lemma lstrip_edge s : edge_ok (Str.lstrip_chars s).
Proof.
  induction s as [|c s IH]; simpl; [easy|].
  destruct (Str.isspace c) eqn:E; [exact IH|exact E].
Qed.

Lemma lstrip_snoc s c :
  Str.isspace c = false ->
  Str.lstrip_chars (s ++ [c]) = Str.lstrip_chars s ++ [c].
Proof.
  intros Hc. induction s as [|d s IH]; simpl.
  - now rewrite Hc.
  - destruct (Str.isspace d); [exact IH|reflexivity].
Qed.

Lemma rstrip_edge s : edge_ok s -> edge_ok (Str.rstrip_chars s).
Proof.
  unfold Str.rstrip_chars. destruct s as [|c s]; [easy|].
  intros Hc. simpl in Hc. simpl rev.
  rewrite lstrip_snoc by exact Hc. now rewrite rev_app_distr.
Qed.

Lemma strip_edges s :
  edge_ok (Str.strip_chars s) /\ edge_ok (rev (Str.strip_chars s)).
Proof.
  unfold Str.strip_chars. split.
  - apply rstrip_edge, lstrip_edge.
  - unfold Str.rstrip_chars. rewrite rev_involutive. apply lstrip_edge.
Qed.

Lemma strip_fixed s :
  edge_ok s -> edge_ok (rev s) -> Str.strip_chars s = s.
Proof.
  intros H1 H2. unfold Str.strip_chars, Str.rstrip_chars.
  rewrite (lstrip_fixed s H1), (lstrip_fixed _ H2). apply rev_involutive.
Qed.

Lemma edge_ok_map (f : ascii -> ascii) s :
  (forall c, Str.isspace c = false -> Str.isspace (f c) = false) ->
  edge_ok s -> edge_ok (map f s).
Proof. intros Hf. destruct s; simpl; auto. Qed.

Lemma edge_ok_rev_map (f : ascii -> ascii) s :
  (forall c, Str.isspace c = false -> Str.isspace (f c) = false) ->
  edge_ok (rev s) -> edge_ok (rev (map f s)).
Proof. intros Hf H. rewrite <- map_rev. now apply edge_ok_map. Qed.

(** ** [replace] *)

Lemma replace_single a b s :
  Str.replace_chars [a] [b] s = map (swap_char a b) s.
Proof.
  unfold Str.replace_chars. induction s as [|c s IH]; simpl; [reflexivity|].
  unfold swap_char. rewrite andb_true_r.
  destruct (Ascii.eqb a c); simpl; now rewrite IH.
Qed.

Lemma replace_from_Forall (P : ascii -> Prop) old new k s :
  Forall P new -> Forall P s -> Forall P (Str.replace_from old new k s).
Proof.
  intros Hn Hs. revert k. induction Hs as [|c s Hc Hs IH]; intros k; simpl.
  - destruct old; [exact Hn|constructor].
  - destruct k; [|apply IH].
    destruct (Str.starts_with old (c :: s)).
    + apply Forall_app. split; [exact Hn|].
      destruct old; [constructor; [exact Hc|]|]; apply IH.
    + constructor; [exact Hc|apply IH].
Qed.

Lemma collapse_step x s :
  collapse 0 (x :: s) =
  if Ascii.eqb " " x && next_is_space s
  then " "%char :: collapse 1 s
  else x :: collapse 0 s.
Proof.
  destruct s as [|y s]; cbn [Str.replace_from Str.starts_with next_is_space];
    rewrite ?andb_true_r; reflexivity.
Qed.

Lemma collapse_skip k x s : collapse (S k) (x :: s) = collapse k s.
Proof. reflexivity. Qed.

Lemma collapse_pair s :
  collapse 0 (" "%char :: " "%char :: s) = " "%char :: collapse 0 s.
Proof. reflexivity. Qed.

Lemma collapse_other c s :
  Ascii.eqb " " c = false -> collapse 0 (c :: s) = c :: collapse 0 s.
Proof. intros H. rewrite collapse_step. now rewrite H. Qed.

Lemma collapse_single c d s :
  Ascii.eqb " " d = false -> collapse 0 (c :: d :: s) = c :: collapse 0 (d :: s).
Proof.
  intros H. rewrite collapse_step. cbn [next_is_space].
  now rewrite H, andb_false_r.
Qed.

Lemma collapse_one c : collapse 0 [c] = [c].
Proof. rewrite collapse_step. cbn [next_is_space]. now rewrite andb_false_r. Qed.

Lemma collapse_fixed s :
  Forall (fun c => Ascii.eqb " " c = false) s -> collapse 0 s = s.
Proof.
  induction 1 as [|c s Hc Hs IH]; [reflexivity|].
  rewrite collapse_other by exact Hc. now rewrite IH.
Qed.

Lemma next_is_space_snoc s c :
  Ascii.eqb " " c = false -> next_is_space (s ++ [c]) = next_is_space s.
Proof. intros Hc. destruct s; simpl; [exact Hc|reflexivity]. Qed.

Lemma collapse_snoc k s c :
  Ascii.eqb " " c = false -> k <= List.length s ->
  collapse k (s ++ [c]) = collapse k s ++ [c].
Proof.
  intros Hc. revert k. induction s as [|x s IH]; intros k Hk.
  - assert (k = 0) as -> by (simpl in Hk; lia).
    rewrite app_nil_l, collapse_other by exact Hc. reflexivity.
  - rewrite <- app_comm_cons.
    destruct k as [|k]; [|rewrite !collapse_skip; simpl in Hk; apply IH; lia].
    rewrite !collapse_step, next_is_space_snoc by exact Hc.
    destruct (Ascii.eqb " " x && next_is_space s) eqn:E.
    + rewrite IH; [reflexivity|].
      apply andb_true_iff in E as [_ E]. destruct s; [discriminate E|simpl; lia].
    + rewrite IH by lia. reflexivity.
Qed.

Lemma collapse_edge s : edge_ok s -> edge_ok (collapse 0 s).
Proof.
  destruct s as [|c s]; [easy|]. intros Hc. simpl in Hc.
  rewrite collapse_other; [exact Hc|].
  destruct (Ascii.eqb_spec " " c) as [<-|]; [discriminate Hc|reflexivity].
Qed.

Lemma collapse_rev_edge s : edge_ok (rev s) -> edge_ok (rev (collapse 0 s)).
Proof.
  destruct (rev s) as [|c t] eqn:E; intros Hc.
  - apply (f_equal (@rev ascii)) in E. rewrite rev_involutive in E.
    now subst s.
  - apply (f_equal (@rev ascii)) in E. rewrite rev_involutive in E.
    subst s. simpl in *. rewrite collapse_snoc.
    + rewrite rev_app_distr. exact Hc.
    + destruct (Ascii.eqb_spec " " c) as [<-|]; [discriminate Hc|reflexivity].
    + lia.
Qed.

(** ** [norm_name] *)

Lemma norm_name_chars s :
  norm_name s = string_of_list_ascii (norm_chars (list_ascii_of_string s)).
Proof.
  unfold norm_name, Str.replace, Str.lower, Str.strip, norm_chars, LF, CR.
  rewrite !list_ascii_of_string_of_list_ascii.
  cbn [list_ascii_of_string].
  rewrite !replace_single. reflexivity.
Qed.

Lemma swap_char_nonspace a b c :
  Str.isspace a = true -> Str.isspace c = false -> swap_char a b c = c.
Proof.
  intros Ha Hc. unfold swap_char.
  destruct (Ascii.eqb_spec a c) as [->|]; [congruence|reflexivity].
Qed.

Lemma nonspace_neq_space c : Str.isspace c = false -> Ascii.eqb " " c = false.
Proof.
  intros H. destruct (Ascii.eqb_spec " " c) as [<-|]; [discriminate H|reflexivity].
Qed.

Lemma swap_char_space a b c :
  Str.isspace a = true -> Str.isspace c = false ->
  Str.isspace (swap_char a b c) = false.
Proof. intros Ha Hc. now rewrite swap_char_nonspace. Qed.

(** The result has no whitespace at either end. *)
Lemma norm_chars_edges s :
  edge_ok (norm_chars s) /\ edge_ok (rev (norm_chars s)).
Proof.
  destruct (strip_edges s) as [H1 H2]. unfold norm_chars.
  assert (Hl : forall c, Str.isspace c = false ->
                         Str.isspace (Str.lower_char c) = false)
    by (intros c; now rewrite isspace_lower_char).
  split.
  - apply edge_ok_map; [intros c Hc; now apply swap_char_space|].
    apply collapse_edge.
    repeat (apply edge_ok_map; [intros c Hc; now apply swap_char_space|]).
    now apply edge_ok_map.
  - apply edge_ok_rev_map; [intros c Hc; now apply swap_char_space|].
    apply collapse_rev_edge.
    repeat (apply edge_ok_rev_map; [intros c Hc; now apply swap_char_space|]).
    now apply edge_ok_rev_map.
Qed.

Lemma norm_chars_lower s :
  Forall (fun c => Str.isupper c = false) (norm_chars s).
Proof.
  unfold norm_chars.
  assert (Hsw : forall a b l, Str.isupper b = false ->
            Forall (fun c => Str.isupper c = false) l ->
            Forall (fun c => Str.isupper c = false) (map (swap_char a b) l)).
  { intros a b l Hb Hl. apply Forall_map. eapply Forall_impl; [exact Hl|].
    intros c Hc. simpl. unfold swap_char. now destruct (Ascii.eqb a c). }
  apply Hsw; [reflexivity|].
  apply replace_from_Forall; [repeat constructor|].
  apply Hsw; [reflexivity|]. apply Hsw; [reflexivity|].
  apply Forall_map, Forall_forall. intros c _. apply isupper_lower_char.
Qed.

Lemma is_gap_swap a c :
  is_gap (swap_char a "_" c) = true -> is_gap c = true.
Proof. unfold swap_char. destruct (Ascii.eqb a c); [discriminate|auto]. Qed.

Lemma norm_chars_no_gap s :
  Forall (fun c => is_gap c = false) (norm_chars s).
Proof.
  unfold norm_chars.
  set (t := map Str.lower_char (Str.strip_chars s)).
  assert (H1 : Forall (fun c => Ascii.eqb (ascii_of_nat 10) c = false)
                 (map (swap_char (ascii_of_nat 10) " ") t)).
  { apply Forall_map, Forall_forall. intros c _. simpl. unfold swap_char.
    destruct (Ascii.eqb (ascii_of_nat 10) c) eqn:E; [reflexivity|exact E]. }
  assert (H2 : Forall (fun c => Ascii.eqb (ascii_of_nat 10) c = false
                               /\ Ascii.eqb (ascii_of_nat 13) c = false)
                 (map (swap_char (ascii_of_nat 13) " ")
                    (map (swap_char (ascii_of_nat 10) " ") t))).
  { apply Forall_map. eapply Forall_impl; [exact H1|]. intros c Hc. simpl.
    unfold swap_char.
    destruct (Ascii.eqb (ascii_of_nat 13) c) eqn:E; [split; reflexivity|now split]. }
  apply Forall_map.
  eapply Forall_impl.
  { apply replace_from_Forall; [|exact H2]. repeat constructor. }
  intros c [Ha Hb]. simpl. unfold swap_char, is_gap.
  destruct (Ascii.eqb_spec " " c) as [<-|Hn]; [reflexivity|].
  rewrite (Ascii.eqb_sym c (ascii_of_nat 10)), (Ascii.eqb_sym c (ascii_of_nat 13)).
  rewrite Ha, Hb, !orb_false_r. now apply Ascii.eqb_neq.
Qed.

(** Without a space, line feed or carriage return there is nothing to
    replace. *)
Lemma replacements_fixed u :
  Forall (fun c => is_gap c = false) u ->
  map (swap_char " " "_")
    (collapse 0
       (map (swap_char (ascii_of_nat 13) " ")
          (map (swap_char (ascii_of_nat 10) " ") u))) = u.
Proof.
  intros Hg.
  assert (Hsw : forall a b, (forall c, is_gap c = false -> Ascii.eqb a c = false) ->
                  map (swap_char a b) u = u).
  { intros a b Ha. rewrite <- (map_id u) at 2. apply map_ext_Forall.
    eapply Forall_impl; [exact Hg|]. intros c Hc. simpl. unfold swap_char.
    now rewrite (Ha c Hc). }
  rewrite (Hsw (ascii_of_nat 10) " "%char) by (intros c Hc; now apply is_gap_false).
  rewrite (Hsw (ascii_of_nat 13) " "%char) by (intros c Hc; now apply is_gap_false).
  rewrite collapse_fixed.
  - apply Hsw. intros c Hc. now apply is_gap_false.
  - eapply Forall_impl; [exact Hg|]. intros c Hc. now apply is_gap_false.
Qed.

(** A name that holds none of the three rewritten characters once it is
    stripped is only stripped and lower-cased: any other character,
    whitespace such as a tab included, stays where it is. *)
Lemma norm_chars_no_gaps s :
  Forall (fun c => is_gap c = false) (Str.strip_chars s) ->
  norm_chars s = map Str.lower_char (Str.strip_chars s).
Proof.
  intros Hg. unfold norm_chars. apply replacements_fixed.
  apply Forall_map. eapply Forall_impl; [exact Hg|].
  intros c Hc. simpl. now rewrite is_gap_lower_char.
Qed.

(** A label without upper-case letters, without the three rewritten
    characters and without whitespace at its ends is left as it is. *)
Lemma norm_chars_fixed s :
  edge_ok s -> edge_ok (rev s) ->
  Forall (fun c => Str.isupper c = false) s ->
  Forall (fun c => is_gap c = false) s ->
  norm_chars s = s.
Proof.
  intros H1 H2 Hu Hg. rewrite norm_chars_no_gaps; rewrite (strip_fixed s H1 H2).
  - rewrite <- (map_id s) at 2. apply map_ext_Forall.
    eapply Forall_impl; [exact Hu|]. intros c Hc. now apply lower_char_fixed.
  - exact Hg.
Qed.

Lemma norm_chars_idem s : norm_chars (norm_chars s) = norm_chars s.
Proof.
  destruct (norm_chars_edges s) as [H1 H2].
  apply norm_chars_fixed; auto using norm_chars_lower, norm_chars_no_gap.
Qed.

(** ** [norm_name] against the normal form of the specification *)

Lemma blank_swaps c :
  (Str.isspace c = true -> is_gap c = true) ->
  swap_char (ascii_of_nat 13) " " (swap_char (ascii_of_nat 10) " " c) = blank c.
Proof.
  intros H. unfold blank. destruct (Str.isspace c) eqn:E.
  - specialize (H eq_refl). unfold is_gap in H. unfold swap_char.
    destruct (Ascii.eqb_spec (ascii_of_nat 10) c) as [<-|N1]; [reflexivity|].
    destruct (Ascii.eqb_spec (ascii_of_nat 13) c) as [<-|N2]; [reflexivity|].
    destruct (Ascii.eqb_spec c " ") as [->|N3]; [reflexivity|].
    destruct (Ascii.eqb_spec c (ascii_of_nat 10)) as [->|N4]; [congruence|].
    destruct (Ascii.eqb_spec c (ascii_of_nat 13)) as [->|N5]; [congruence|].
    discriminate H.
  - rewrite (swap_char_nonspace _ _ c) by (reflexivity || exact E).
    now apply swap_char_nonspace.
Qed.

Lemma squeeze_from_run s :
  edge_ok s -> NormSpec.squeeze_from true s = NormSpec.squeeze_from false s.
Proof. destruct s as [|c s]; simpl; [reflexivity|]. now intros ->. Qed.

Lemma short_gaps_tail c s : short_gaps (c :: s) = true -> short_gaps s = true.
Proof. cbn [short_gaps]. intros H. now apply andb_true_iff in H as [_ H]. Qed.

Lemma collapse_squeeze n : forall u,
  List.length u <= n -> short_gaps u = true ->
  map (swap_char " " "_") (collapse 0 (map blank u))
  = NormSpec.squeeze_from false u.
Proof.
  induction n as [|n IH]; intros u Hn Hs.
  { destruct u; [reflexivity|simpl in Hn; lia]. }
  destruct u as [|c u]; [reflexivity|].
  pose proof (short_gaps_tail _ _ Hs) as Hs1.
  cbn [map NormSpec.squeeze_from]. unfold blank at 1.
  destruct (Str.isspace c) eqn:Ec.
  2:{ rewrite collapse_other by now apply nonspace_neq_space.
      cbn [map]. unfold swap_char at 1.
      rewrite (nonspace_neq_space c Ec). f_equal.
      apply IH; [simpl in Hn; lia|exact Hs1]. }
  destruct u as [|d u]; [reflexivity|].
  pose proof (short_gaps_tail _ _ Hs1) as Hs2.
  cbn [map NormSpec.squeeze_from]. unfold blank at 1.
  destruct (Str.isspace d) eqn:Ed.
  - rewrite collapse_pair. cbn [map]. unfold swap_char at 1. cbn [Ascii.eqb].
    change (Ascii.eqb " " " ") with true. cbv iota. f_equal.
    rewrite squeeze_from_run.
    + apply IH; [simpl in Hn; lia|exact Hs2].
    + destruct u as [|e u]; [exact I|]. simpl.
      cbn [short_gaps] in Hs. rewrite Ec, Ed in Hs. simpl in Hs.
      apply andb_true_iff in Hs as [Hs _]. now apply negb_true_iff in Hs.
  - rewrite collapse_single by now apply nonspace_neq_space.
    cbn [map]. unfold swap_char at 1. change (Ascii.eqb " " " ") with true.
    cbv iota. f_equal.
    specialize (IH (d :: u)). cbn [map NormSpec.squeeze_from] in IH.
    unfold blank at 1 in IH. rewrite Ed in IH.
    apply IH; [simpl in Hn |- *; lia|exact Hs1].
Qed.

Lemma short_gaps_map_lower s :
  short_gaps (map Str.lower_char s) = short_gaps s.
Proof.
  induction s as [|a s IH]; [reflexivity|].
  cbn [short_gaps map]. rewrite IH. f_equal.
  destruct s as [|b [|c s]]; try reflexivity.
  cbn [map]. now rewrite !isspace_lower_char.
Qed.

Lemma norm_chars_spec s :
  simple_spacing (string_of_list_ascii s) = true ->
  norm_chars s
  = NormSpec.squeeze_from false (map Str.lower_char (Str.strip_chars s)).
Proof.
  unfold simple_spacing. rewrite list_ascii_of_string_of_list_ascii.
  intros H. apply andb_true_iff in H as [Hp Hs].
  unfold norm_chars. set (t := Str.strip_chars s) in *.
  rewrite <- (collapse_squeeze (List.length (map Str.lower_char t)));
    [|lia|now rewrite short_gaps_map_lower].
  do 2 f_equal.
  rewrite (map_map (swap_char (ascii_of_nat 10) " ")).
  apply map_ext_Forall, Forall_map. rewrite forallb_forall in Hp.
  apply List.Forall_forall. intros c Hc.
  specialize (Hp c Hc). simpl. apply blank_swaps.
  rewrite isspace_lower_char, is_gap_lower_char.
  intros E. now rewrite E in Hp.
Qed.

Lemma squeeze_from_no_space b s :
  Forall (fun c => Str.isspace c = false) (NormSpec.squeeze_from b s).
Proof.
  revert b. induction s as [|c s IH]; intros b; simpl; [constructor|].
  destruct (Str.isspace c) eqn:E.
  - destruct b; [apply IH|constructor; [reflexivity|apply IH]].
  - constructor; [exact E|apply IH].
Qed.

Lemma forallb_negb_Forall (f : ascii -> bool) l :
  forallb (fun c => negb (f c)) l = true <-> Forall (fun c => f c = false) l.
Proof.
  rewrite forallb_forall, List.Forall_forall.
  split; intros H c Hc; specialize (H c Hc); now destruct (f c).
Qed.

Lemma norm_name_lowercase s : is_lowercase (norm_name s) = true.
Proof.
  unfold is_lowercase. rewrite norm_name_chars, list_ascii_of_string_of_list_ascii.
  apply forallb_negb_Forall, norm_chars_lower.
Qed.

Lemma norm_name_no_gap s : no_gap_chars (norm_name s) = true.
Proof.
  unfold no_gap_chars. rewrite norm_name_chars, list_ascii_of_string_of_list_ascii.
  apply forallb_negb_Forall, norm_chars_no_gap.
Qed.

Lemma norm_name_trimmed s : trimmed (norm_name s) = true.
Proof.
  unfold trimmed, Str.strip. apply String.eqb_eq.
  rewrite norm_name_chars, list_ascii_of_string_of_list_ascii.
  destruct (norm_chars_edges (list_ascii_of_string s)) as [H1 H2].
  now rewrite strip_fixed.
Qed.

Lemma norm_name_spec s :
  simple_spacing s = true ->
  norm_name s = NormSpec.norm_spec s /\ no_whitespace (norm_name s) = true.
Proof.
  intros H.
  assert (E : norm_name s = NormSpec.norm_spec s).
  { rewrite norm_name_chars. unfold NormSpec.norm_spec. f_equal.
    apply norm_chars_spec. now rewrite string_of_list_ascii_of_string. }
  split; [exact E|]. rewrite E. unfold no_whitespace, NormSpec.norm_spec.
  rewrite list_ascii_of_string_of_list_ascii.
  apply forallb_negb_Forall, squeeze_from_no_space.
Qed.

Lemma Forall_edge_ok s :
  Forall (fun c => Str.isspace c = false) s -> edge_ok s /\ edge_ok (rev s).
Proof.
  intros H. split.
  - destruct H; simpl; auto.
  - apply Forall_rev in H. destruct H; simpl; auto.
Qed.

Lemma norm_name_fixed s : canonical s = true -> norm_name s = s.
Proof.
  unfold canonical, is_lowercase, no_whitespace. intros H.
  apply andb_true_iff in H as [Hl Hw].
  apply forallb_negb_Forall in Hl. apply forallb_negb_Forall in Hw.
  rewrite norm_name_chars. destruct (Forall_edge_ok _ Hw) as [H1 H2].
  rewrite norm_chars_fixed; auto using string_of_list_ascii_of_string.
  eapply Forall_impl; [exact Hw|]. intros c Hc. simpl.
  destruct (is_gap c) eqn:E; [|reflexivity].
  apply is_gap_isspace in E. congruence.
Qed.

Lemma norm_name_idem s : norm_name (norm_name s) = norm_name s.
Proof.
  rewrite (norm_name_chars (norm_name s)), (norm_name_chars s).
  now rewrite list_ascii_of_string_of_list_ascii, norm_chars_idem.
Qed.

Lemma labels_norm df : labels (norm df) = map norm_name (labels df).
Proof. unfold labels, norm. now rewrite !map_map. Qed.

Lemma norm_name_no_gaps s :
  no_gap_chars (Str.strip s) = true -> norm_name s = Str.lower (Str.strip s).
Proof.
  unfold no_gap_chars, Str.strip, Str.lower.
  rewrite !list_ascii_of_string_of_list_ascii. intros H.
  apply forallb_negb_Forall in H.
  rewrite norm_name_chars. f_equal. now apply norm_chars_no_gaps.
Qed.

(** C1 (amended).  For every sheet, each label of the normalised frame is
    the normalised source label; it is lower case, has no whitespace at
    either end and holds no space, line feed or carriage return.  When the
    whitespace inside the source label consists of spaces, line feeds and
    carriage returns in runs of at most two, the label is exactly the
    stripped, lower-cased name with every run of whitespace replaced by
    one underscore, and it holds no whitespace at all.  A name that holds
    none of these three characters inside is only stripped and
    lower-cased: other whitespace, such as a tab, stays in place. *)
Theorem norm_labels_normal_form (df : DataFrame) :
  labels (norm df) = map norm_name (labels df)
  /\ Forall (fun n => is_lowercase n = true /\ trimmed n = true
                      /\ no_gap_chars n = true) (labels (norm df))
  /\ (forall n, In n (labels df) -> simple_spacing n = true ->
        norm_name n = NormSpec.norm_spec n
        /\ no_whitespace (norm_name n) = true)
  /\ (forall n, In n (labels df) -> no_gap_chars (Str.strip n) = true ->
        norm_name n = Str.lower (Str.strip n)).
Proof.
  split; [apply labels_norm|]. split; [|split].
  - rewrite labels_norm. apply Forall_map, List.Forall_forall. intros n _.
    simpl. auto using norm_name_lowercase, norm_name_trimmed, norm_name_no_gap.
  - intros n _. apply norm_name_spec.
  - intros n _. apply norm_name_no_gaps.
Qed.

Lemma norm_labels_normal_form_witness :
  norm_name stock_weeks_label = "stock_(weeks)"
  /\ NormSpec.norm_spec stock_weeks_label = "stock_(weeks)".
Proof.
  assert (H := proj1 (proj2 (proj2 (norm_labels_normal_form raw_sheet)))
                 stock_weeks_label).
  destruct H as [H _].
  - right. left. reflexivity.
  - reflexivity.
  - rewrite <- H. split; reflexivity.
Defined.

(** C1 as stated fails: a tab inside a name survives, and a run of three
    spaces leaves two adjacent underscores where the specification's
    normal form has one. *)
Lemma norm_name_counterexample :
  norm_name tab_label = tab_label
  /\ no_whitespace (norm_name tab_label) = false
  /\ norm_name "stock   weeks" = "stock__weeks"
  /\ NormSpec.norm_spec "stock   weeks" = "stock_weeks".
Proof. repeat split; reflexivity. Qed.

(** C9.  Normalising a frame whose labels are already canonical (lower
    case, no whitespace) changes nothing, and normalising twice is the
    same as normalising once, for every frame. *)
Theorem norm_idempotent :
  (forall df, forallb canonical (labels df) = true -> norm df = df)
  /\ (forall df, norm (norm df) = norm df
                 /\ labels (norm (norm df)) = labels (norm df)).
Proof.
  split.
  - intros df H. unfold norm. rewrite <- (map_id df) at 2.
    apply map_ext_in. intros [n s] Hin. simpl. f_equal.
    apply norm_name_fixed. rewrite forallb_forall in H. apply H.
    unfold labels. apply in_map_iff. now exists (n, s).
  - intros df.
    assert (E : norm (norm df) = norm df).
    { unfold norm. rewrite map_map. apply map_ext. intros [n s]. simpl.
      now rewrite norm_name_idem. }
    now rewrite E.
Qed.

Lemma norm_idempotent_witness :
  norm (norm raw_sheet) = norm raw_sheet
  /\ labels (norm raw_sheet) = ["round"; "stock_(weeks)"; "gross_margin_per_week"].
Proof.
  split; [|reflexivity].
  apply (proj1 norm_idempotent (norm raw_sheet)). reflexivity.
Defined.

(** ** Frames *)

Lemma has_label_In n df : has_label n df = true <-> In n (labels df).
Proof.
  unfold has_label. rewrite existsb_exists. split.
  - intros [m [Hm E]]. apply String.eqb_eq in E. now subst.
  - intros H. exists n. split; [exact H|apply String.eqb_refl].
Qed.

Lemma has_label_false n df : has_label n df = false <-> ~ In n (labels df).
Proof.
  rewrite <- has_label_In. destruct (has_label n df); split; congruence.
Qed.

Lemma filter_label_nil n (df : DataFrame) :
  has_label n df = false ->
  List.filter (fun p => String.eqb (fst p) n) df = [].
Proof.
  induction df as [|[m s] df IH]; [reflexivity|]. unfold has_label. simpl.
  rewrite (String.eqb_sym m n). destruct (String.eqb n m); [discriminate|].
  exact IH.
Qed.

Lemma filter_label_cons n (df : DataFrame) :
  has_label n df = true ->
  exists p rest, List.filter (fun p => String.eqb (fst p) n) df = p :: rest.
Proof.
  induction df as [|[m s] df IH]; [discriminate|]. unfold has_label. simpl.
  rewrite (String.eqb_sym m n). destruct (String.eqb n m); eauto.
Qed.

(** [get_col] along the columns of the frame. *)
Lemma get_col_cons n m s df :
  get_col n ((m, s) :: df) =
  if String.eqb m n
  then (if has_label n df then None else Some s)
  else get_col n df.
Proof.
  unfold get_col. simpl. destruct (String.eqb m n); [|reflexivity].
  destruct (has_label n df) eqn:E.
  - destruct (filter_label_cons n df E) as (p & rest & ->). reflexivity.
  - now rewrite filter_label_nil.
Qed.

Lemma get_col_nil n : get_col n [] = None.
Proof. reflexivity. Qed.

Lemma get_col_absent n df : has_label n df = false -> get_col n df = None.
Proof. intros H. unfold get_col. now rewrite filter_label_nil. Qed.

Lemma get_col_In n s df : get_col n df = Some s -> In (n, s) df.
Proof.
  induction df as [|[m t] df IH]; [discriminate|].
  rewrite get_col_cons. destruct (String.eqb_spec m n) as [->|].
  - destruct (has_label n df); [discriminate|]. intros [= ->]. now left.
  - intros H. right. auto.
Qed.

Lemma get_col_has_label n s df : get_col n df = Some s -> has_label n df = true.
Proof.
  intros H. apply has_label_In. apply get_col_In in H.
  unfold labels. apply in_map_iff. now exists (n, s).
Qed.

Lemma get_col_app_l n df1 df2 :
  has_label n df2 = false -> get_col n (df1 ++ df2) = get_col n df1.
Proof.
  intros H. unfold get_col. now rewrite List.filter_app, (filter_label_nil n df2 H), app_nil_r.
Qed.

Lemma get_col_app_r n df1 df2 :
  has_label n df1 = false -> get_col n (df1 ++ df2) = get_col n df2.
Proof.
  intros H. unfold get_col. now rewrite List.filter_app, (filter_label_nil n df1 H).
Qed.

Lemma has_label_app n df1 df2 :
  has_label n (df1 ++ df2) = has_label n df1 || has_label n df2.
Proof. unfold has_label, labels. now rewrite map_app, existsb_app. Qed.

Lemma get_col_map_series (f : Series -> Series) n df :
  get_col n (map (fun p => (fst p, f (snd p))) df) = f <$> get_col n df.
Proof.
  assert (Hl : forall d, has_label n (map (fun p => (fst p, f (snd p))) d)
                         = has_label n d).
  { intros d. unfold has_label, labels. now rewrite map_map. }
  induction df as [|[m s] df IH]; [reflexivity|].
  cbn [map fst snd]. rewrite !get_col_cons, Hl, IH.
  destruct (String.eqb m n); [|reflexivity]. now destruct (has_label n df).
Qed.

Lemma labels_setitem_old n s df :
  has_label n df = true -> labels (setitem n s df) = labels df.
Proof.
  intros H. unfold setitem. rewrite H. unfold labels. rewrite map_map.
  apply map_ext. intros [m t]. simpl. now destruct (String.eqb m n).
Qed.

Lemma get_col_setitem_ne n m s df :
  n <> m -> get_col n (setitem m s df) = get_col n df.
Proof.
  intros Hne. unfold setitem. destruct (has_label m df).
  - assert (Hl : forall d, has_label n
        (map (fun p : string * Series => if String.eqb (fst p) m then (fst p, s) else p) d)
        = has_label n d).
    { intros d. unfold has_label, labels. rewrite map_map. f_equal.
      apply map_ext. intros [k t]. simpl. now destruct (String.eqb k m). }
    induction df as [|[k t] df IH]; [reflexivity|]. cbn [map fst].
    destruct (String.eqb_spec k m) as [->|Hk].
    + rewrite !get_col_cons. destruct (String.eqb_spec m n); [congruence|].
      exact IH.
    + rewrite !get_col_cons, Hl, IH. reflexivity.
  - apply get_col_app_l. unfold has_label. simpl.
    destruct (String.eqb_spec n m); [congruence|reflexivity].
Qed.

Lemma get_col_setitem_new n s df :
  has_label n df = false -> get_col n (setitem n s df) = Some s.
Proof.
  intros H. unfold setitem. rewrite H, get_col_app_r by exact H.
  rewrite get_col_cons, String.eqb_refl. reflexivity.
Qed.

(** ** Aggregation *)

Lemma present_drop_na s : present (drop_na s) = present s.
Proof. induction s as [|[| |] s IH]; simpl; congruence. Qed.

Lemma agg_mean_drop_na s : agg_mean (drop_na s) = agg_mean s.
Proof. unfold agg_mean. now rewrite present_drop_na. Qed.

Lemma present_fill_zero s :
  Qc_sum (present (fill_zero s)) = Qc_sum (present s).
Proof.
  induction s as [|[|x|t] s IH]; simpl.
  - reflexivity.
  - rewrite IH. apply Qcplus_0_l.
  - now rewrite IH.
  - exact IH.
Qed.

Lemma agg_sum_fill_zero s : agg_sum (fill_zero s) = agg_sum s.
Proof. unfold agg_sum. now rewrite present_fill_zero. Qed.

Lemma Num_eq (x y : Qc) : Qeq x y -> Num x = Num y.
Proof. intros H. f_equal. now apply Qc_is_canon. Qed.

Lemma groupby_agg_inv df by_ specs out :
  groupby_agg df by_ specs = Some out ->
  exists keys ks cols,
    get_col by_ df = Some keys
    /\ group_keys keys = Some ks
    /\ Forall2 (fun spec col =>
                  exists vals, get_col (fst (snd spec)) df = Some vals
                               /\ numeric vals = true
                               /\ col = (fst spec, agg_series (snd (snd spec)) keys ks vals))
               specs cols
    /\ out = (by_, map Num ks) :: cols.
Proof.
  unfold groupby_agg. intros H.
  apply bind_Some in H as (keys & Ek & H).
  apply bind_Some in H as (ks & Eg & H).
  apply bind_Some in H as (cols & Em & H).
  injection H as <-.
  exists keys, ks, cols. repeat split; auto.
  apply mapM_Some in Em. eapply Forall2_impl; [exact Em|].
  intros spec col Hc. unfold agg_column in Hc.
  apply bind_Some in Hc as (vals & Ev & Hc).
  destruct (numeric vals) eqn:En; [|discriminate]. injection Hc as <-.
  now exists vals.
Qed.


Lemma lookup_map {A B} (f : A -> B) l i : map f l !! i = f <$> l !! i.
Proof. revert i. induction l as [|a l IH]; intros [|i]; simpl; auto. Qed.

Lemma lookup_combine {A B} (a : list A) (b : list B) i x y :
  a !! i = Some x -> b !! i = Some y -> combine a b !! i = Some (x, y).
Proof.
  revert b i. induction a as [|a0 a IH]; intros [|b0 b] [|i]; simpl;
    try discriminate; auto.
  now intros [= ->] [= ->].
Qed.


Lemma series_sub_nums {K} (f g : K -> Qc) ks :
  series_sub (map (fun k => Num (f k)) ks) (map (fun k => Num (g k)) ks)
  = Some (map (fun k => Num (f k - g k)) ks).
Proof.
  unfold series_sub. apply mapM_Some.
  induction ks as [|k ks IH]; simpl; constructor; auto.
Qed.



Ltac invert_aggs Hc :=
  repeat match type of Hc with
         | Forall2 _ (_ :: _) _ =>
             let v := fresh "vals" in
             let Hv := fresh "Hv" in
             let Hn := fresh "Hn" in
             apply Forall2_cons_inv_l in Hc as (? & ? & (v & Hv & Hn & ->) & Hc & ->);
             cbn [fst snd] in Hv
         | Forall2 _ [] _ => apply Forall2_nil_inv_l in Hc as ->
         end.

(** The six product aggregates, column by column. *)
Lemma groupby_product_inv prod g :
  groupby_agg prod "round" product_aggs = Some g ->
  exists keys ks s1 s2 s3 s4 s5 s6,
    get_col "round" prod = Some keys
    /\ group_keys keys = Some ks
    /\ get_col "service_level_(pieces)" prod = Some s1
    /\ get_col "stock_(weeks)" prod = Some s2
    /\ get_col "forecast_error_(mape)" prod = Some s3
    /\ get_col "obsoletes_(%)" prod = Some s4
    /\ get_col "demand_per_week_(value)" prod = Some s5
    /\ get_col "gross_margin_per_week" prod = Some s6
    /\ g = [ ("round", map Num ks);
             ("avg_service_pct", agg_series Mean keys ks s1);
             ("fg_stock_weeks_avg", agg_series Mean keys ks s2);
             ("mape_pct", agg_series Mean keys ks s3);
             ("product_obsol_pct_avg", agg_series Mean keys ks s4);
             ("realized_revenue", agg_series Sum keys ks s5);
             ("gross_margin_per_week", agg_series Sum keys ks s6) ].
Proof.
  intros Hg.
  apply groupby_agg_inv in Hg as (keys & ks & cols & Hk & Hks & Hc & ->).
  unfold product_aggs in Hc. invert_aggs Hc.
  exists keys, ks. do 6 eexists.
  repeat (split; [eassumption|]). reflexivity.
Qed.

Lemma add_cogs_product r a1 a2 a3 a4 (f g : Qc -> Qc) ks :
  add_cogs [ ("round", r); ("avg_service_pct", a1); ("fg_stock_weeks_avg", a2);
             ("mape_pct", a3); ("product_obsol_pct_avg", a4);
             ("realized_revenue", map (fun k => Num (f k)) ks);
             ("gross_margin_per_week", map (fun k => Num (g k)) ks) ]
  = Some (product_frame r a1 a2 a3 a4
            (map (fun k => Num (f k)) ks) (map (fun k => Num (g k)) ks)
            (map (fun k => Num (f k - g k)) ks)).
Proof.
  unfold add_cogs.
  change (get_col "realized_revenue" _) with (Some (map (fun k => Num (f k)) ks)).
  cbn [mbind option_bind].
  change (get_col "gross_margin_per_week" _) with (Some (map (fun k => Num (g k)) ks)).
  cbn [mbind option_bind].
  rewrite series_sub_nums. reflexivity.
Qed.

(** The aggregated product table, column by column. *)
Lemma prod_agg_inv prod pa :
  prod_agg prod = Some pa ->
  exists keys ks s1 s2 s3 s4 s5 s6,
    get_col "round" prod = Some keys
    /\ group_keys keys = Some ks
    /\ get_col "service_level_(pieces)" prod = Some s1
    /\ get_col "stock_(weeks)" prod = Some s2
    /\ get_col "forecast_error_(mape)" prod = Some s3
    /\ get_col "obsoletes_(%)" prod = Some s4
    /\ get_col "demand_per_week_(value)" prod = Some s5
    /\ get_col "gross_margin_per_week" prod = Some s6
    /\ pa = product_frame (map Num ks)
              (agg_series Mean keys ks s1) (agg_series Mean keys ks s2)
              (agg_series Mean keys ks s3) (agg_series Mean keys ks s4)
              (agg_series Sum keys ks s5) (agg_series Sum keys ks s6)
              (map (fun k => Num (group_sum keys s5 k - group_sum keys s6 k)) ks).
Proof.
  unfold prod_agg. intros H. apply bind_Some in H as (g & Hg & H).
  apply groupby_product_inv in Hg
    as (keys & ks & s1 & s2 & s3 & s4 & s5 & s6 & H0 & Hk & H1 & H2 & H3 & H4 & H5 & H6 & ->).
  unfold agg_series at 5 6 in H. cbn [aggregate] in H. unfold agg_sum in H.
  rewrite (add_cogs_product _ _ _ _ _ (group_sum keys s5) (group_sum keys s6)) in H.
  injection H as <-.
  exists keys, ks, s1, s2, s3, s4, s5, s6. repeat (split; [assumption|]).
  reflexivity.
Qed.

(** ** Sorted distinct keys *)

Section SortUniqFacts.
Context {A : Type} (cmp : A -> A -> comparison).
Hypothesis cmp_eq : forall x y, cmp x y = Eq <-> x = y.
Hypothesis cmp_gt : forall x y, cmp x y = Gt -> cmp y x = Lt.
Hypothesis cmp_trans :
  forall x y z, cmp x y = Lt -> cmp y z = Lt -> cmp x z = Lt.

Lemma insert_uniq_In x y l :
  In y (insert_uniq cmp x l) <-> y = x \/ In y l.
Proof.
  induction l as [|z l IH]; simpl; [intuition|].
  destruct (cmp x z) eqn:E; simpl.
  - apply cmp_eq in E. subst z. intuition.
  - intuition.
  - rewrite IH. intuition.
Qed.

Lemma sort_uniq_In y l : In y (sort_uniq cmp l) <-> In y l.
Proof.
  unfold sort_uniq. induction l as [|x l IH]; simpl; [reflexivity|].
  rewrite insert_uniq_In, IH. intuition.
Qed.

Lemma insert_uniq_increasing x l :
  increasing cmp l -> increasing cmp (insert_uniq cmp x l).
Proof.
  unfold increasing. induction 1 as [|z l Hl IH Hz]; simpl.
  - repeat constructor.
  - destruct (cmp x z) eqn:E.
    + now constructor.
    + constructor; [now constructor|]. constructor; [exact E|].
      eapply Forall_impl; [exact Hz|]. intros w Hw. simpl. eauto.
    + constructor; [exact IH|]. apply List.Forall_forall. intros w Hw.
      apply insert_uniq_In in Hw as [->|Hw]; [now apply cmp_gt|].
      rewrite List.Forall_forall in Hz. auto.
Qed.

Lemma sort_uniq_increasing l : increasing cmp (sort_uniq cmp l).
Proof.
  unfold sort_uniq. induction l as [|x l IH]; simpl; [constructor|].
  now apply insert_uniq_increasing.
Qed.

Lemma increasing_NoDup l : increasing cmp l -> List.NoDup l.
Proof.
  induction 1 as [|z l Hl IH Hz]; constructor; [|exact IH].
  intros Hin. rewrite List.Forall_forall in Hz. specialize (Hz z Hin).
  assert (cmp z z = Eq) as E by now apply cmp_eq. congruence.
Qed.

Lemma sort_uniq_NoDup l : List.NoDup (sort_uniq cmp l).
Proof. apply increasing_NoDup, sort_uniq_increasing. Qed.

(** Sorting a list that is increasing already gives it back. *)
Lemma sort_uniq_fixed l : increasing cmp l -> sort_uniq cmp l = l.
Proof.
  unfold sort_uniq. induction 1 as [|z l Hl IH Hz]; simpl; [reflexivity|].
  rewrite IH. destruct l as [|w l]; [reflexivity|]. simpl.
  inversion Hz as [|? ? Hw _]; subst. now rewrite Hw.
Qed.
End SortUniqFacts.

Lemma Qccompare_eq x y : Qccompare x y = Eq <-> x = y.
Proof. symmetry. apply Qceq_alt. Qed.

Lemma Qccompare_gt x y : Qccompare x y = Gt -> Qccompare y x = Lt.
Proof. intros H. apply Qclt_alt. now apply Qcgt_alt in H. Qed.

Lemma Qccompare_trans x y z :
  Qccompare x y = Lt -> Qccompare y z = Lt -> Qccompare x z = Lt.
Proof.
  intros H1 H2. apply Qclt_alt. apply Qclt_alt in H1, H2.
  eapply Qclt_trans; eauto.
Qed.

Lemma ascii_compare_refl a : Ascii.compare a a = Eq.
Proof. unfold Ascii.compare. apply N.compare_refl. Qed.

Lemma string_compare_eq x y : String.compare x y = Eq <-> x = y.
Proof.
  split; [apply String.compare_eq_iff|]. intros <-.
  induction x as [|a x IH]; simpl; [reflexivity|].
  now rewrite ascii_compare_refl.
Qed.

Lemma string_compare_gt x y :
  String.compare x y = Gt -> String.compare y x = Lt.
Proof. intros H. rewrite String.compare_antisym, H. reflexivity. Qed.

Lemma string_compare_trans x : forall y z,
  String.compare x y = Lt -> String.compare y z = Lt -> String.compare x z = Lt.
Proof.
  induction x as [|a x IH]; intros [|b y] [|c z]; simpl; try congruence.
  unfold Ascii.compare.
  destruct (N.compare_spec (N_of_ascii a) (N_of_ascii b)) as [E1|L1|G1];
    destruct (N.compare_spec (N_of_ascii b) (N_of_ascii c)) as [E2|L2|G2];
    try discriminate; intros H1 H2.
  - rewrite E1, E2, N.compare_refl. eauto.
  - rewrite E1. now apply N.compare_lt_iff in L2 as ->.
  - rewrite <- E2. now apply N.compare_lt_iff in L1 as ->.
  - assert (N_of_ascii a < N_of_ascii c)%N as L by lia.
    now apply N.compare_lt_iff in L as ->.
Qed.

Lemma Qc_eqb_eq x y : Qc_eqb x y = true <-> x = y.
Proof.
  unfold Qc_eqb. rewrite Qeq_bool_iff. split; [apply Qc_is_canon|now intros ->].
Qed.

Lemma cell_eqb_eq a b : cell_eqb a b = true <-> a = b.
Proof.
  destruct a, b; simpl; try (split; (congruence || discriminate)).
  - rewrite Qc_eqb_eq. split; congruence.
  - rewrite String.eqb_eq. split; congruence.
Qed.

Lemma cell_eqb_refl a : cell_eqb a a = true.
Proof. now apply cell_eqb_eq. Qed.

Lemma group_keys_NoDup keys ks : group_keys keys = Some ks -> List.NoDup ks.
Proof.
  unfold group_keys. destruct (numeric keys); [|discriminate].
  intros [= <-].
  apply sort_uniq_NoDup.
  - apply Qccompare_eq.
  - apply Qccompare_gt.
  - apply Qccompare_trans.
Qed.

Lemma present_In x s : In x (present s) <-> In (Num x) s.
Proof.
  induction s as [|[|y|t] s IH]; simpl; rewrite ?IH; try tauto.
  - split; [tauto|]. intros [H|H]; [discriminate|tauto].
  - split; [intros [->|H]; tauto|]. intros [[= ->]|H]; tauto.
  - split; [tauto|]. intros [H|H]; [discriminate|tauto].
Qed.

Lemma group_keys_In keys ks x :
  group_keys keys = Some ks -> (In x ks <-> In (Num x) keys).
Proof.
  unfold group_keys. destruct (numeric keys); [|discriminate].
  intros [= <-]. rewrite sort_uniq_In by apply Qccompare_eq.
  apply present_In.
Qed.

(** ** The product aggregates: COGS and the means *)





(** ** Means and sums over a group *)

Lemma mask_series_In {A} (mask : list bool) (s : list A) x :
  In x (mask_series mask s) -> exists i, mask !! i = Some true /\ s !! i = Some x.
Proof.
  unfold mask_series. revert s. induction mask as [|b mask IH]; intros [|y s];
    simpl; try tauto.
  destruct b; simpl.
  - intros [->|H]; [now exists 0|].
    destruct (IH s H) as (i & ? & ?). now exists (S i).
  - intros H. destruct (IH s H) as (i & ? & ?). now exists (S i).
Qed.

Lemma group_of_key keys k vals :
  group_of keys k vals <> [] -> In k keys.
Proof.
  unfold group_of. intros H.
  destruct (mask_series (map (cell_eqb k) keys) vals) as [|x l] eqn:E; [easy|].
  destruct (mask_series_In (map (cell_eqb k) keys) vals x) as (i & Hi & _).
  { rewrite E. now left. }
  rewrite lookup_map in Hi.
  apply fmap_Some in Hi as (c & Ec & Hi).
  symmetry in Hi. apply cell_eqb_eq in Hi. subst c.
  apply list_elem_of_In, list_elem_of_lookup. eauto.
Qed.

Lemma index_of_map_Num ks r :
  In r ks -> exists i, index_of (Num r) (map Num ks) = Some i /\ ks !! i = Some r.
Proof.
  induction ks as [|k ks IH]; [easy|]. intros Hin. cbn [map index_of cell_eqb].
  destruct (Qc_eqb r k) eqn:E.
  - apply Qc_eqb_eq in E. subst. now exists 0.
  - destruct Hin as [->|Hin].
    + assert (Qc_eqb r r = true) by now apply Qc_eqb_eq. congruence.
    + destruct (IH Hin) as (i & -> & Hi). now exists (S i).
Qed.

Lemma agg_series_lookup f keys ks vals i k :
  ks !! i = Some k ->
  agg_series f keys ks vals !! i = Some (aggregate f (group_of keys (Num k) vals)).
Proof. intros H. unfold agg_series. now rewrite lookup_map, H. Qed.

(** The mean columns of the aggregated product table hold, at a round,
    the mean of the group of that round. *)
Lemma prod_agg_mean_cell prod pa keys vals out src r :
  prod_agg prod = Some pa ->
  get_col "round" prod = Some keys ->
  get_col src prod = Some vals ->
  In (out, src) product_mean_fields ->
  group_of keys (Num r) vals <> [] ->
  cell_at pa r out = Some (agg_mean (group_of keys (Num r) vals)).
Proof.
  intros Hpa Hk Hv Hin Hne.
  apply prod_agg_inv in Hpa
    as (keys' & ks & s1 & s2 & s3 & s4 & s5 & s6 & H0 & Hks & H1 & H2 & H3 & H4 & _ & _ & ->).
  rewrite Hk in H0. injection H0 as <-.
  apply group_of_key in Hne. apply (group_keys_In keys ks r Hks) in Hne.
  destruct (index_of_map_Num ks r Hne) as (i & Hi & Hr).
  unfold cell_at, product_frame.
  change (get_col "round" _) with (Some (map Num ks)).
  cbn [mbind option_bind].
  unfold product_mean_fields in Hin. cbn [In] in Hin.
  destruct Hin as [E|[E|[E|[E|[]]]]]; injection E as <- <-.
  all: match goal with
       | |- (get_col ?n ?f ≫= _) = _ =>
           let v := eval cbn [get_col List.filter String.eqb Ascii.eqb Bool.eqb fst snd] in (get_col n f) in
           change (get_col n f) with v
       end.
  all: cbn [mbind option_bind]; rewrite Hi; cbn [mbind option_bind].
  all: rewrite Hv in *.
  - injection H1 as <-. now apply agg_series_lookup.
  - injection H2 as <-. now apply agg_series_lookup.
  - injection H3 as <-. now apply agg_series_lookup.
  - injection H4 as <-. now apply agg_series_lookup.
Qed.

Lemma agg_mean_example : agg_mean [int_cell 10; NA; int_cell 20] = int_cell 15.
Proof. apply Num_eq. reflexivity. Qed.

(** C4.  The mean of a group skips the missing values: the values 10,
    missing, 20 have mean 15 and not 10, a mean is the mean of the values
    that are present, and in the aggregated product table a round whose
    group of a mean field is 10, missing, 20 holds 15.  The sum counts a
    missing value as zero. *)
Theorem mean_skips_missing_sum_counts_zero :
  agg_mean [int_cell 10; NA; int_cell 20] = int_cell 15
  /\ agg_mean [int_cell 10; NA; int_cell 20] <> int_cell 10
  /\ (forall s, agg_mean s = agg_mean (drop_na s))
  /\ (forall s, agg_sum s = agg_sum (fill_zero s))
  /\ agg_sum [int_cell 10; NA; int_cell 20] = int_cell 30
  /\ (forall prod pa keys vals out src r,
        prod_agg prod = Some pa ->
        get_col "round" prod = Some keys ->
        get_col src prod = Some vals ->
        In (out, src) product_mean_fields ->
        group_of keys (Num r) vals = [int_cell 10; NA; int_cell 20] ->
        cell_at pa r out = Some (int_cell 15)).
Proof.
  split; [exact agg_mean_example|]. split.
  { intros H.
    apply (f_equal (fun c => match c with
                             | Num x => Qeq_bool x (inject_Z 10)
                             | _ => false
                             end)) in H.
    vm_compute in H. discriminate H. }
  split; [intros s; symmetry; apply agg_mean_drop_na|].
  split; [intros s; symmetry; apply agg_sum_fill_zero|].
  split; [apply Num_eq; reflexivity|].
  intros prod pa keys vals out src r Hpa Hk Hv Hin Hg.
  rewrite (prod_agg_mean_cell prod pa keys vals out src r Hpa Hk Hv Hin).
  - rewrite Hg. f_equal. exact agg_mean_example.
  - rewrite Hg. discriminate.
Qed.

Lemma mean_skips_missing_sum_counts_zero_witness :
  cell_at (default [] (prod_agg sample_product))
          (Q2Qc (inject_Z 1)) "avg_service_pct" = Some (int_cell 15).
Proof.
  destruct mean_skips_missing_sum_counts_zero as (_ & _ & _ & _ & _ & H).
  apply (H sample_product (default [] (prod_agg sample_product))
           [int_cell 1; int_cell 1; int_cell 2; int_cell 1; int_cell 3]
           [int_cell 10; NA; frac_cell 9 10; int_cell 20; frac_cell 95 100]
           "avg_service_pct" "service_level_(pieces)").
  - reflexivity.
  - reflexivity.
  - reflexivity.
  - left. reflexivity.
  - reflexivity.
Defined.

(** ** Missing sheets *)

Lemma existsb_eqb_In n l : existsb (String.eqb n) l = true <-> In n l.
Proof.
  rewrite existsb_exists. split.
  - intros [m [Hm E]]. apply String.eqb_eq in E. now subst.
  - intros H. exists n. split; [exact H|apply String.eqb_refl].
Qed.


Lemma get_sheet_present xl name :
  In name (sheet_names xl) -> is_Some (get_sheet xl name).
Proof.
  intros H. unfold get_sheet.
  rewrite (proj2 (existsb_eqb_In name (sheet_names xl)) H).
  induction xl as [|[n df] xl IH]; [destruct H|]. simpl.
  destruct (String.eqb_spec n name) as [->|Hne]; [eauto|].
  apply IH. destruct H as [H|H]; [simpl in H; congruence|exact H].
Qed.



(** ** The text filters *)












(** ** Left joins on a key that is unique on the right *)

Lemma mask_series_map {A} (f : A -> bool) (l : list A) :
  mask_series (map f l) l = List.filter f l.
Proof.
  unfold mask_series. induction l as [|a l IH]; simpl; [reflexivity|].
  destruct (f a); simpl; now rewrite IH.
Qed.

Lemma matches_filter rk k :
  matches rk k = List.length (List.filter (cell_eqb k) rk).
Proof. unfold matches, group_of. now rewrite mask_series_map. Qed.

Lemma filter_eqb_absent k rk :
  ~ In k rk -> List.filter (cell_eqb k) rk = [].
Proof.
  induction rk as [|c rk IH]; [reflexivity|]. simpl. intros H.
  destruct (cell_eqb k c) eqn:E.
  - apply cell_eqb_eq in E. subst. tauto.
  - apply IH. tauto.
Qed.

Lemma matches_NoDup rk k : List.NoDup rk -> matches rk k <= 1.
Proof.
  rewrite matches_filter. induction 1 as [|c rk Hc Hn IH]; simpl; [lia|].
  destruct (cell_eqb k c) eqn:E; [|exact IH].
  apply cell_eqb_eq in E. subst c. rewrite filter_eqb_absent by exact Hc.
  simpl. lia.
Qed.

Lemma merge_left_col_id lk rk s :
  List.NoDup rk -> List.length s = List.length lk ->
  merge_left_col lk rk s = s.
Proof.
  intros Hn. unfold merge_left_col. revert s.
  induction lk as [|k lk IH]; intros [|v s] Hl; simpl in *; try lia.
  - reflexivity.
  - rewrite IH by lia. pose proof (matches_NoDup rk k Hn) as Hm.
    destruct (matches rk k) as [|[|m]]; simpl; [reflexivity|reflexivity|lia].
Qed.

Lemma mask_series_length {A B} (mask : list bool) (s : list A) (t : list B) :
  List.length s = List.length t ->
  List.length (mask_series mask s) = List.length (mask_series mask t).
Proof.
  unfold mask_series. revert s t.
  induction mask as [|b mask IH]; intros [|x s] [|y t] Hl; simpl in *;
    try lia; try reflexivity.
  destruct b; simpl; rewrite (IH s t) by lia; reflexivity.
Qed.

Lemma merge_right_col_length lk rk t :
  List.NoDup rk -> List.length t = List.length rk ->
  List.length (merge_right_col lk rk t) = List.length lk.
Proof.
  intros Hn Hl. unfold merge_right_col.
  induction lk as [|k lk IH]; simpl; [reflexivity|].
  rewrite length_app, IH. f_equal.
  pose proof (matches_NoDup rk k Hn) as Hm.
  destruct (matches rk k) as [|m] eqn:E; [reflexivity|].
  unfold group_of. rewrite (mask_series_length _ t rk Hl).
  fold (group_of rk k rk). fold (matches rk k). lia.
Qed.

Lemma rect_app n df1 df2 : rect n df1 -> rect n df2 -> rect n (df1 ++ df2).
Proof. unfold rect. intros H1 H2. apply Forall_app. now split. Qed.

Lemma shared_false_left on (l r : DataFrame) n :
  disjoint_but on l r = true -> In n (labels l) ->
  negb (String.eqb n on) && has_label n l && has_label n r = false.
Proof.
  unfold disjoint_but. rewrite forallb_forall. intros H Hin.
  specialize (H n Hin). destruct (String.eqb n on); [reflexivity|].
  simpl in *. apply negb_true_iff in H. rewrite H. apply andb_false_r.
Qed.

Lemma shared_false_right on (l r : DataFrame) n :
  disjoint_but on l r = true -> In n (labels r) -> String.eqb n on = false ->
  negb (String.eqb n on) && has_label n l && has_label n r = false.
Proof.
  unfold disjoint_but. rewrite forallb_forall. intros H Hin Hne. rewrite Hne.
  simpl. destruct (has_label n l) eqn:E; [|reflexivity].
  apply has_label_In in E. specialize (H n E). rewrite Hne in H. simpl in H.
  apply negb_true_iff in H. rewrite H. reflexivity.
Qed.

(** A left join on a key that no two right rows share keeps the left
    frame as it is and appends the right columns other than the key. *)
Lemma merge_left_adds_columns l r on lk rk :
  get_col on l = Some lk -> get_col on r = Some rk ->
  rect (List.length lk) l -> rect (List.length rk) r -> List.NoDup rk ->
  disjoint_but on l r = true ->
  exists extra,
    merge_left l r on = Some (l ++ extra)
    /\ rect (List.length lk) extra
    /\ labels extra
       = List.filter (fun n => negb (String.eqb n on)) (labels r).
Proof.
  intros Hl Hr Rl Rr Hn Hd. unfold merge_left. rewrite Hl, Hr.
  cbn [mbind option_bind].
  exists (map (fun p => (fst p, merge_right_col lk rk (snd p)))
              (List.filter (fun p => negb (String.eqb (fst p) on)) r)).
  split; [|split].
  - f_equal. f_equal.
    + rewrite <- (map_id l) at 2. apply map_ext_in. intros [n s] Hin.
      cbn [fst snd]. rewrite shared_false_left.
      * f_equal. apply merge_left_col_id; [exact Hn|].
        unfold rect in Rl. rewrite List.Forall_forall in Rl.
        exact (Rl (n, s) Hin).
      * exact Hd.
      * unfold labels. apply in_map_iff. now exists (n, s).
    + apply map_ext_in. intros [n s] Hin. cbn [fst snd].
      apply filter_In in Hin as [Hin Hne]. cbn [fst] in Hne.
      rewrite shared_false_right; [reflexivity|exact Hd| |now apply negb_true_iff].
      unfold labels. apply in_map_iff. now exists (n, s).
  - unfold rect. apply Forall_map, List.Forall_forall. intros [n s] Hin.
    cbn [snd]. apply filter_In in Hin as [Hin _].
    apply merge_right_col_length; [exact Hn|].
    unfold rect in Rr. rewrite List.Forall_forall in Rr. exact (Rr (n, s) Hin).
  - unfold labels. rewrite map_map. cbn [fst]. clear.
    induction r as [|[n s] r IH]; [reflexivity|]. simpl.
    destruct (negb (String.eqb n on)); simpl; now rewrite IH.
Qed.

(** ** The frames that enter the overview *)

Lemma NoDup_map_Num ks : List.NoDup ks -> List.NoDup (map Num ks).
Proof.
  induction 1 as [|k ks Hk Hn IH]; simpl; constructor; [|exact IH].
  intros Hin. apply in_map_iff in Hin as (k' & [= ->] & Hin). tauto.
Qed.

Lemma agg_series_length f keys ks vals :
  List.length (agg_series f keys ks vals) = List.length ks.
Proof. unfold agg_series. apply length_map. Qed.

Lemma groupby_mean_inv df by_ col g :
  groupby_mean df by_ col = Some g ->
  exists keys ks vals,
    get_col by_ df = Some keys
    /\ group_keys keys = Some ks
    /\ get_col col df = Some vals
    /\ g = [ (by_, map Num ks); (col, agg_series Mean keys ks vals) ].
Proof.
  unfold groupby_mean. intros Hg.
  apply groupby_agg_inv in Hg as (keys & ks & cols & Hk & Hks & Hc & ->).
  invert_aggs Hc. exists keys, ks, vals. auto.
Qed.





Lemma group_keys_increasing keys ks :
  group_keys keys = Some ks -> increasing Qccompare ks.
Proof.
  unfold group_keys. destruct (numeric keys); [|discriminate].
  intros [= <-]. apply sort_uniq_increasing.
  - apply Qccompare_eq.
  - apply Qccompare_gt.
  - apply Qccompare_trans.
Qed.



Lemma all_num_map_Num ks : all_num (map Num ks) = true.
Proof. induction ks; simpl; auto. Qed.

Lemma present_map_Num ks : present (map Num ks) = ks.
Proof. induction ks as [|k ks IH]; simpl; [reflexivity|now rewrite IH]. Qed.

Lemma increasing_Qc_NoDup ks : increasing Qccompare ks -> List.NoDup ks.
Proof. apply increasing_NoDup. apply Qccompare_eq. Qed.

(** The round index of the overview is the round column of the product
    aggregates: it is sorted and free of duplicates already. *)
Lemma rounds_df_frame ks a1 a2 a3 a4 rev gm cogs :
  increasing Qccompare ks ->
  rounds_df (product_frame (map Num ks) a1 a2 a3 a4 rev gm cogs)
  = Some [("round", map Num ks)].
Proof.
  intros Hi. unfold rounds_df, product_frame.
  change (get_col "round" _) with (Some (map Num ks)).
  cbn [mbind option_bind]. unfold sorted_unique.
  rewrite all_num_map_Num, present_map_Num. cbn [mbind option_bind].
  now rewrite sort_uniq_fixed.
Qed.

Lemma has_label_filtered on (ls : list string) :
  existsb (String.eqb on) (List.filter (fun n => negb (String.eqb n on)) ls)
  = false.
Proof.
  induction ls as [|n ls IH]; [reflexivity|]. simpl.
  destruct (String.eqb n on) eqn:E; simpl; [exact IH|].
  now rewrite String.eqb_sym, E.
Qed.

(** One join of the overview, in terms of the labels of its operands. *)
Lemma merge_step l r lk rk (Ll Lr : list string) :
  labels l = Ll -> get_col "round" l = Some lk -> rect (List.length lk) l ->
  labels r = Lr -> get_col "round" r = Some rk -> rect (List.length rk) r ->
  List.NoDup rk ->
  forallb (fun n => String.eqb n "round" || negb (existsb (String.eqb n) Lr)) Ll
  = true ->
  exists extra,
    merge_left l r "round" = Some (l ++ extra)
    /\ labels extra = List.filter (fun n => negb (String.eqb n "round")) Lr
    /\ labels (l ++ extra)
       = Ll ++ List.filter (fun n => negb (String.eqb n "round")) Lr
    /\ get_col "round" (l ++ extra) = Some lk
    /\ rect (List.length lk) (l ++ extra).
Proof.
  intros HLl Hl Rl HLr Hr Rr Hn Hd.
  destruct (merge_left_adds_columns l r "round" lk rk Hl Hr Rl Rr Hn)
    as (extra & Hm & Re & Le).
  { unfold disjoint_but, has_label. now rewrite HLl, HLr. }
  rewrite HLr in Le. exists extra. repeat split; auto.
  - unfold labels in *. now rewrite map_app, HLl, Le.
  - rewrite get_col_app_l; [exact Hl|]. unfold has_label.
    rewrite Le. apply has_label_filtered.
  - now apply rect_app.
Qed.



(** ** The overview *)


Lemma overview_parts prod comp wh ov :
  overview prod comp wh = Some ov ->
  exists pa ca inb outb pp,
    prod_agg prod = Some pa /\ comp_agg comp = Some ca
    /\ inbound wh = Some inb /\ outbound wh = Some outb /\ ppa prod = Some pp.
Proof.
  unfold overview. intros H.
  apply bind_Some in H as (pa & Hpa & H).
  apply bind_Some in H as (ca & Hca & H).
  apply bind_Some in H as (inb & Hinb & H).
  apply bind_Some in H as (outb & Houtb & H).
  apply bind_Some in H as (pp & Hpp & H).
  exists pa, ca, inb, outb, pp. auto.
Qed.

Lemma mask_series_numeric mask s :
  numeric s = true -> numeric (mask_series mask s) = true.
Proof.
  unfold numeric, mask_series. revert s.
  induction mask as [|b mask IH]; intros [|c s]; simpl; auto.
  intros H. apply andb_true_iff in H as [Hc Hs].
  destruct b; simpl; [rewrite Hc; simpl|]; now apply IH.
Qed.

Lemma select_rows_numeric_col mask df n :
  has_numeric_col df n = true -> has_numeric_col (select_rows mask df) n = true.
Proof.
  unfold has_numeric_col, select_rows.
  rewrite (get_col_map_series (mask_series mask)).
  destruct (get_col n df) as [s|]; [|discriminate]. simpl.
  apply mask_series_numeric.
Qed.









(** What the script prepares is what the functions of the sheets give. *)
Lemma data_prep_tables prod comp wh d :
  data_prep prod comp wh = Some d ->
  prod_agg prod = Some (p_prod_agg d)
  /\ vitc comp = Some (p_vitc d)
  /\ weeks_pivot comp = Some (p_weeks_pivot d)
  /\ overview prod comp wh = Some (p_overview d).
Proof.
  unfold data_prep, overview. intros H.
  apply bind_Some in H as (pa & -> & H).
  apply bind_Some in H as (ca & -> & H).
  apply bind_Some in H as (v & -> & H).
  apply bind_Some in H as (vo & _ & H).
  apply bind_Some in H as (wp & -> & H).
  apply bind_Some in H as (ap & _ & H).
  apply bind_Some in H as (inb & -> & H).
  apply bind_Some in H as (outb & -> & H).
  apply bind_Some in H as (pp & -> & H).
  apply bind_Some in H as (ov & Hov & H).
  injection H as <-. cbn [mbind option_bind p_prod_agg p_vitc p_weeks_pivot p_overview].
  auto.
Qed.

Example data_prep_sample :
  is_Some (data_prep sample_product sample_component sample_warehouse).
Proof. vm_compute. eauto. Qed.



(** ** The pivots *)

Lemma In_lookup {A} (x : A) l : In x l <-> exists i, l !! i = Some x.
Proof. rewrite <- list_elem_of_In. apply list_elem_of_lookup. Qed.

Lemma lookup_combine_inv {A B} (a : list A) (b : list B) i x y :
  combine a b !! i = Some (x, y) -> a !! i = Some x /\ b !! i = Some y.
Proof.
  revert b i. induction a as [|a0 a IH]; intros [|b0 b] [|i]; simpl;
    try discriminate; auto.
  now intros [= -> ->].
Qed.

Lemma mask_series_In_iff {A} (mask : list bool) (s : list A) x :
  In x (mask_series mask s) <->
  exists i, mask !! i = Some true /\ s !! i = Some x.
Proof.
  split; [apply mask_series_In|]. unfold mask_series. revert s.
  induction mask as [|b mask IH]; intros s (i & Hm & Hs).
  - destruct i; discriminate Hm.
  - destruct s as [|y s]; [destruct i; discriminate Hs|].
    destruct i as [|i]; simpl in Hm, Hs.
    + injection Hm as ->. injection Hs as ->. simpl. now left.
    + assert (In x (map snd (List.filter fst (combine mask s)))) as Hin
        by (apply IH; eauto).
      simpl. destruct b; simpl; auto.
Qed.

Lemma pivot_group_In r c v rk cn w :
  In w (pivot_group r c v rk cn) <->
  exists i, r !! i = Some (Num rk) /\ c !! i = Some (Text cn) /\ v !! i = Some w.
Proof.
  unfold pivot_group. rewrite mask_series_In_iff. split.
  - intros (i & Hm & Hv). exists i. rewrite lookup_map in Hm.
    apply fmap_Some in Hm as ([x y] & Hc & E). symmetry in E.
    apply andb_true_iff in E as [E1 E2]. cbn [fst snd] in *.
    apply cell_eqb_eq in E1, E2. subst x y.
    apply lookup_combine_inv in Hc as [Hr Hc]. auto.
  - intros (i & Hr & Hc & Hv). exists i. split; [|exact Hv].
    rewrite lookup_map, (lookup_combine r c i _ _ Hr Hc). cbn [fmap option_fmap option_map fst snd].
    now rewrite !cell_eqb_refl.
Qed.

Lemma present_nil_iff s : present s = [] <-> forall x, ~ In (Num x) s.
Proof.
  split.
  - intros H x Hin. apply present_In in Hin. now rewrite H in Hin.
  - intros H. destruct (present s) as [|x l] eqn:E; [reflexivity|].
    exfalso. apply (H x), present_In. rewrite E. now left.
Qed.

Lemma agg_mean_na_iff s : is_na (agg_mean s) = true <-> present s = [].
Proof.
  unfold agg_mean. destruct (present s); simpl; split; congruence.
Qed.

Lemma agg_mean_present s :
  is_na (agg_mean s) = false <-> exists x, In (Num x) s.
Proof.
  split.
  - intros H. destruct (present s) as [|x l] eqn:E.
    + apply agg_mean_na_iff in E. congruence.
    + exists x. apply present_In. rewrite E. now left.
  - intros (x & Hin). destruct (is_na (agg_mean s)) eqn:E; [|reflexivity].
    apply agg_mean_na_iff in E.
    pose proof (proj1 (present_nil_iff s) E x) as Hx. now destruct Hx.
Qed.

Lemma pivot_live_In r c v rows rk cn :
  In (rk, cn) (pivot_live r c v rows) <->
  (exists w, In (Num rk, (Text cn, w)) rows)
  /\ is_na (agg_mean (pivot_group r c v rk cn)) = false.
Proof.
  induction rows as [|[a [b w]] rows IH]; simpl.
  - split; [tauto|]. now intros [[? []] _].
  - destruct a as [|rk'|]; try destruct b as [|?|cn'];
      try (rewrite IH; split;
           [intros [[w' H] Hn]; split; [exists w'; now right|exact Hn]
           |intros [[w' [H|H]] Hn]; [discriminate H|split; [now exists w'|exact Hn]]]).
    destruct (is_na (agg_mean (pivot_group r c v rk' cn'))) eqn:E.
    + rewrite IH. split.
      * intros [[w' H] Hn]. split; [exists w'; now right|exact Hn].
      * intros [[w' [H|H]] Hn]; [|split; [now exists w'|exact Hn]].
        injection H as -> -> ->. congruence.
    + simpl. rewrite IH. split.
      * intros [H|[[w' H] Hn]].
        -- injection H as -> ->. split; [exists w; now left|exact E].
        -- split; [exists w'; now right|exact Hn].
      * intros [[w' [H|H]] Hn].
        -- injection H as -> -> ->. now left.
        -- right. split; [now exists w'|exact Hn].
Qed.

(** A (round, component) pair is kept exactly when some row carries it
    together with a stock value. *)
Lemma pivot_live_rows r c v rk cn :
  In (rk, cn) (pivot_live r c v (combine r (combine c v))) <->
  exists i x, r !! i = Some (Num rk) /\ c !! i = Some (Text cn)
              /\ v !! i = Some (Num x).
Proof.
  rewrite pivot_live_In, agg_mean_present. split.
  - intros [_ (x & Hin)]. apply pivot_group_In in Hin as (i & ? & ? & ?).
    now exists i, x.
  - intros (i & x & Hr & Hc & Hv). split.
    + exists (Num x). apply In_lookup. exists i.
      apply lookup_combine; [exact Hr|]. now apply lookup_combine.
    + exists x. apply pivot_group_In. now exists i.
Qed.

Lemma pivot_table_inv df index columns values pv :
  pivot_table df index columns values = Some pv ->
  exists r c v,
    get_col index df = Some r /\ get_col columns df = Some c
    /\ get_col values df = Some v
    /\ ~ In index (sort_uniq String.compare
                     (map snd (pivot_live r c v (combine r (combine c v)))))
    /\ pv = (index, map Num (sort_uniq Qccompare
                     (map fst (pivot_live r c v (combine r (combine c v))))))
            :: map (fun cn =>
                      (cn, map (fun rk => agg_mean (pivot_group r c v rk cn))
                             (sort_uniq Qccompare
                                (map fst (pivot_live r c v (combine r (combine c v)))))))
                   (sort_uniq String.compare
                      (map snd (pivot_live r c v (combine r (combine c v))))).
Proof.
  unfold pivot_table. intros H.
  apply bind_Some in H as (r & Hr & H).
  apply bind_Some in H as (c & Hc & H).
  apply bind_Some in H as (v & Hv & H).
  destruct (numeric r && text_or_na c && numeric v); [|discriminate].
  match type of H with
  | (if ?b then _ else _) = _ => destruct b eqn:E; [discriminate|]
  end.
  injection H as <-. exists r, c, v. repeat (split; [assumption|]).
  split; [|reflexivity].
  intros Hin. apply existsb_eqb_In in Hin. congruence.
Qed.

Lemma get_col_tabulate (f : string -> Series) l n :
  List.NoDup l -> In n l -> get_col n (map (fun m => (m, f m)) l) = Some (f n).
Proof.
  assert (Hl : forall d, has_label n (map (fun m => (m, f m)) d)
                         = existsb (String.eqb n) d).
  { intros d. unfold has_label, labels. rewrite map_map. cbn [fst].
    now rewrite map_id. }
  induction 1 as [|m l Hm Hn IH]; [easy|]. intros Hin. cbn [map].
  rewrite get_col_cons, Hl. destruct (String.eqb_spec m n) as [->|Hne].
  - destruct (existsb (String.eqb n) l) eqn:E; [|reflexivity].
    apply existsb_eqb_In in E. tauto.
  - destruct Hin as [->|Hin]; [congruence|auto].
Qed.

Lemma pivot_group_nil r c v rk cn :
  (forall i, ~ (r !! i = Some (Num rk) /\ c !! i = Some (Text cn))) ->
  pivot_group r c v rk cn = [].
Proof.
  intros H. destruct (pivot_group r c v rk cn) as [|w l] eqn:E; [reflexivity|].
  assert (In w (pivot_group r c v rk cn)) as Hin by (rewrite E; now left).
  apply pivot_group_In in Hin as (i & Hr & Hc & _). now destruct (H i).
Qed.

Lemma in_map_fst {A B} (a : A) (l : list (A * B)) :
  In a (map fst l) <-> exists b, In (a, b) l.
Proof.
  rewrite in_map_iff. split.
  - intros ([a' b] & E & H). simpl in E. subst. now exists b.
  - intros (b & H). now exists (a, b).
Qed.

Lemma in_map_snd {A B} (b : B) (l : list (A * B)) :
  In b (map snd l) <-> exists a, In (a, b) l.
Proof.
  rewrite in_map_iff. split.
  - intros ([a b'] & E & H). simpl in E. subst. now exists a.
  - intros (a & H). now exists (a, b).
Qed.

(** What the stock-weeks pivot holds. *)
Lemma weeks_pivot_inv comp r c v pv :
  get_col "round" comp = Some r -> get_col "component" comp = Some c ->
  get_col "stock_(weeks)" comp = Some v ->
  weeks_pivot comp = Some pv ->
  exists ridx cidx,
    get_col "round" pv = Some (map Num ridx)
    /\ labels pv = "round" :: cidx
    /\ List.NoDup ridx /\ List.NoDup cidx
    /\ (forall rk, In rk ridx <->
          exists i cn x, r !! i = Some (Num rk) /\ c !! i = Some (Text cn)
                         /\ v !! i = Some (Num x))
    /\ (forall cn, In cn cidx <->
          exists i rk x, r !! i = Some (Num rk) /\ c !! i = Some (Text cn)
                         /\ v !! i = Some (Num x))
    /\ (forall rk cn, In rk ridx -> In cn cidx ->
          cell_at pv rk cn = Some (agg_mean (pivot_group r c v rk cn)))
    /\ (forall rk cn, In rk ridx -> In cn cidx ->
          (forall i, ~ (r !! i = Some (Num rk) /\ c !! i = Some (Text cn))) ->
          cell_at pv rk cn = Some NA).
Proof.
  intros Hr Hc Hv H. unfold weeks_pivot in H.
  apply pivot_table_inv in H as (r' & c' & v' & Hr' & Hc' & Hv' & Hni & ->).
  rewrite Hr in Hr'. rewrite Hc in Hc'. rewrite Hv in Hv'.
  injection Hr' as <-. injection Hc' as <-. injection Hv' as <-.
  set (live := pivot_live r c v (combine r (combine c v))) in *.
  set (ridx := sort_uniq Qccompare (map fst live)) in *.
  set (cidx := sort_uniq String.compare (map snd live)) in *.
  assert (Nr : List.NoDup ridx).
  { apply sort_uniq_NoDup;
      [apply Qccompare_eq|apply Qccompare_gt|apply Qccompare_trans]. }
  assert (Nc : List.NoDup cidx).
  { apply sort_uniq_NoDup;
      [apply string_compare_eq|apply string_compare_gt|apply string_compare_trans]. }
  assert (Lp : labels (map (fun cn => (cn, map (fun rk => agg_mean (pivot_group r c v rk cn)) ridx)) cidx) = cidx).
  { unfold labels. rewrite map_map. cbn [fst]. apply map_id. }
  assert (Gr : get_col "round"
                 (("round", map Num ridx)
                  :: map (fun cn => (cn, map (fun rk => agg_mean (pivot_group r c v rk cn)) ridx)) cidx)
               = Some (map Num ridx)).
  { rewrite get_col_cons, String.eqb_refl.
    destruct (has_label "round" _) eqn:E; [|reflexivity].
    apply has_label_In in E. rewrite Lp in E. tauto. }
  assert (Gc : forall rk cn, In rk ridx -> In cn cidx ->
             cell_at (("round", map Num ridx)
                      :: map (fun cn => (cn, map (fun rk => agg_mean (pivot_group r c v rk cn)) ridx)) cidx)
                     rk cn
             = Some (agg_mean (pivot_group r c v rk cn))).
  { intros rk cn Hrk Hcn. unfold cell_at. rewrite Gr. cbn [mbind option_bind].
    rewrite get_col_cons.
    destruct (String.eqb_spec "round" cn) as [<-|_]; [tauto|].
    rewrite (get_col_tabulate
               (fun cn => map (fun rk => agg_mean (pivot_group r c v rk cn)) ridx)
               cidx cn Nc Hcn).
    cbn [mbind option_bind].
    destruct (index_of_map_Num ridx rk Hrk) as (i & -> & Hi).
    cbn [mbind option_bind]. now rewrite lookup_map, Hi. }
  exists ridx, cidx.
  split; [exact Gr|]. split; [cbn [labels map fst]; f_equal; exact Lp|].
  split; [exact Nr|]. split; [exact Nc|]. split; [|split; [|split]].
  - intros rk. unfold ridx. rewrite sort_uniq_In by apply Qccompare_eq.
    rewrite in_map_fst. split.
    + intros (cn & Hin). apply pivot_live_rows in Hin as (i & x & ?).
      now exists i, cn, x.
    + intros (i & cn & x & ?). exists cn. apply pivot_live_rows. now exists i, x.
  - intros cn. unfold cidx. rewrite sort_uniq_In by apply string_compare_eq.
    rewrite in_map_snd. split.
    + intros (rk & Hin). apply pivot_live_rows in Hin as (i & x & ?).
      now exists i, rk, x.
    + intros (i & rk & x & ?). exists rk. apply pivot_live_rows. now exists i, x.
  - exact Gc.
  - intros rk cn Hrk Hcn Hno. rewrite (Gc rk cn Hrk Hcn).
    now rewrite pivot_group_nil.
Qed.

Lemma weeks_pivot_total comp : pivot_ok comp = true -> is_Some (weeks_pivot comp).
Proof.
  unfold pivot_ok, has_numeric_col, weeks_pivot, pivot_table.
  destruct (get_col "round" comp) as [r|]; [|discriminate].
  destruct (get_col "stock_(weeks)" comp) as [v|];
    [|rewrite andb_false_r; discriminate].
  destruct (get_col "component" comp) as [c|];
    [|rewrite andb_false_r; discriminate].
  rewrite !andb_true_iff. intros [[Hr Hv] [Hc Hn]].
  cbn [mbind option_bind]. rewrite Hr, Hc, Hv. cbn [andb].
  match goal with
  | |- is_Some (if ?b then _ else _) => destruct b eqn:E; [|eauto]
  end.
  exfalso. apply existsb_eqb_In in E.
  rewrite sort_uniq_In in E by apply string_compare_eq.
  apply in_map_snd in E as (rk & Hin).
  apply pivot_live_rows in Hin as (i & x & _ & Hi & _).
  rewrite forallb_forall in Hn.
  assert (In (Text "round") c) as Hin by (apply In_lookup; eauto).
  specialize (Hn _ Hin). discriminate Hn.
Qed.

(** C6 (amended).  In the stock-weeks pivot the cell at round [rk] and
    component [cn] is the mean of [stock_(weeks)] over the Component rows
    with that round and that component name, and it is missing, not zero,
    when no row has the pair.  The rows of the pivot are the distinct
    rounds, and its columns the distinct component names, of the rows
    that have a round, a component name and a stock value.  The pivot is
    built whenever the sheet carries the three fields and no component is
    called "round". *)
Theorem weeks_pivot_cells :
  (forall comp r c v pv,
      get_col "round" comp = Some r -> get_col "component" comp = Some c ->
      get_col "stock_(weeks)" comp = Some v ->
      weeks_pivot comp = Some pv ->
      exists ridx cidx,
        get_col "round" pv = Some (map Num ridx)
        /\ labels pv = "round" :: cidx
        /\ List.NoDup ridx /\ List.NoDup cidx
        /\ (forall rk, In rk ridx <->
              exists i cn x, r !! i = Some (Num rk) /\ c !! i = Some (Text cn)
                             /\ v !! i = Some (Num x))
        /\ (forall cn, In cn cidx <->
              exists i rk x, r !! i = Some (Num rk) /\ c !! i = Some (Text cn)
                             /\ v !! i = Some (Num x))
        /\ (forall rk cn, In rk ridx -> In cn cidx ->
              cell_at pv rk cn = Some (agg_mean (pivot_group r c v rk cn)))
        /\ (forall rk cn, In rk ridx -> In cn cidx ->
              (forall i, ~ (r !! i = Some (Num rk) /\ c !! i = Some (Text cn))) ->
              cell_at pv rk cn = Some NA))
  /\ (forall comp rk cn w r c v,
        get_col "round" comp = Some r -> get_col "component" comp = Some c ->
        get_col "stock_(weeks)" comp = Some v ->
        (In w (pivot_group r c v rk cn) <->
         exists i, r !! i = Some (Num rk) /\ c !! i = Some (Text cn)
                   /\ v !! i = Some w))
  /\ (forall comp, pivot_ok comp = true -> is_Some (weeks_pivot comp)).
Proof.
  split; [exact weeks_pivot_inv|]. split; [|exact weeks_pivot_total].
  intros comp rk cn w r c v _ _ _. apply pivot_group_In.
Qed.

Lemma weeks_pivot_cells_witness :
  is_Some (weeks_pivot sample_component)
  /\ exists ridx cidx,
       get_col "round" (default [] (weeks_pivot sample_component))
       = Some (map Num ridx)
       /\ labels (default [] (weeks_pivot sample_component)) = "round" :: cidx.
Proof.
  destruct weeks_pivot_cells as (H1 & _ & H3). split.
  - apply H3. reflexivity.
  - destruct (H1 sample_component
                [int_cell 1; int_cell 1; int_cell 1; int_cell 2; int_cell 2; int_cell 2; int_cell 3]
                sample_names
                [int_cell 2; int_cell 3; int_cell 4; NA; int_cell 5; int_cell 6; NA]
                (default [] (weeks_pivot sample_component))
                eq_refl eq_refl eq_refl eq_refl)
      as (ridx & cidx & Hg & Hl & _).
    now exists ridx, cidx.
Defined.

(** C6 as stated fails: round 3 and the component "Orange Pulp" are
    observed in the sheet, but their only row has no stock value, and
    neither the row nor the column is in the pivot. *)
Lemma weeks_pivot_counterexample :
  get_col "round" sample_component
  = Some [int_cell 1; int_cell 1; int_cell 1; int_cell 2; int_cell 2; int_cell 2; int_cell 3]
  /\ In (Text "Orange Pulp") sample_names
  /\ get_col "round" (default [] (weeks_pivot sample_component))
     = Some [int_cell 1; int_cell 2]
  /\ labels (default [] (weeks_pivot sample_component))
     = ["round"; "Packaging Film"; "VITAMIN D"; "Vitamin C Premix"].
Proof.
  split; [reflexivity|]. split; [simpl; tauto|]. split; reflexivity.
Qed.

(** ** The heap: the round filter and the export block *)

Lemma bind_inv {A B} (m : Py A) (k : A -> Py B) h r :
  bind m k h = Some r -> exists a h', m h = Some (a, h') /\ k a h' = Some r.
Proof.
  unfold bind. destruct (m h) as [[a h']|]; [|discriminate]. eauto.
Qed.

Lemma lift_inv {A} (o : option A) h a h' :
  lift o h = Some (a, h') -> o = Some a /\ h' = h.
Proof. unfold lift. destruct o; [|discriminate]. now intros [= -> ->]. Qed.

Lemma load_inv l h df h' :
  load l h = Some (df, h') -> h !! l = Some df /\ h' = h.
Proof. unfold load. destruct (h !! l); [|discriminate]. now intros [= -> ->]. Qed.

Lemma alloc_inv df h l h' :
  alloc df h = Some (l, h') -> h !! l = None /\ h' = <[l := df]> h.
Proof.
  unfold alloc. intros [= <- <-]. split; [|reflexivity].
  apply not_elem_of_dom, is_fresh.
Qed.

Lemma store_inv l df h u h' :
  store l df h = Some (u, h') -> is_Some (h !! l) /\ h' = <[l := df]> h.
Proof.
  unfold store. destruct (h !! l) eqn:E; [|discriminate].
  intros [= <- <-]. eauto.
Qed.

Lemma unchanged_refl h : unchanged h h.
Proof. intros l df H. exact H. Qed.

Lemma unchanged_trans h1 h2 h3 :
  unchanged h1 h2 -> unchanged h2 h3 -> unchanged h1 h3.
Proof. intros H12 H23 l df H. auto. Qed.

Lemma unchanged_insert_fresh (h : heap) l df :
  h !! l = None -> unchanged h (<[l := df]> h).
Proof.
  intros Hl l' df' H. rewrite lookup_insert_ne; [exact H|]. congruence.
Qed.

Lemma copy_inv l h l' h' :
  copy l h = Some (l', h') ->
  exists df, h !! l = Some df /\ h !! l' = None /\ h' = <[l' := df]> h.
Proof.
  unfold copy. intros H. apply bind_inv in H as (df & h0 & Hl & Ha).
  apply load_inv in Hl as [Hl ->]. apply alloc_inv in Ha as [Hn ->].
  now exists df.
Qed.

(** The round filter leaves every object as it is and puts the slice in
    a new one. *)
Lemma slice_rounds_inv overview_ sel h ov h1 :
  slice_rounds overview_ sel h = Some (ov, h1) ->
  exists df r mask,
    h !! overview_ = Some df
    /\ get_col "round" df = Some r
    /\ mapM (between (fst sel) (snd sel)) r = Some mask
    /\ h !! ov = None
    /\ h1 !! ov = Some (select_rows mask df)
    /\ unchanged h h1.
Proof.
  unfold slice_rounds. intros H.
  apply bind_inv in H as (df & h0 & Hl & H). apply load_inv in Hl as [Hl ->].
  apply bind_inv in H as (r & h0 & Hr & H). apply lift_inv in Hr as [Hr ->].
  apply bind_inv in H as (mask & h0 & Hm & H). apply lift_inv in Hm as [Hm ->].
  apply bind_inv in H as (view & h0 & Hv & H). apply alloc_inv in Hv as [Hv ->].
  apply copy_inv in H as (d & Hd & Hn & ->).
  rewrite lookup_insert_eq in Hd. injection Hd as <-.
  exists df, r, mask. repeat (split; [assumption|]).
  assert (ov <> view) by (intros ->; now rewrite lookup_insert_eq in Hn).
  split; [rewrite lookup_insert_ne in Hn by congruence; exact Hn|].
  split; [apply lookup_insert_eq|].
  eapply unchanged_trans; [apply unchanged_insert_fresh; exact Hv|].
  apply unchanged_insert_fresh; exact Hn.
Qed.

Lemma rescale_inv tidy c h u h' :
  rescale tidy c h = Some (u, h') ->
  exists df df',
    h !! tidy = Some df /\ rescale_frame c df = Some df'
    /\ h' = <[tidy := df']> h.
Proof.
  unfold rescale. intros H.
  apply bind_inv in H as (df & h0 & Hl & H). apply load_inv in Hl as [Hl ->].
  apply bind_inv in H as (s & h0 & Hs & H). apply lift_inv in Hs as [Hs ->].
  apply bind_inv in H as (s' & h0 & Hs' & H). apply lift_inv in Hs' as [Hs' ->].
  apply store_inv in H as [_ ->].
  exists df, (setitem c s' df). split; [exact Hl|]. split; [|reflexivity].
  unfold rescale_frame. rewrite Hs. cbn [mbind option_bind]. rewrite Hs'.
  reflexivity.
Qed.

Lemma for_each_rescale_inv tidy cols : forall h u h' df,
  for_each cols (rescale tidy) h = Some (u, h') ->
  h !! tidy = Some df ->
  exists df', rescale_all cols df = Some df' /\ h' = <[tidy := df']> h.
Proof.
  induction cols as [|c cols IH]; intros h u h' df H Hd.
  - injection H as <- <-. exists df. split; [reflexivity|].
    symmetry. now apply insert_id.
  - cbn [for_each] in H. apply bind_inv in H as (u0 & h0 & Hr & H).
    apply rescale_inv in Hr as (d & d' & Hd' & Hf & ->).
    rewrite Hd in Hd'. injection Hd' as <-.
    destruct (IH _ _ _ d' H) as (df' & Ha & ->); [apply lookup_insert_eq|].
    exists df'. cbn [rescale_all]. rewrite Hf. cbn [mbind option_bind].
    split; [exact Ha|]. apply insert_insert_eq.
Qed.

(** The export block allocates its frame and writes to nothing else. *)
Lemma export_block_inv ov h tidy h' :
  export_block ov h = Some (tidy, h') ->
  exists df sel out,
    h !! ov = Some df
    /\ select_cols show_cols df = Some sel
    /\ rescale_all pct_cols sel = Some out
    /\ h !! tidy = None
    /\ h' !! tidy = Some out
    /\ unchanged h h'.
Proof.
  unfold export_block. intros H.
  apply bind_inv in H as (df & h0 & Hl & H). apply load_inv in Hl as [Hl ->].
  apply bind_inv in H as (sel & h0 & Hs & H). apply lift_inv in Hs as [Hs ->].
  apply bind_inv in H as (view & h0 & Hv & H). apply alloc_inv in Hv as [Hv ->].
  apply bind_inv in H as (t & h0 & Hc & H).
  apply copy_inv in Hc as (d & Hd & Hn & ->).
  rewrite lookup_insert_eq in Hd. injection Hd as <-.
  apply bind_inv in H as (u & h0 & Hf & H). injection H as <- <-.
  destruct (for_each_rescale_inv _ _ _ _ _ sel Hf) as (out & Ho & ->);
    [apply lookup_insert_eq|].
  assert (t <> view) by (intros ->; now rewrite lookup_insert_eq in Hn).
  rewrite lookup_insert_ne in Hn by congruence.
  exists df, sel, out. repeat (split; [assumption|]).
  split; [apply lookup_insert_eq|].
  rewrite insert_insert_eq.
  eapply unchanged_trans; [apply unchanged_insert_fresh; exact Hv|].
  apply unchanged_insert_fresh. rewrite lookup_insert_ne by congruence.
  exact Hn.
Qed.

Lemma select_cols_inv cols df sel :
  select_cols cols df = Some sel ->
  labels sel = cols
  /\ (List.NoDup cols -> forall c, In c cols -> get_col c sel = get_col c df).
Proof.
  unfold select_cols. intros H. apply mapM_Some in H.
  induction H as [|n p cols sel Hp H IH]; [split; [reflexivity|easy]|].
  apply bind_Some in Hp as (s & Hs & Hp). injection Hp as <-.
  destruct IH as [IHl IHg]. split; [cbn [labels map fst]; f_equal; exact IHl|].
  intros Hn c Hin. inversion Hn as [|? ? Hni Hn']; subst.
  rewrite get_col_cons. destruct (String.eqb_spec n c) as [->|Hne].
  - destruct (has_label c sel) eqn:E; [|now rewrite Hs].
    apply has_label_In in E. tauto.
  - destruct Hin as [->|Hin]; [congruence|auto].
Qed.

Lemma get_col_setitem_old n s s' df :
  get_col n df = Some s -> get_col n (setitem n s' df) = Some s'.
Proof.
  intros H. unfold setitem. rewrite (get_col_has_label n s df H).
  assert (Hl : forall d, has_label n
      (map (fun p : string * Series => if String.eqb (fst p) n then (fst p, s') else p) d)
      = has_label n d).
  { intros d. unfold has_label, labels. rewrite map_map. f_equal.
    apply map_ext. intros [k t]. simpl. now destruct (String.eqb k n). }
  revert H. induction df as [|[k t] df IH]; [discriminate|]. cbn [map fst].
  rewrite get_col_cons. destruct (String.eqb_spec k n) as [->|Hk].
  - destruct (has_label n df) eqn:E; [discriminate|]. intros _.
    now rewrite get_col_cons, String.eqb_refl, Hl, E.
  - intros H. rewrite get_col_cons.
    destruct (String.eqb_spec k n); [congruence|]. auto.
Qed.

Lemma rescale_frame_spec c df df' :
  rescale_frame c df = Some df' ->
  labels df' = labels df
  /\ (exists s s', get_col c df = Some s /\ mapM scale_pct s = Some s'
                   /\ get_col c df' = Some s')
  /\ (forall n, n <> c -> get_col n df' = get_col n df).
Proof.
  unfold rescale_frame. intros H.
  apply bind_Some in H as (s & Hs & H).
  apply bind_Some in H as (s' & Hs' & H). injection H as <-.
  split; [apply labels_setitem_old; eapply get_col_has_label; eauto|].
  split.
  - exists s, s'. repeat split; auto. eapply get_col_setitem_old; eauto.
  - intros n Hne. now apply get_col_setitem_ne.
Qed.

Lemma rescale_all_spec cols :
  List.NoDup cols -> forall df df',
  rescale_all cols df = Some df' ->
  labels df' = labels df
  /\ (forall c, In c cols ->
        exists s s', get_col c df = Some s /\ mapM scale_pct s = Some s'
                     /\ get_col c df' = Some s')
  /\ (forall n, ~ In n cols -> get_col n df' = get_col n df).
Proof.
  induction 1 as [|c cols Hc Hn IH]; intros df df' H.
  - injection H as <-. split; [reflexivity|]. split; [easy|reflexivity].
  - cbn [rescale_all] in H. apply bind_Some in H as (df1 & H1 & H).
    apply rescale_frame_spec in H1 as (L1 & (s & s' & Hs & Hm & Hs') & O1).
    destruct (IH _ _ H) as (L2 & I2 & O2).
    split; [congruence|]. split.
    + intros c' [<-|Hin].
      * exists s, s'. rewrite O2 by exact Hc. auto.
      * destruct (I2 c' Hin) as (t & t' & Ht & Htm & Ht').
        exists t, t'. rewrite <- O1; [auto|]. intros ->. tauto.
    + intros n Hni. rewrite O2 by (intros ?; apply Hni; now right).
      apply O1. intros ->. apply Hni. now left.
Qed.

Lemma scale_pct_lookup s s' i :
  mapM scale_pct s = Some s' ->
  (forall x, s !! i = Some (Num x) ->
             s' !! i = Some (Num (round2 (x * Q2Qc (inject_Z 100)))))
  /\ (s !! i = Some NA -> s' !! i = Some NA).
Proof.
  intros H. apply mapM_Some in H. split.
  - intros x Hx. destruct (Forall2_lookup_l _ _ _ _ _ H Hx) as (y & Hy & E).
    simpl in E. now injection E as <-.
  - intros Hx. destruct (Forall2_lookup_l _ _ _ _ _ H Hx) as (y & Hy & E).
    simpl in E. now injection E as <-.
Qed.

Lemma NoDup_pct_cols : List.NoDup pct_cols.
Proof.
  unfold pct_cols.
  repeat (constructor; [simpl; intros H;
                        repeat (destruct H as [H|H]; [discriminate H|]);
                        exact H|]).
  constructor.
Qed.

Lemma NoDup_show_cols : List.NoDup show_cols.
Proof.
  unfold show_cols.
  repeat (constructor; [simpl; intros H;
                        repeat (destruct H as [H|H]; [discriminate H|]);
                        exact H|]).
  constructor.
Qed.

Lemma pct_cols_shown c : In c pct_cols -> In c show_cols.
Proof.
  unfold pct_cols, show_cols. simpl. intros H.
  repeat (destruct H as [<-|H]; [tauto|]). destruct H.
Qed.

(** C7.  The export block rescales a frame of its own.  After the round
    filter and the export block, the overview and its filtered slice are
    the objects they were before the export, with the same values; the
    exported frame is a new object whose percentage columns are those of
    the slice times 100, rounded to 2 decimals, and whose other columns
    are those of the slice. *)
Theorem export_rescales_a_copy
    (overview_ ov tidy : loc) (sel : Z * Z) (h h1 h2 : heap) :
  slice_rounds overview_ sel h = Some (ov, h1) ->
  export_block ov h1 = Some (tidy, h2) ->
  exists odf sdf tdf,
    h !! overview_ = Some odf /\ h2 !! overview_ = Some odf
    /\ h1 !! ov = Some sdf /\ h2 !! ov = Some sdf
    /\ h2 !! tidy = Some tdf /\ tidy <> ov /\ tidy <> overview_
    /\ unchanged h h2 /\ unchanged h1 h2
    /\ labels tdf = show_cols
    /\ (forall c, In c pct_cols ->
          exists s s',
            get_col c sdf = Some s /\ get_col c tdf = Some s'
            /\ mapM scale_pct s = Some s'
            /\ forall i,
                 (forall x, s !! i = Some (Num x) ->
                    s' !! i = Some (Num (round2 (x * Q2Qc (inject_Z 100)))))
                 /\ (s !! i = Some NA -> s' !! i = Some NA))
    /\ (forall c, In c show_cols -> ~ In c pct_cols ->
          get_col c tdf = get_col c sdf).
Proof.
  intros Hs He.
  apply slice_rounds_inv in Hs as (odf & r & mask & Ho & _ & _ & Hn & Hov & U1).
  apply export_block_inv in He as (sdf & sel' & tdf & Hs & Hsel & Hr & Ht & Ht' & U2).
  rewrite Hov in Hs. injection Hs as <-.
  apply select_cols_inv in Hsel as [Lsel Gsel].
  specialize (Gsel NoDup_show_cols).
  apply (rescale_all_spec _ NoDup_pct_cols) in Hr as (Lt & It & Ot).
  exists odf, (select_rows mask odf), tdf.
  split; [exact Ho|]. split; [apply U2, U1, Ho|]. split; [exact Hov|].
  split; [apply U2, Hov|]. split; [exact Ht'|].
  split; [intros ->; congruence|].
  split; [intros ->; apply U1 in Ho; congruence|].
  split; [eapply unchanged_trans; eauto|]. split; [exact U2|].
  split; [congruence|]. split.
  - intros c Hc. destruct (It c Hc) as (s & s' & Hg & Hm & Hg').
    exists s, s'. rewrite <- Gsel by now apply pct_cols_shown.
    repeat (split; [assumption|]). intros i. now apply scale_pct_lookup.
  - intros c Hc Hnc. rewrite Ot by exact Hnc. now apply Gsel.
Qed.

Lemma export_rescales_a_copy_witness :
  snd sample_export !! 1%positive = snd sample_slice !! 1%positive
  /\ snd sample_export !! fst sample_slice = snd sample_slice !! fst sample_slice
  /\ fst sample_export <> fst sample_slice.
Proof.
  assert (Hs : slice_rounds 1%positive (1, 2)%Z sample_heap
               = Some (fst sample_slice, snd sample_slice))
    by (vm_compute; reflexivity).
  assert (He : export_block (fst sample_slice) (snd sample_slice)
               = Some (fst sample_export, snd sample_export))
    by (vm_compute; reflexivity).
  destruct (export_rescales_a_copy _ _ _ _ _ _ _ Hs He)
    as (odf & sdf & tdf & H1 & H2 & H3 & H4 & H5 & H6 & _ & U & U1 & _).
  split; [|split; [now rewrite H3, H4|exact H6]].
  rewrite H2. symmetry. apply slice_rounds_inv in Hs as (? & ? & ? & Ho & _ & _ & _ & _ & U0).
  apply U0. congruence.
Defined.

(** * Further properties of the script *)

(** ** [norm] and the labels of a sheet *)

Lemma has_label_norm n df :
  (forall m, In m (labels df) -> norm_name m = norm_name n -> m = n) ->
  has_label (norm_name n) (norm df) = has_label n df.
Proof.
  intros H. unfold has_label, labels, norm. rewrite map_map. cbn [fst].
  induction df as [|[m s] df IH]; [reflexivity|]. cbn [map existsb fst].
  rewrite IH by (intros k Hk; apply H; now right). f_equal.
  destruct (String.eqb_spec n m) as [->|Hne]; [apply String.eqb_refl|].
  apply String.eqb_neq. intros E. apply Hne. symmetry. apply H; [now left|].
  now symmetry.
Qed.

Lemma get_col_norm n df :
  (forall m, In m (labels df) -> norm_name m = norm_name n -> m = n) ->
  get_col (norm_name n) (norm df) = get_col n df.
Proof.
  induction df as [|[m s] df IH]; intros H; [reflexivity|].
  cbn [norm map fst snd]. fold (norm df).
  rewrite !get_col_cons.
  rewrite has_label_norm by (intros k Hk; apply H; now right).
  rewrite IH by (intros k Hk; apply H; now right).
  destruct (String.eqb_spec m n) as [->|Hne].
  - now rewrite String.eqb_refl.
  - destruct (String.eqb_spec (norm_name m) (norm_name n)) as [E|_];
      [|reflexivity].
    exfalso. apply Hne. apply H; [now left|exact E].
Qed.

(** X1.  [norm] touches the labels only: the series of the sheet stay in
    place and in order, and a column is read under its normalised label
    exactly as it was read under its source label, provided that no other
    label of the sheet normalises to the same name. *)
Theorem norm_keeps_columns (df : DataFrame) :
  map snd (norm df) = map snd df
  /\ List.length (norm df) = List.length df
  /\ (forall n,
        (forall m, In m (labels df) -> norm_name m = norm_name n -> m = n) ->
        get_col (norm_name n) (norm df) = get_col n df).
Proof.
  split; [|split].
  - unfold norm. rewrite map_map. reflexivity.
  - unfold norm. apply length_map.
  - intros n. apply get_col_norm.
Qed.

Lemma norm_keeps_columns_witness :
  get_col "stock_(weeks)" (norm raw_sheet) = Some [int_cell 3; NA].
Proof.
  change "stock_(weeks)" with (norm_name stock_weeks_label).
  rewrite (proj2 (proj2 (norm_keeps_columns raw_sheet)) stock_weeks_label).
  - reflexivity.
  - intros m Hin E. simpl in Hin.
    destruct Hin as [<-|[<-|[<-|[]]]]; [discriminate E|reflexivity|discriminate E].
Defined.














(** ** The sheets handed to the dashboard *)

Lemma read_excel_present xl name :
  In name (sheet_names xl) -> is_Some (read_excel xl name).
Proof.
  induction xl as [|[n df] xl IH]; [intros []|]. simpl.
  destruct (String.eqb_spec n name) as [->|Hne]; [eauto|].
  intros [H|H]; [congruence|auto].
Qed.




(** ** The tables of [groupby] *)

Lemma agg_columns_labels df keys ks specs cols :
  Forall2 (fun spec col =>
             exists vals, get_col (fst (snd spec)) df = Some vals
                          /\ numeric vals = true
                          /\ col = (fst spec, agg_series (snd (snd spec)) keys ks vals))
          specs cols ->
  labels cols = map fst specs /\ rect (List.length ks) cols.
Proof.
  induction 1 as [|spec col specs cols (vals & _ & _ & ->) _ [IHl IHr]].
  - split; [reflexivity|constructor].
  - split; [cbn [labels map fst]; f_equal; exact IHl|].
    constructor; [cbn [snd]; apply agg_series_length|exact IHr].
Qed.

(** X5.  The table of a [groupby(...).agg(...).reset_index()] starts with
    the key column, which holds the distinct non-missing keys of the
    sheet in increasing order, followed by one column per named
    aggregation in the order given, each with one cell per key. *)
Theorem groupby_rows_sorted (df : DataFrame) (by_ : string)
    (specs : list NamedAgg) (out : DataFrame) :
  groupby_agg df by_ specs = Some out ->
  exists keys ks cols,
    get_col by_ df = Some keys
    /\ out = (by_, map Num ks) :: cols
    /\ increasing Qccompare ks
    /\ List.NoDup ks
    /\ (forall k, In k ks <-> In (Num k) keys)
    /\ labels out = by_ :: map fst specs
    /\ rect (List.length ks) out.
Proof.
  intros H. apply groupby_agg_inv in H as (keys & ks & cols & Hk & Hks & Hc & ->).
  destruct (agg_columns_labels _ _ _ _ _ Hc) as [Hl Hr].
  exists keys, ks, cols. split; [exact Hk|]. split; [reflexivity|].
  split; [now apply (group_keys_increasing keys)|].
  split; [now apply (group_keys_NoDup keys)|].
  split; [intros k; now apply group_keys_In|].
  split; [cbn [labels map fst]; f_equal; exact Hl|].
  constructor; [cbn [snd]; apply length_map|exact Hr].
Qed.

Lemma groupby_rows_sorted_witness :
  exists keys ks cols,
    get_col "round" sample_component = Some keys
    /\ default [] (comp_agg sample_component) = ("round", map Num ks) :: cols
    /\ increasing Qccompare ks
    /\ List.NoDup ks
    /\ (forall k, In k ks <-> In (Num k) keys)
    /\ labels (default [] (comp_agg sample_component))
       = "round" :: map fst component_aggs
    /\ rect (List.length ks) (default [] (comp_agg sample_component)).
Proof.
  apply (groupby_rows_sorted sample_component "round" component_aggs).
  reflexivity.
Defined.




Lemma cell_at_round_frame ks (cols : DataFrame) n s k i :
  ks !! i = Some k -> List.NoDup ks ->
  get_col "round" (("round", map Num ks) :: cols) = Some (map Num ks) ->
  get_col n (("round", map Num ks) :: cols) = Some s ->
  cell_at (("round", map Num ks) :: cols) k n = s !! i.
Proof.
  intros Hi Hn Hr Hs. unfold cell_at. rewrite Hr, Hs.
  cbn [mbind option_bind].
  assert (In k ks) as Hin by (apply In_lookup; eauto).
  destruct (index_of_map_Num ks k Hin) as (j & -> & Hj).
  cbn [mbind option_bind]. f_equal.
  apply NoDup_ListNoDup in Hn. eapply NoDup_lookup; eauto.
Qed.

Lemma comp_agg_inv comp ca :
  comp_agg comp = Some ca ->
  exists keys ks c1 c2 c3 c4,
    get_col "round" comp = Some keys
    /\ group_keys keys = Some ks
    /\ get_col "component_availability_(%)" comp = Some c1
    /\ get_col "stock_(weeks)" comp = Some c2
    /\ get_col "obsoletes_(%)" comp = Some c3
    /\ get_col "delivery_reliability_(%)" comp = Some c4
    /\ ca = [ ("round", map Num ks);
              ("component_availability_pct_avg", agg_series Mean keys ks c1);
              ("component_stock_weeks_avg", agg_series Mean keys ks c2);
              ("component_obsolescence_pct_avg", agg_series Mean keys ks c3);
              ("component_delivery_reliability_pct_avg",
               agg_series Mean keys ks c4) ].
Proof.
  unfold comp_agg. intros Hg.
  apply groupby_agg_inv in Hg as (keys & ks & cols & Hk & Hks & Hc & ->).
  unfold component_aggs in Hc. invert_aggs Hc.
  exists keys, ks. do 4 eexists.
  repeat (split; [eassumption|]). reflexivity.
Qed.

(** X7.  In the aggregated component table, each of the four averages of
    a round is the mean, missing values skipped, of its source field over
    the Component rows of that round. *)
Theorem comp_agg_mean_cells
    (comp ca : DataFrame) (keys vals : Series) (out src : string) (k : Qc) :
  comp_agg comp = Some ca ->
  get_col "round" comp = Some keys ->
  get_col src comp = Some vals ->
  In (out, src) component_mean_fields ->
  In (Num k) keys ->
  cell_at ca k out = Some (agg_mean (group_of keys (Num k) vals)).
Proof.
  intros Hca Hk Hv Hin Hkin.
  apply comp_agg_inv in Hca
    as (keys' & ks & c1 & c2 & c3 & c4 & H0 & Hks & H1 & H2 & H3 & H4 & ->).
  rewrite Hk in H0. injection H0 as <-.
  apply (group_keys_In keys ks k Hks) in Hkin.
  apply In_lookup in Hkin as (i & Hi).
  pose proof (group_keys_NoDup keys ks Hks) as Hn.
  unfold component_mean_fields in Hin. cbn [In] in Hin.
  destruct Hin as [E|[E|[E|[E|[]]]]]; injection E as <- <-;
    (erewrite cell_at_round_frame; [|exact Hi|exact Hn|reflexivity|reflexivity]);
    rewrite Hv in *.
  - injection H1 as <-. now apply agg_series_lookup.
  - injection H2 as <-. now apply agg_series_lookup.
  - injection H3 as <-. now apply agg_series_lookup.
  - injection H4 as <-. now apply agg_series_lookup.
Qed.

Lemma comp_agg_mean_cells_witness :
  cell_at (default [] (comp_agg sample_component)) (Q2Qc (inject_Z 1))
          "component_stock_weeks_avg"
  = Some (agg_mean [int_cell 2; int_cell 3; int_cell 4]).
Proof.
  apply (comp_agg_mean_cells sample_component _
           [int_cell 1; int_cell 1; int_cell 1; int_cell 2; int_cell 2;
            int_cell 2; int_cell 3]
           [int_cell 2; int_cell 3; int_cell 4; NA; int_cell 5; int_cell 6; NA]
           "component_stock_weeks_avg" "stock_(weeks)").
  - reflexivity.
  - reflexivity.
  - reflexivity.
  - right. left. reflexivity.
  - left. reflexivity.
Defined.

(** ** Filtered means: Vitamin C, inbound and outbound *)

Lemma mask_series_cons {A} b (m : list bool) (x : A) s :
  mask_series (b :: m) (x :: s)
  = if b then x :: mask_series m s else mask_series m s.
Proof. unfold mask_series. simpl. now destruct b. Qed.

Lemma mask_series_nil_r {A} (m : list bool) : mask_series m (@nil A) = [].
Proof. unfold mask_series. now destruct m. Qed.

Lemma mask_series_nil_l {A} (s : list A) : mask_series [] s = [].
Proof. reflexivity. Qed.

(** Grouping a filtered sheet picks, from the whole sheet, the rows that
    pass the filter and carry the key. *)
Lemma group_of_masked m : forall keys k vals,
  group_of (mask_series m keys) k (mask_series m vals)
  = masked_group m keys k vals.
Proof.
  unfold group_of, masked_group.
  induction m as [|b m IH]; intros keys k vals; [reflexivity|].
  destruct keys as [|c keys]; [reflexivity|].
  destruct vals as [|v vals].
  { now rewrite !mask_series_nil_r. }
  cbn [combine map fst snd]. rewrite !mask_series_cons.
  destruct b; cbn [map andb].
  - rewrite mask_series_cons. destruct (cell_eqb k c); now rewrite IH.
  - apply IH.
Qed.

Lemma masked_group_In m keys k vals w :
  In w (masked_group m keys k vals) <->
  exists i, m !! i = Some true /\ keys !! i = Some k /\ vals !! i = Some w.
Proof.
  unfold masked_group. rewrite mask_series_In_iff. split.
  - intros (i & Hm & Hv). exists i. rewrite lookup_map in Hm.
    apply fmap_Some in Hm as ([b c] & Hc & E). symmetry in E.
    cbn [fst snd] in E. apply andb_true_iff in E as [-> E].
    apply cell_eqb_eq in E. subst c.
    apply lookup_combine_inv in Hc as [? ?]. auto.
  - intros (i & Hm & Hk & Hv). exists i. split; [|exact Hv].
    rewrite lookup_map, (lookup_combine m keys i _ _ Hm Hk).
    cbn [fmap option_fmap option_map fst snd]. now rewrite cell_eqb_refl.
Qed.

Lemma contains_mask_lookup pat names i :
  contains_mask pat names !! i = Some true <->
  exists s, names !! i = Some (Text s) /\ Str.contains_ci pat s = true.
Proof.
  unfold contains_mask. rewrite lookup_map. split.
  - intros H. apply fmap_Some in H as ([| |s] & Hn & E); try discriminate.
    exists s. auto.
  - intros (s & -> & H). simpl. now rewrite H.
Qed.

(** The table of a mean over the rows that a text filter keeps. *)
Lemma filtered_mean_inv df col pat v g names keys vals :
  get_col col df = Some names -> get_col "round" df = Some keys ->
  get_col v df = Some vals ->
  (f ← filter_contains df col pat; groupby_mean f "round" v) = Some g ->
  exists ks,
    group_keys (mask_series (contains_mask pat names) keys) = Some ks
    /\ g = [ ("round", map Num ks);
             (v, map (fun k => agg_mean
                       (masked_group (contains_mask pat names) keys (Num k) vals))
                     ks) ].
Proof.
  intros Hn Hk Hv H. apply bind_Some in H as (f & Hf & Hg).
  unfold filter_contains, str_contains in Hf. rewrite Hn in Hf.
  cbn [mbind option_bind] in Hf.
  destruct (str_accessor_ok names); [|discriminate Hf].
  cbn [mbind option_bind] in Hf. injection Hf as <-.
  fold (contains_mask pat names) in Hg.
  apply groupby_mean_inv in Hg as (keys' & ks & vals' & Hk' & Hks & Hv' & ->).
  unfold select_rows in Hk', Hv'.
  rewrite (get_col_map_series (mask_series (contains_mask pat names))) in Hk', Hv'.
  rewrite Hk in Hk'. rewrite Hv in Hv'. cbn in Hk', Hv'.
  injection Hk' as <-. injection Hv' as <-.
  exists ks. split; [exact Hks|]. do 2 f_equal. f_equal.
  unfold agg_series. cbn [aggregate]. apply map_ext. intros k.
  now rewrite group_of_masked.
Qed.

(** X8.  The Vitamin-C obsolescence table has one row per round that
    carries a component whose name contains "vitamin" in any letter case,
    in increasing order, and its value for a round is the mean of
    [obsoletes_(%)] over those rows of that round; a round without such a
    row has no row in the table. *)
Theorem vitc_obsol_cells
    (comp vo : DataFrame) (names keys vals : Series) :
  get_col "component" comp = Some names ->
  get_col "round" comp = Some keys ->
  get_col "obsoletes_(%)" comp = Some vals ->
  vitc_obsol comp = Some vo ->
  exists ks,
    get_col "round" vo = Some (map Num ks)
    /\ labels vo = ["round"; "obsoletes_(%)"]
    /\ increasing Qccompare ks
    /\ (forall k, In k ks <->
          exists i s, keys !! i = Some (Num k) /\ names !! i = Some (Text s)
                      /\ Str.contains_ci "vitamin" s = true)
    /\ (forall k, In k ks ->
          cell_at vo k "obsoletes_(%)"
          = Some (agg_mean (masked_group (contains_mask "vitamin" names)
                                         keys (Num k) vals)))
    /\ (forall k w,
          In w (masked_group (contains_mask "vitamin" names) keys (Num k) vals)
          <-> exists i s, names !! i = Some (Text s)
                          /\ Str.contains_ci "vitamin" s = true
                          /\ keys !! i = Some (Num k) /\ vals !! i = Some w).
Proof.
  intros Hn Hk Hv H. unfold vitc_obsol, vitc in H.
  apply (filtered_mean_inv comp "component" "vitamin" "obsoletes_(%)" vo
           names keys vals Hn Hk Hv) in H as (ks & Hks & ->).
  pose proof (group_keys_NoDup _ _ Hks) as Hnd.
  exists ks. split; [reflexivity|]. split; [reflexivity|].
  split; [now apply (group_keys_increasing _ _ Hks)|]. split; [|split].
  - intros k. rewrite (group_keys_In _ ks k Hks), mask_series_In_iff. split.
    + intros (i & Hm & Hi). apply contains_mask_lookup in Hm as (s & ? & ?).
      now exists i, s.
    + intros (i & s & Hi & Hs & Hc). exists i. split; [|exact Hi].
      apply contains_mask_lookup. now exists s.
  - intros k Hin. apply In_lookup in Hin as (i & Hi).
    erewrite cell_at_round_frame; [|exact Hi|exact Hnd|reflexivity|reflexivity].
    now rewrite lookup_map, Hi.
  - intros k w. rewrite masked_group_In. split.
    + intros (i & Hm & Hi & Hw).
      apply contains_mask_lookup in Hm as (s & ? & ?). now exists i, s.
    + intros (i & s & Hs & Hc & Hi & Hw). exists i.
      split; [apply contains_mask_lookup; now exists s|auto].
Qed.

Lemma vitc_obsol_cells_witness :
  exists ks,
    get_col "round" (default [] (vitc_obsol sample_component))
    = Some (map Num ks)
    /\ labels (default [] (vitc_obsol sample_component))
       = ["round"; "obsoletes_(%)"]
    /\ increasing Qccompare ks.
Proof.
  destruct (vitc_obsol_cells sample_component
              (default [] (vitc_obsol sample_component)) sample_names
              [int_cell 1; int_cell 1; int_cell 1; int_cell 2; int_cell 2;
               int_cell 2; int_cell 3]
              [frac_cell 1 10; NA; frac_cell 3 10; int_cell 0; NA;
               frac_cell 1 5; NA]
              eq_refl eq_refl eq_refl eq_refl)
    as (ks & H1 & H2 & H3 & _).
  exists ks. exact (conj H1 (conj H2 H3)).
Defined.

(** ** What a left join puts in the joined columns *)

Lemma group_of_absent keys k vals : ~ In k keys -> group_of keys k vals = [].
Proof.
  unfold group_of, mask_series. revert vals.
  induction keys as [|c keys IH]; intros vals H; [reflexivity|].
  destruct vals as [|v vals]; [reflexivity|]. cbn [map combine List.filter fst].
  destruct (cell_eqb k c) eqn:E.
  - apply cell_eqb_eq in E. subst. exfalso. apply H. now left.
  - apply IH. intros Hin. apply H. now right.
Qed.

Lemma classic_In (k : cell) (s : Series) : In k s \/ ~ In k s.
Proof.
  induction s as [|c s [IH|IH]]; [now right|left; now right|].
  destruct (cell_eqb k c) eqn:E.
  - apply cell_eqb_eq in E. subst. left. now left.
  - right. intros [->|H]; [|tauto]. rewrite cell_eqb_refl in E. discriminate E.
Qed.

Lemma index_of_None k s : index_of k s = None <-> ~ In k s.
Proof.
  induction s as [|c s IH]; simpl; [tauto|].
  destruct (cell_eqb k c) eqn:E.
  - apply cell_eqb_eq in E. subst. split; [discriminate|tauto].
  - destruct (index_of k s); simpl.
    + split; [discriminate|]. intros H. exfalso.
      destruct (classic_In k s) as [Hin|Hin].
      * apply H. now right.
      * apply IH in Hin. discriminate Hin.
    + split; [|reflexivity]. intros _ [->|Hin].
      * rewrite cell_eqb_refl in E. discriminate E.
      * now apply IH.
Qed.

Lemma index_of_Some k s j : index_of k s = Some j -> s !! j = Some k.
Proof.
  revert j. induction s as [|c s IH]; intros j; simpl; [discriminate|].
  destruct (cell_eqb k c) eqn:E.
  - intros [= <-]. apply cell_eqb_eq in E. now subst.
  - intros H. apply fmap_Some in H as (j' & Hj & ->). simpl. auto.
Qed.

Lemma matches_zero rk k : matches rk k = 0 <-> ~ In k rk.
Proof.
  rewrite matches_filter. split.
  - intros H Hin. destruct (List.filter (cell_eqb k) rk) as [|x l] eqn:E;
      [|discriminate H].
    assert (In k (List.filter (cell_eqb k) rk)) as Hk
      by (apply filter_In; split; [exact Hin|apply cell_eqb_refl]).
    now rewrite E in Hk.
  - intros H. now rewrite filter_eqb_absent.
Qed.

(** With a key that is unique on the right, the group of a key is the one
    value at the position of that key. *)
Lemma group_of_unique rk : forall k t j,
  List.NoDup rk -> List.length t = List.length rk ->
  index_of k rk = Some j ->
  exists v, t !! j = Some v /\ group_of rk k t = [v].
Proof.
  induction rk as [|c rk IH]; intros k t j Hn Hl Hj; [discriminate Hj|].
  destruct t as [|v t]; [discriminate Hl|]. inversion Hn as [|? ? Hc Hn']; subst.
  simpl in Hj. unfold group_of. cbn [map]. rewrite mask_series_cons.
  destruct (cell_eqb k c) eqn:E.
  - injection Hj as <-. apply cell_eqb_eq in E. subst c. exists v.
    split; [reflexivity|]. f_equal. now apply group_of_absent.
  - apply fmap_Some in Hj as (j' & Hj & ->).
    destruct (IH k t j' Hn' ltac:(simpl in Hl; lia) Hj) as (w & Hw & Hg).
    exists w. split; [exact Hw|exact Hg].
Qed.

Lemma merge_right_col_lookup lk rk t : forall i k,
  List.NoDup rk -> List.length t = List.length rk ->
  lk !! i = Some k ->
  merge_right_col lk rk t !! i
  = Some (match index_of k rk with
          | Some j => default NA (t !! j)
          | None => NA
          end).
Proof.
  unfold merge_right_col.
  induction lk as [|k0 lk IH]; intros i k Hn Hl Hi; [destruct i; discriminate Hi|].
  cbn [flat_map].
  assert (Hb : exists v, (match matches rk k0 with
                          | 0 => [NA]
                          | S _ => group_of rk k0 t
                          end) = [v]
                         /\ v = match index_of k0 rk with
                                | Some j => default NA (t !! j)
                                | None => NA
                                end).
  { destruct (index_of k0 rk) as [j|] eqn:E.
    - destruct (group_of_unique rk k0 t j Hn Hl E) as (v & Hv & Hg).
      exists v. rewrite Hv. split; [|reflexivity].
      destruct (matches rk k0) eqn:Em; [|exact Hg].
      apply matches_zero in Em. apply index_of_None in Em. congruence.
    - exists NA. split; [|reflexivity].
      apply index_of_None, matches_zero in E. now rewrite E. }
  destruct Hb as (v & -> & ->). destruct i as [|i].
  - injection Hi as ->. reflexivity.
  - simpl. now apply IH.
Qed.

(** A right column that tabulates a function of the key: the joined
    column holds the value of the function at each left key, provided the
    function is missing off the right keys. *)
Lemma merge_right_tabulated lk kc (g : Qc -> cell) i R :
  List.NoDup kc -> (~ In R kc -> g R = NA) -> lk !! i = Some (Num R) ->
  merge_right_col lk (map Num kc) (map g kc) !! i = Some (g R).
Proof.
  intros Hn Hg Hi.
  rewrite (merge_right_col_lookup lk (map Num kc) (map g kc) i (Num R));
    [|now apply NoDup_map_Num|now rewrite !length_map|exact Hi].
  f_equal. destruct (index_of (Num R) (map Num kc)) as [j|] eqn:E.
  - apply index_of_Some in E. rewrite lookup_map in E.
    apply fmap_Some in E as (k' & Hk & [= <-]).
    now rewrite lookup_map, Hk.
  - symmetry. apply Hg. apply index_of_None in E. intros Hin. apply E.
    apply in_map_iff. now exists R.
Qed.

Lemma merge_right_col_self ks t :
  List.NoDup ks -> List.length t = List.length ks ->
  merge_right_col (map Num ks) (map Num ks) t = t.
Proof.
  intros Hn Hl. apply list_eq. intros i.
  destruct (ks !! i) as [k|] eqn:Hk.
  - rewrite (merge_right_col_lookup _ _ _ i (Num k));
      [|now apply NoDup_map_Num|now rewrite length_map|now rewrite lookup_map, Hk].
    destruct (index_of_map_Num ks k) as (j & -> & Hj);
      [apply In_lookup; eauto|].
    assert (j = i) as ->
      by (apply NoDup_ListNoDup in Hn; eapply NoDup_lookup; eauto).
    destruct (t !! i) as [v|] eqn:Ht; [reflexivity|].
    apply lookup_ge_None in Ht. apply lookup_lt_Some in Hk. lia.
  - apply lookup_ge_None in Hk.
    rewrite (proj2 (lookup_ge_None t i)) by lia.
    apply lookup_ge_None. rewrite merge_right_col_length;
      [now rewrite length_map|now apply NoDup_map_Num|now rewrite length_map].
Qed.

Lemma get_col_drop_key n on (r : DataFrame) :
  String.eqb n on = false ->
  get_col n (List.filter (fun p => negb (String.eqb (fst p) on)) r)
  = get_col n r.
Proof.
  intros Hne. unfold get_col.
  assert (E : List.filter (fun p : string * Series => String.eqb (fst p) n)
                (List.filter (fun p => negb (String.eqb (fst p) on)) r)
              = List.filter (fun p => String.eqb (fst p) n) r).
  { induction r as [|[m s] r IH]; [reflexivity|]. cbn [List.filter fst].
    destruct (String.eqb_spec m on) as [->|Hm]; cbn [negb].
    - rewrite String.eqb_sym, Hne. exact IH.
    - cbn [List.filter fst]. now rewrite IH. }
  now rewrite E.
Qed.

Lemma has_label_extra n on lk rk (r : DataFrame) :
  has_label n (map (fun p => (fst p, merge_right_col lk rk (snd p)))
                   (List.filter (fun p => negb (String.eqb (fst p) on)) r))
  = negb (String.eqb n on) && has_label n r.
Proof.
  unfold has_label, labels. rewrite map_map. cbn [fst].
  induction r as [|[m s] r IH]; [now rewrite andb_false_r|].
  cbn [List.filter fst map existsb].
  destruct (String.eqb_spec m on) as [->|Hm]; cbn [negb].
  - rewrite IH. destruct (String.eqb_spec n on); [reflexivity|reflexivity].
  - cbn [map existsb fst]. rewrite IH.
    destruct (String.eqb_spec n m) as [->|_]; [|reflexivity].
    destruct (String.eqb_spec m on); [congruence|reflexivity].
Qed.

(** The join of [merge_left_adds_columns], with the appended columns
    spelled out. *)
Lemma merge_left_explicit l r on lk rk :
  get_col on l = Some lk -> get_col on r = Some rk ->
  rect (List.length lk) l -> List.NoDup rk ->
  disjoint_but on l r = true ->
  merge_left l r on
  = Some (l ++ map (fun p => (fst p, merge_right_col lk rk (snd p)))
                   (List.filter (fun p => negb (String.eqb (fst p) on)) r)).
Proof.
  intros Hl Hr Rl Hn Hd. unfold merge_left. rewrite Hl, Hr.
  cbn [mbind option_bind]. f_equal. f_equal.
  - rewrite <- (map_id l) at 2. apply map_ext_in. intros [n s] Hin.
    cbn [fst snd]. rewrite shared_false_left.
    + f_equal. apply merge_left_col_id; [exact Hn|].
      unfold rect in Rl. rewrite List.Forall_forall in Rl.
      exact (Rl (n, s) Hin).
    + exact Hd.
    + unfold labels. apply in_map_iff. now exists (n, s).
  - apply map_ext_in. intros [n s] Hin. cbn [fst snd].
    apply filter_In in Hin as [Hin Hne]. cbn [fst] in Hne.
    rewrite shared_false_right; [reflexivity|exact Hd| |now apply negb_true_iff].
    unfold labels. apply in_map_iff. now exists (n, s).
Qed.

(** One join of the overview, column by column. *)
Lemma merge_step_cols l r lk rk (Ll Lr : list string) :
  labels l = Ll -> get_col "round" l = Some lk -> rect (List.length lk) l ->
  Forall (fun p => numeric (snd p) = true) l ->
  labels r = Lr -> get_col "round" r = Some rk -> rect (List.length rk) r ->
  Forall (fun p => numeric (snd p) = true) r ->
  List.NoDup rk ->
  forallb (fun n => String.eqb n "round" || negb (existsb (String.eqb n) Lr)) Ll
  = true ->
  exists m,
    merge_left l r "round" = Some m
    /\ labels m = Ll ++ List.filter (fun n => negb (String.eqb n "round")) Lr
    /\ get_col "round" m = Some lk
    /\ rect (List.length lk) m
    /\ Forall (fun p => numeric (snd p) = true) m
    /\ (forall n s, get_col n l = Some s -> get_col n m = Some s)
    /\ (forall n t, String.eqb n "round" = false -> get_col n r = Some t ->
          get_col n m = Some (merge_right_col lk rk t)).
Proof.
  intros HLl Hl Rl Nl HLr Hr Rr Nr Hn Hd.
  assert (Hd' : disjoint_but "round" l r = true)
    by (unfold disjoint_but, has_label; now rewrite HLl, HLr).
  destruct (merge_step l r lk rk Ll Lr HLl Hl Rl HLr Hr Rr Hn Hd)
    as (extra & Hm & Le & LL & G & R).
  rewrite (merge_left_explicit l r "round" lk rk Hl Hr Rl Hn Hd') in Hm.
  apply (inj Some), app_inv_head in Hm. subst extra.
  eexists. split; [exact (merge_left_explicit l r "round" lk rk Hl Hr Rl Hn Hd')|].
  split; [exact LL|]. split; [exact G|]. split; [exact R|].
  split; [|split].
  - apply Forall_app. split; [exact Nl|].
    apply Forall_map, List.Forall_forall. intros [n s] Hin. cbn [snd].
    apply filter_In in Hin as [Hin _].
    rewrite List.Forall_forall in Nr. specialize (Nr _ Hin). cbn [snd] in Nr.
    unfold merge_right_col, numeric. rewrite forallb_forall.
    intros c Hc. apply in_flat_map in Hc as (k & _ & Hc).
    destruct (matches rk k); [destruct Hc as [<-|[]]; reflexivity|].
    unfold group_of in Hc. apply mask_series_In in Hc as (i & _ & Hi).
    unfold numeric in Nr. rewrite forallb_forall in Nr. apply Nr.
    apply In_lookup. eauto.
  - intros n s Hs. rewrite get_col_app_l; [exact Hs|].
    rewrite has_label_extra.
    destruct (String.eqb_spec n "round") as [_|Hne]; [reflexivity|].
    cbn [negb andb]. unfold disjoint_but in Hd'. rewrite forallb_forall in Hd'.
    assert (In n (labels l)) as Hin
      by (apply has_label_In; eapply get_col_has_label; eauto).
    specialize (Hd' n Hin). apply orb_true_iff in Hd' as [E|E].
    + apply String.eqb_eq in E. congruence.
    + now apply negb_true_iff in E.
  - intros n t Hne Ht. rewrite get_col_app_r.
    + rewrite (get_col_map_series (merge_right_col lk rk)).
      now rewrite get_col_drop_key, Ht.
    + destruct (has_label n l) eqn:E; [|reflexivity].
      apply has_label_In in E. unfold disjoint_but in Hd'.
      rewrite forallb_forall in Hd'. specialize (Hd' n E). rewrite Hne in Hd'.
      cbn [orb] in Hd'. apply negb_true_iff in Hd'.
      now rewrite (get_col_has_label n t r Ht) in Hd'.
Qed.

(** ** The columns of the overview *)

Lemma numeric_agg_series f keys ks vals :
  numeric (agg_series f keys ks vals) = true.
Proof.
  unfold agg_series, numeric. rewrite forallb_forall. intros c Hc.
  apply in_map_iff in Hc as (k & <- & _).
  destruct f; [unfold aggregate, agg_mean|reflexivity].
  now destruct (present _).
Qed.

Lemma numeric_map_Num ks : numeric (map Num ks) = true.
Proof. induction ks; simpl; auto. Qed.

Lemma numeric_map_cells {A} (g : A -> Qc) l :
  numeric (map (fun k => Num (g k)) l) = true.
Proof. induction l; simpl; auto. Qed.

Lemma groupby_mean_mean_table df col g :
  groupby_mean df "round" col = Some g -> mean_table col g.
Proof.
  intros H. apply groupby_mean_inv in H as (keys & ks & vals & _ & Hks & _ & ->).
  exists ks, (agg_series Mean keys ks vals).
  split; [now apply (group_keys_NoDup keys)|].
  split; [apply agg_series_length|]. split; [apply numeric_agg_series|reflexivity].
Qed.

Lemma inbound_mean_table wh t : inbound wh = Some t -> mean_table "inbound_util" t.
Proof.
  unfold inbound. intros H. apply bind_Some in H as (f & _ & H).
  apply bind_Some in H as (g & Hg & H). injection H as <-.
  apply groupby_mean_mean_table in Hg as (ks & s & Hn & Hl & Hs & ->).
  now exists ks, s.
Qed.

Lemma outbound_mean_table wh t :
  outbound wh = Some t -> mean_table "outbound_util" t.
Proof.
  unfold outbound. intros H. apply bind_Some in H as (f & _ & H).
  apply bind_Some in H as (g & Hg & H). injection H as <-.
  apply groupby_mean_mean_table in Hg as (ks & s & Hn & Hl & Hs & ->).
  now exists ks, s.
Qed.

Lemma ppa_mean_table prod t : ppa prod = Some t -> mean_table "ppa" t.
Proof.
  unfold ppa. intros H. apply bind_Some in H as (g & Hg & H).
  injection H as <-.
  apply groupby_mean_mean_table in Hg as (ks & s & Hn & Hl & Hs & ->).
  now exists ks, s.
Qed.

Lemma mean_table_facts name t :
  String.eqb "round" name = false ->
  mean_table name t ->
  exists rk, get_col "round" t = Some rk /\ rect (List.length rk) t
             /\ List.NoDup rk /\ labels t = ["round"; name]
             /\ Forall (fun p => numeric (snd p) = true) t.
Proof.
  intros Hne (ks & s & Hn & Hl & Hs & ->). exists (map Num ks).
  split; [|split; [|split; [now apply NoDup_map_Num|split; [reflexivity|]]]].
  - rewrite get_col_cons. unfold has_label. cbn [labels map fst existsb].
    now rewrite Hne.
  - unfold rect. repeat constructor; cbn [snd]; rewrite ?length_map; auto.
  - repeat constructor; cbn [snd]; [apply numeric_map_Num|exact Hs].
Qed.

(** The overview, column by column: the product columns are those of the
    aggregated product table, and every other column is the column of its
    aggregate looked up by round. *)
Lemma overview_cols prod comp wh ov :
  overview prod comp wh = Some ov ->
  exists pa ca inb outb pp ks rc ri ro rp,
    prod_agg prod = Some pa /\ comp_agg comp = Some ca
    /\ inbound wh = Some inb /\ outbound wh = Some outb /\ ppa prod = Some pp
    /\ increasing Qccompare ks
    /\ get_col "round" pa = Some (map Num ks)
    /\ get_col "round" ov = Some (map Num ks)
    /\ get_col "round" ca = Some rc /\ get_col "round" inb = Some ri
    /\ get_col "round" outb = Some ro /\ get_col "round" pp = Some rp
    /\ rect (List.length ks) ov
    /\ Forall (fun p => numeric (snd p) = true) ov
    /\ labels ov = [ "round"; "avg_service_pct"; "fg_stock_weeks_avg";
                     "mape_pct"; "product_obsol_pct_avg"; "realized_revenue";
                     "gross_margin_per_week"; "cogs";
                     "component_availability_pct_avg";
                     "component_stock_weeks_avg";
                     "component_obsolescence_pct_avg";
                     "component_delivery_reliability_pct_avg";
                     "inbound_util"; "outbound_util"; "ppa" ]
    /\ (forall n t, get_col n pa = Some t -> get_col n ov = Some t)
    /\ (forall n t, String.eqb n "round" = false -> get_col n ca = Some t ->
          get_col n ov = Some (merge_right_col (map Num ks) rc t))
    /\ (forall n t, String.eqb n "round" = false -> get_col n inb = Some t ->
          get_col n ov = Some (merge_right_col (map Num ks) ri t))
    /\ (forall n t, String.eqb n "round" = false -> get_col n outb = Some t ->
          get_col n ov = Some (merge_right_col (map Num ks) ro t))
    /\ (forall n t, String.eqb n "round" = false -> get_col n pp = Some t ->
          get_col n ov = Some (merge_right_col (map Num ks) rp t)).
Proof.
  intros H.
  destruct (overview_parts prod comp wh ov H)
    as (pa & ca & inb & outb & pp & Hpa & Hca & Hinb & Houtb & Hpp).
  exists pa, ca, inb, outb, pp.
  unfold overview in H. rewrite Hpa, Hca, Hinb, Houtb, Hpp in H.
  cbn [mbind option_bind] in H. unfold join_overview in H.
  pose proof Hpa as Hpa'. pose proof Hca as Hca'.
  apply prod_agg_inv in Hpa'
    as (keys & ks & s1 & s2 & s3 & s4 & s5 & s6 & _ & Hks & _ & _ & _ & _ & _ & _ & Epa).
  pose proof (group_keys_increasing keys ks Hks) as Hi.
  pose proof (increasing_Qc_NoDup ks Hi) as Hnd.
  apply comp_agg_inv in Hca'
    as (ckeys & kc & c1 & c2 & c3 & c4 & _ & Hkc & _ & _ & _ & _ & Eca).
  pose proof (group_keys_NoDup ckeys kc Hkc) as Hnc.
  pose proof Hinb as Hinb'. pose proof Houtb as Houtb'. pose proof Hpp as Hpp'.
  apply inbound_mean_table, mean_table_facts in Hinb'
    as (ri & Gi & Ri & Ni & Li & Fi); [|reflexivity].
  apply outbound_mean_table, mean_table_facts in Houtb'
    as (ro & Go & Ro & No & Lo & Fo); [|reflexivity].
  apply ppa_mean_table, mean_table_facts in Hpp'
    as (rp & Gp & Rp & Np & Lp & Fp); [|reflexivity].
  exists ks, (map Num kc), ri, ro, rp.
  assert (Rpa : rect (List.length (map Num ks)) pa).
  { subst pa. unfold rect, product_frame. repeat constructor; cbn [snd];
      rewrite ?length_map, ?agg_series_length; reflexivity. }
  assert (Fpa : Forall (fun p => numeric (snd p) = true) pa).
  { subst pa. unfold product_frame. repeat constructor; cbn [snd];
      first [apply numeric_map_Num|apply numeric_agg_series
            |apply (numeric_map_cells
                      (fun k => (group_sum keys s5 k - group_sum keys s6 k)%Qc))]. }
  assert (Rca : rect (List.length (map Num kc)) ca).
  { subst ca. unfold rect. repeat constructor; cbn [snd];
      rewrite ?length_map, ?agg_series_length; reflexivity. }
  assert (Fca : Forall (fun p => numeric (snd p) = true) ca).
  { subst ca. repeat constructor; cbn [snd];
      first [apply numeric_map_Num|apply numeric_agg_series]. }
  assert (Gpa : get_col "round" pa = Some (map Num ks)) by (now subst pa).
  assert (Gca : get_col "round" ca = Some (map Num kc)) by (now subst ca).
  assert (Lpa : labels pa = [ "round"; "avg_service_pct"; "fg_stock_weeks_avg";
                     "mape_pct"; "product_obsol_pct_avg"; "realized_revenue";
                     "gross_margin_per_week"; "cogs" ]) by (now subst pa).
  assert (Lca : labels ca = [ "round"; "component_availability_pct_avg";
                     "component_stock_weeks_avg";
                     "component_obsolescence_pct_avg";
                     "component_delivery_reliability_pct_avg" ]) by (now subst ca).
  assert (Er0 : rounds_df pa = Some [("round", map Num ks)])
    by (subst pa; now apply rounds_df_frame).
  rewrite Er0 in H. cbn [mbind option_bind] in H.
  assert (R0 : rect (List.length (map Num ks)) [("round", map Num ks)])
    by (repeat constructor).
  assert (F0 : Forall (fun p : string * Series => numeric (snd p) = true)
                 [("round", map Num ks)])
    by (repeat constructor; apply numeric_map_Num).
  destruct (merge_step_cols [("round", map Num ks)] pa
              (map Num ks) (map Num ks) _ _
              eq_refl eq_refl R0 F0 Lpa Gpa Rpa Fpa
              (NoDup_map_Num _ Hnd) eq_refl)
    as (m1 & M1 & L1 & G1 & R1 & F1 & P1 & C1).
  rewrite M1 in H. cbn [mbind option_bind] in H.
  destruct (merge_step_cols m1 ca (map Num ks) (map Num kc) _ _
              L1 G1 R1 F1 Lca Gca Rca Fca (NoDup_map_Num _ Hnc) eq_refl)
    as (m2 & M2 & L2 & G2 & R2 & F2 & P2 & C2).
  rewrite M2 in H. cbn [mbind option_bind] in H.
  destruct (merge_step_cols m2 inb (map Num ks) ri _ _
              L2 G2 R2 F2 Li Gi Ri Fi Ni eq_refl)
    as (m3 & M3 & L3 & G3 & R3 & F3 & P3 & C3).
  rewrite M3 in H. cbn [mbind option_bind] in H.
  destruct (merge_step_cols m3 outb (map Num ks) ro _ _
              L3 G3 R3 F3 Lo Go Ro Fo No eq_refl)
    as (m4 & M4 & L4 & G4 & R4 & F4 & P4 & C4).
  rewrite M4 in H. cbn [mbind option_bind] in H.
  destruct (merge_step_cols m4 pp (map Num ks) rp _ _
              L4 G4 R4 F4 Lp Gp Rp Fp Np eq_refl)
    as (m5 & M5 & L5 & G5 & R5 & F5 & P5 & C5).
  rewrite M5 in H. apply (inj Some) in H. subst m5.
  rewrite length_map in R5.
  repeat (split; [assumption|]).
  split; [|split; [|split; [|split]]].
  - intros n t Ht. apply P5, P4, P3, P2.
    destruct (String.eqb_spec n "round") as [->|Hne].
    + rewrite Gpa in Ht. injection Ht as <-. exact G1.
    + rewrite (C1 n t); [|now apply String.eqb_neq|exact Ht]. f_equal.
      apply merge_right_col_self; [exact Hnd|].
      unfold rect in Rpa. rewrite List.Forall_forall in Rpa.
      rewrite length_map in Rpa. exact (Rpa (n, t) (get_col_In _ _ _ Ht)).
  - intros n t Hne Ht. apply P5, P4, P3. now apply C2.
  - intros n t Hne Ht. apply P5, P4. now apply C3.
  - intros n t Hne Ht. apply P5. now apply C4.
  - intros n t Hne Ht. now apply C5.
Qed.


(** ** The cells of the overview *)

Lemma agg_mean_nil : agg_mean [] = NA.
Proof. reflexivity. Qed.

(** The cell of a joined column at a round of the left frame, when the
    right column tabulates a function of the round that is missing off
    the right rounds. *)
Lemma joined_cell (ov : DataFrame) ks kc (g : Qc -> cell) out k :
  get_col "round" ov = Some (map Num ks) ->
  get_col out ov
  = Some (merge_right_col (map Num ks) (map Num kc) (map g kc)) ->
  List.NoDup kc -> (~ In k kc -> g k = NA) -> In k ks ->
  cell_at ov k out = Some (g k).
Proof.
  intros Hr Ho Hn Hg Hin. unfold cell_at. rewrite Hr, Ho.
  cbn [mbind option_bind].
  destruct (index_of_map_Num ks k Hin) as (j & -> & Hj).
  cbn [mbind option_bind].
  apply merge_right_tabulated; [exact Hn|exact Hg|].
  now rewrite lookup_map, Hj.
Qed.

Lemma group_mean_absent keys ks vals k :
  group_keys keys = Some ks -> ~ In k ks ->
  agg_mean (group_of keys (Num k) vals) = NA.
Proof.
  intros Hks Hk. rewrite group_of_absent; [reflexivity|].
  intros Hin. apply Hk. now apply (group_keys_In keys ks k Hks).
Qed.

Lemma masked_mean_absent m keys ks vals k :
  group_keys (mask_series m keys) = Some ks -> ~ In k ks ->
  agg_mean (masked_group m keys (Num k) vals) = NA.
Proof.
  intros Hks Hk. rewrite <- group_of_masked.
  now apply (group_mean_absent _ ks).
Qed.

Lemma inbound_inv wh inb names keys vals :
  get_col "warehouse" wh = Some names -> get_col "round" wh = Some keys ->
  get_col "cube_utilization_(%)" wh = Some vals ->
  inbound wh = Some inb ->
  exists ks,
    group_keys (mask_series (contains_mask "raw materials" names) keys)
    = Some ks
    /\ inb = [ ("round", map Num ks);
               ("inbound_util",
                map (fun k => agg_mean
                       (masked_group (contains_mask "raw materials" names)
                                     keys (Num k) vals)) ks) ].
Proof.
  intros Hn Hk Hv H. unfold inbound in H.
  apply bind_Some in H as (f & Hf & H). apply bind_Some in H as (g & Hg & H).
  apply (inj Some) in H. subst inb.
  destruct (filtered_mean_inv wh "warehouse" "raw materials"
              "cube_utilization_(%)" g names keys vals Hn Hk Hv)
    as (ks & Hks & ->).
  { rewrite Hf. exact Hg. }
  exists ks. split; [exact Hks|reflexivity].
Qed.

Lemma outbound_inv wh outb names keys vals :
  get_col "warehouse" wh = Some names -> get_col "round" wh = Some keys ->
  get_col "cube_utilization_(%)" wh = Some vals ->
  outbound wh = Some outb ->
  exists ks,
    group_keys (mask_series (contains_mask "finished goods" names) keys)
    = Some ks
    /\ outb = [ ("round", map Num ks);
                ("outbound_util",
                 map (fun k => agg_mean
                        (masked_group (contains_mask "finished goods" names)
                                      keys (Num k) vals)) ks) ].
Proof.
  intros Hn Hk Hv H. unfold outbound in H.
  apply bind_Some in H as (f & Hf & H). apply bind_Some in H as (g & Hg & H).
  apply (inj Some) in H. subst outb.
  destruct (filtered_mean_inv wh "warehouse" "finished goods"
              "cube_utilization_(%)" g names keys vals Hn Hk Hv)
    as (ks & Hks & ->).
  { rewrite Hf. exact Hg. }
  exists ks. split; [exact Hks|reflexivity].
Qed.

Lemma ppa_inv prod pp keys vals :
  get_col "round" prod = Some keys ->
  get_col "production_plan_adherence_(%)" prod = Some vals ->
  ppa prod = Some pp ->
  exists ks,
    group_keys keys = Some ks
    /\ pp = [ ("round", map Num ks);
              ("ppa", map (fun k => agg_mean (group_of keys (Num k) vals)) ks) ].
Proof.
  intros Hk Hv H. unfold ppa in H. apply bind_Some in H as (g & Hg & H).
  apply (inj Some) in H. subst pp.
  apply groupby_mean_inv in Hg as (keys' & ks & vals' & Hk' & Hks & Hv' & ->).
  rewrite Hk in Hk'. rewrite Hv in Hv'.
  apply (inj Some) in Hk'. apply (inj Some) in Hv'. subst keys' vals'.
  exists ks. split; [exact Hks|reflexivity].
Qed.

Lemma map_Num_inj ks ks' : map Num ks = map Num ks' -> ks = ks'.
Proof.
  revert ks'. induction ks as [|k ks IH]; intros [|k' ks'] H;
    try discriminate H; [reflexivity|].
  injection H as -> H. f_equal. now apply IH.
Qed.

(** The rounds of the overview are the rounds of the Product sheet. *)
Lemma overview_rounds prod comp wh ov pkeys :
  overview prod comp wh = Some ov -> get_col "round" prod = Some pkeys ->
  exists ks,
    group_keys pkeys = Some ks /\ get_col "round" ov = Some (map Num ks).
Proof.
  intros H Hp.
  destruct (overview_cols prod comp wh ov H)
    as (pa & ca & inb & outb & pp & ks & rc & ri & ro & rp & Hpa & _ & _ & _
        & _ & _ & Gpa & Gov & _).
  apply prod_agg_inv in Hpa
    as (keys & ks' & s1 & s2 & s3 & s4 & s5 & s6 & Hk & Hks & _ & _ & _ & _
        & _ & _ & ->).
  rewrite Hp in Hk. apply (inj Some) in Hk. subst keys.
  change (get_col "round" (product_frame _ _ _ _ _ _ _ _))
    with (Some (map Num ks')) in Gpa.
  apply (inj Some) in Gpa. apply map_Num_inj in Gpa. subst ks'.
  now exists ks.
Qed.


(** X9.  The overview carries the aggregated product table unchanged: its
    rounds are the distinct rounds of the Product sheet in increasing
    order, every product column is the column of the product aggregates,
    cell for cell, and no column of the overview holds a text. *)
Theorem overview_product_cells (prod comp wh ov : DataFrame) (pkeys : Series) :
  overview prod comp wh = Some ov ->
  get_col "round" prod = Some pkeys ->
  exists pa ks,
    prod_agg prod = Some pa
    /\ get_col "round" ov = Some (map Num ks)
    /\ increasing Qccompare ks
    /\ (forall k, In k ks <-> In (Num k) pkeys)
    /\ Forall (fun p => numeric (snd p) = true) ov
    /\ (forall n t, get_col n pa = Some t -> get_col n ov = Some t)
    /\ (forall k n t, get_col n pa = Some t ->
          cell_at ov k n = cell_at pa k n).
Proof.
  intros H Hp.
  destruct (overview_rounds prod comp wh ov pkeys H Hp) as (ks0 & Hks0 & G0).
  destruct (overview_cols prod comp wh ov H)
    as (pa & ca & inb & outb & pp & ks & rc & ri & ro & rp & Hpa & _ & _ & _
        & _ & Hi & Gpa & Gov & _ & _ & _ & _ & _ & Fo & _ & Ppa & _).
  rewrite Gov in G0. apply (inj Some) in G0. apply map_Num_inj in G0.
  subst ks0. exists pa, ks.
  repeat (split; [assumption|]).
  split; [intros k; now apply group_keys_In|].
  split; [exact Fo|]. split; [exact Ppa|].
  intros k n t Ht. unfold cell_at.
  now rewrite Gov, Gpa, (Ppa n t Ht), Ht.
Qed.

Lemma overview_product_cells_witness :
  exists pa ks,
    prod_agg sample_product = Some pa
    /\ get_col "round" sample_overview = Some (map Num ks)
    /\ increasing Qccompare ks.
Proof.
  destruct (overview_product_cells sample_product sample_component
              sample_warehouse sample_overview
              [int_cell 1; int_cell 1; int_cell 2; int_cell 1; int_cell 3]
              eq_refl eq_refl)
    as (pa & ks & H1 & H2 & H3 & _).
  exists pa, ks. exact (conj H1 (conj H2 H3)).
Defined.

(** X10.  A component average of the overview, at a round of the Product
    sheet, is the mean of its source field over the Component rows of
    that round, missing values skipped; it is missing when the Component
    sheet has no row for that round. *)
Theorem overview_component_cells
    (prod comp wh ov : DataFrame) (pkeys ckeys vals : Series)
    (out src : string) (k : Qc) :
  overview prod comp wh = Some ov ->
  get_col "round" prod = Some pkeys ->
  get_col "round" comp = Some ckeys ->
  get_col src comp = Some vals ->
  In (out, src) component_mean_fields ->
  In (Num k) pkeys ->
  cell_at ov k out = Some (agg_mean (group_of ckeys (Num k) vals))
  /\ (~ In (Num k) ckeys -> cell_at ov k out = Some NA).
Proof.
  intros H Hp Hc Hv Hf Hk.
  destruct (overview_rounds prod comp wh ov pkeys H Hp) as (ks0 & Hks0 & G0).
  destruct (overview_cols prod comp wh ov H)
    as (pa & ca & inb & outb & pp & ks & rc & ri & ro & rp & _ & Hca & _ & _
        & _ & _ & _ & Gov & Gca & _ & _ & _ & _ & _ & _ & _ & Pca & _).
  rewrite Gov in G0. apply (inj Some) in G0. apply map_Num_inj in G0.
  subst ks0.
  apply comp_agg_inv in Hca
    as (ckeys' & kc & c1 & c2 & c3 & c4 & Hc' & Hkc & H1 & H2 & H3 & H4 & ->).
  rewrite Hc in Hc'. apply (inj Some) in Hc'. subst ckeys'.
  change (get_col "round" _) with (Some (map Num kc)) in Gca.
  apply (inj Some) in Gca. subst rc.
  assert (Hin : In k ks) by now apply (group_keys_In pkeys ks k Hks0).
  assert (Hcell : cell_at ov k out
                  = Some (agg_mean (group_of ckeys (Num k) vals))).
  { apply (joined_cell ov ks kc
             (fun r => agg_mean (group_of ckeys (Num r) vals)) out k Gov);
      [|now apply (group_keys_NoDup ckeys)
       |now apply (group_mean_absent ckeys kc)|exact Hin].
    unfold component_mean_fields in Hf. cbn [In] in Hf.
    destruct Hf as [E|[E|[E|[E|[]]]]]; injection E as <- <-;
      rewrite Hv in *;
      [ apply (inj Some) in H1 | apply (inj Some) in H2
      | apply (inj Some) in H3 | apply (inj Some) in H4 ]; subst;
      now apply Pca. }
  split; [exact Hcell|]. intros Hno. rewrite Hcell.
  now rewrite group_of_absent.
Qed.

Lemma overview_component_cells_witness :
  cell_at sample_overview (Q2Qc (inject_Z 2)) "component_stock_weeks_avg"
  = Some (agg_mean [NA; int_cell 5; int_cell 6]).
Proof.
  apply (overview_component_cells sample_product sample_component
           sample_warehouse sample_overview
           [int_cell 1; int_cell 1; int_cell 2; int_cell 1; int_cell 3]
           [int_cell 1; int_cell 1; int_cell 1; int_cell 2; int_cell 2;
            int_cell 2; int_cell 3]
           [int_cell 2; int_cell 3; int_cell 4; NA; int_cell 5; int_cell 6; NA]
           "component_stock_weeks_avg" "stock_(weeks)").
  - reflexivity.
  - reflexivity.
  - reflexivity.
  - reflexivity.
  - right. left. reflexivity.
  - right. right. left. reflexivity.
Defined.

(** X11.  The inbound and the outbound utilisation of the overview, at a
    round of the Product sheet, are the means of the cube utilisation
    over the Warehouse rows of that round whose warehouse name contains
    "raw materials", respectively "finished goods", in any letter case;
    the plan adherence is the mean of its field over the Product rows of
    the round.  Each is missing when no such row carries a value. *)
Theorem overview_operations_cells
    (prod comp wh ov : DataFrame) (names wkeys cube pkeys adher : Series)
    (k : Qc) :
  overview prod comp wh = Some ov ->
  get_col "warehouse" wh = Some names ->
  get_col "round" wh = Some wkeys ->
  get_col "cube_utilization_(%)" wh = Some cube ->
  get_col "round" prod = Some pkeys ->
  get_col "production_plan_adherence_(%)" prod = Some adher ->
  In (Num k) pkeys ->
  cell_at ov k "inbound_util"
  = Some (agg_mean (masked_group (contains_mask "raw materials" names)
                                 wkeys (Num k) cube))
  /\ cell_at ov k "outbound_util"
     = Some (agg_mean (masked_group (contains_mask "finished goods" names)
                                    wkeys (Num k) cube))
  /\ cell_at ov k "ppa" = Some (agg_mean (group_of pkeys (Num k) adher)).
Proof.
  intros H Hn Hw Hc Hp Ha Hk.
  destruct (overview_rounds prod comp wh ov pkeys H Hp) as (ks0 & Hks0 & G0).
  destruct (overview_cols prod comp wh ov H)
    as (pa & ca & inb & outb & pp & ks & rc & ri & ro & rp & _ & _ & Hinb
        & Houtb & Hpp & _ & _ & Gov & _ & Gi & Go & Gp & _ & _ & _ & _ & _
        & Pi & Po & Pp).
  rewrite Gov in G0. apply (inj Some) in G0. apply map_Num_inj in G0.
  subst ks0.
  assert (Hin : In k ks) by now apply (group_keys_In pkeys ks k Hks0).
  apply (inbound_inv wh inb names wkeys cube Hn Hw Hc) in Hinb
    as (ki & Hki & ->).
  apply (outbound_inv wh outb names wkeys cube Hn Hw Hc) in Houtb
    as (ko & Hko & ->).
  apply (ppa_inv prod pp pkeys adher Hp Ha) in Hpp as (kp & Hkp & ->).
  change (get_col "round" _) with (Some (map Num ki)) in Gi.
  change (get_col "round" _) with (Some (map Num ko)) in Go.
  change (get_col "round" _) with (Some (map Num kp)) in Gp.
  apply (inj Some) in Gi. apply (inj Some) in Go. apply (inj Some) in Gp.
  subst ri ro rp.
  split; [|split].
  - apply (joined_cell ov ks ki
             (fun r => agg_mean
                (masked_group (contains_mask "raw materials" names)
                              wkeys (Num r) cube)) _ k Gov);
      [now apply Pi|now apply (group_keys_NoDup _ ki Hki)
      |now apply (masked_mean_absent _ wkeys ki)|exact Hin].
  - apply (joined_cell ov ks ko
             (fun r => agg_mean
                (masked_group (contains_mask "finished goods" names)
                              wkeys (Num r) cube)) _ k Gov);
      [now apply Po|now apply (group_keys_NoDup _ ko Hko)
      |now apply (masked_mean_absent _ wkeys ko)|exact Hin].
  - apply (joined_cell ov ks kp
             (fun r => agg_mean (group_of pkeys (Num r) adher)) _ k Gov);
      [now apply Pp|now apply (group_keys_NoDup _ kp Hkp)
      |now apply (group_mean_absent pkeys kp)|exact Hin].
Qed.

Lemma overview_operations_cells_witness :
  cell_at sample_overview (Q2Qc (inject_Z 3)) "inbound_util" = Some NA
  /\ cell_at sample_overview (Q2Qc (inject_Z 1)) "ppa"
     = Some (agg_mean [frac_cell 4 5; NA; int_cell 1]).
Proof.
  split.
  - apply (overview_operations_cells sample_product sample_component
             sample_warehouse sample_overview
             [Text "Raw materials warehouse"; Text "Finished goods warehouse";
              Text "Raw Materials Warehouse"; NA]
             [int_cell 1; int_cell 1; int_cell 2; int_cell 2]
             [frac_cell 4 5; NA; frac_cell 17 20; frac_cell 1 2]
             [int_cell 1; int_cell 1; int_cell 2; int_cell 1; int_cell 3]
             [frac_cell 4 5; NA; frac_cell 9 10; int_cell 1; NA]
             (Q2Qc (inject_Z 3)));
      first [reflexivity | right; right; right; right; left; reflexivity].
  - apply (overview_operations_cells sample_product sample_component
             sample_warehouse sample_overview
             [Text "Raw materials warehouse"; Text "Finished goods warehouse";
              Text "Raw Materials Warehouse"; NA]
             [int_cell 1; int_cell 1; int_cell 2; int_cell 2]
             [frac_cell 4 5; NA; frac_cell 17 20; frac_cell 1 2]
             [int_cell 1; int_cell 1; int_cell 2; int_cell 1; int_cell 3]
             [frac_cell 4 5; NA; frac_cell 9 10; int_cell 1; NA]
             (Q2Qc (inject_Z 1)));
      first [reflexivity | left; reflexivity].
Defined.


(** ** The sidebar: bounds, round filter and latest round *)

Lemma Qc_max_fold x l :
  is_max (fold_right Qc_max x l) (x :: l).
Proof.
  induction l as [|a l [Hin Hle]]; cbn [fold_right].
  - split; [now left|]. intros k [<-|[]]. apply Qcle_refl.
  - unfold Qc_max at 1. destruct (Qle_bool a (fold_right Qc_max x l)) eqn:E.
    + apply Qle_bool_iff in E. split.
      * destruct Hin as [Hin|Hin]; [now left|now right; right].
      * intros k [<-|[<-|Hk]]; [apply Hle; now left|exact E|].
        apply Hle. now right.
    + assert (Hlt : (fold_right Qc_max x l <= a)%Qc).
      { apply Qlt_le_weak, Qnot_le_lt. intros H.
        apply Qle_bool_iff in H. congruence. }
      split; [now right; left|].
      intros k [<-|[<-|Hk]].
      * eapply Qcle_trans; [apply Hle; now left|exact Hlt].
      * apply Qcle_refl.
      * eapply Qcle_trans; [apply Hle; now right|exact Hlt].
Qed.

Lemma Qc_min_fold x l :
  is_min (fold_right Qc_min x l) (x :: l).
Proof.
  induction l as [|a l [Hin Hle]]; cbn [fold_right].
  - split; [now left|]. intros k [<-|[]]. apply Qcle_refl.
  - unfold Qc_min at 1. destruct (Qle_bool a (fold_right Qc_min x l)) eqn:E.
    + apply Qle_bool_iff in E. split; [now right; left|].
      intros k [<-|[<-|Hk]].
      * eapply Qcle_trans; [exact E|apply Hle; now left].
      * apply Qcle_refl.
      * eapply Qcle_trans; [exact E|apply Hle; now right].
    + assert (Hlt : (fold_right Qc_min x l <= a)%Qc).
      { apply Qlt_le_weak, Qnot_le_lt. intros H.
        apply Qle_bool_iff in H. congruence. }
      split.
      * destruct Hin as [Hin|Hin]; [now left|now right; right].
      * intros k [<-|[<-|Hk]]; [apply Hle; now left|exact Hlt|].
        apply Hle. now right.
Qed.

Lemma series_max_rounds ks :
  series_max (map Num ks)
  = Some (match ks with
          | [] => NA
          | x :: l => Num (fold_right Qc_max x l)
          end).
Proof.
  unfold series_max. now rewrite numeric_map_Num, present_map_Num.
Qed.

Lemma series_min_rounds ks :
  series_min (map Num ks)
  = Some (match ks with
          | [] => NA
          | x :: l => Num (fold_right Qc_min x l)
          end).
Proof.
  unfold series_min. now rewrite numeric_map_Num, present_map_Num.
Qed.

Lemma this_of_int z : this (of_int z) = inject_Z z.
Proof.
  unfold of_int, Q2Qc. cbn [this]. apply Qred_identity.
  cbn [inject_Z Qnum Qden]. apply Z.gcd_1_r.
Qed.

Lemma trunc_of_int z : trunc (of_int z) = z.
Proof.
  unfold trunc. rewrite this_of_int. cbn [inject_Z Qnum Qden].
  apply Z.quot_1_r.
Qed.

Lemma is_max_unique a b ks : is_max a ks -> is_max b ks -> a = b.
Proof.
  intros [Ha Hla] [Hb Hlb]. apply Qcle_antisym; auto.
Qed.

Lemma is_min_unique a b ks : is_min a ks -> is_min b ks -> a = b.
Proof.
  intros [Ha Hla] [Hb Hlb]. apply Qcle_antisym; auto.
Qed.

Lemma in_range_iff sel k :
  in_range sel k = true
  <-> (of_int (fst sel) <= k)%Qc /\ (k <= of_int (snd sel))%Qc.
Proof.
  unfold in_range, Qcle. rewrite !this_of_int, andb_true_iff.
  now rewrite !Qle_bool_iff.
Qed.


(** X12.  The bounds of the round slider are the integer parts of the
    smallest and of the largest round of the overview, and the script
    raises at this line exactly when the overview has no row.  When
    every round is a whole number the bounds are rounds themselves and
    every round lies between them. *)
Theorem round_bounds_spec (df : DataFrame) (ks : list Qc) :
  get_col "round" df = Some (map Num ks) ->
  (round_bounds df = None <-> ks = [])
  /\ (forall lo hi, round_bounds df = Some (lo, hi) ->
        exists a b,
          is_min a ks /\ is_max b ks /\ lo = trunc a /\ hi = trunc b)
  /\ (forall lo hi, round_bounds df = Some (lo, hi) ->
        (forall k, In k ks -> exists z, k = of_int z) ->
        In (of_int lo) ks /\ In (of_int hi) ks
        /\ forallb (in_range (lo, hi)) ks = true).
Proof.
  intros Hr.
  assert (Hb : forall lo hi, round_bounds df = Some (lo, hi) ->
            exists a b,
              is_min a ks /\ is_max b ks /\ lo = trunc a /\ hi = trunc b).
  { intros lo hi H. unfold round_bounds in H. rewrite Hr in H.
    cbn [mbind option_bind] in H.
    rewrite series_min_rounds, series_max_rounds in H.
    destruct ks as [|x l]; [discriminate H|].
    cbn [mbind option_bind to_int] in H. injection H as <- <-.
    exists (fold_right Qc_min x l), (fold_right Qc_max x l).
    split; [apply Qc_min_fold|]. split; [apply Qc_max_fold|]. auto. }
  split; [|split; [exact Hb|]].
  - unfold round_bounds. rewrite Hr. cbn [mbind option_bind].
    rewrite series_min_rounds, series_max_rounds.
    destruct ks as [|x l]; [now split|].
    cbn [mbind option_bind to_int]. split; discriminate.
  - intros lo hi H Hw.
    destruct (Hb lo hi H) as (a & b & [Ha Hla] & [Hb' Hlb] & -> & ->).
    destruct (Hw a Ha) as (za & Ea). destruct (Hw b Hb') as (zb & Eb).
    rewrite Ea at 1. rewrite Eb at 1. rewrite !trunc_of_int.
    rewrite <- Ea, <- Eb. split; [exact Ha|]. split; [exact Hb'|].
    apply forallb_forall. intros k Hk. apply in_range_iff.
    cbn [fst snd]. rewrite Ea at 1. rewrite Eb at 1.
    rewrite !trunc_of_int, <- Ea, <- Eb. auto.
Qed.

Lemma round_bounds_spec_witness :
  exists a b,
    is_min a [of_int 1; of_int 2; of_int 3]
    /\ is_max b [of_int 1; of_int 2; of_int 3]
    /\ 1%Z = trunc a /\ 3%Z = trunc b.
Proof.
  destruct (round_bounds_spec sample_overview
              [of_int 1; of_int 2; of_int 3]) as (_ & H & _).
  - vm_compute. reflexivity.
  - apply (H 1%Z 3%Z). vm_compute. reflexivity.
Defined.

Lemma mapM_between_rounds sel ks :
  mapM (between (fst sel) (snd sel)) (map Num ks)
  = Some (map (in_range sel) ks).
Proof.
  induction ks as [|k ks IH]; [reflexivity|].
  cbn [map mapM]. rewrite IH. reflexivity.
Qed.

Lemma mask_rounds (f : Qc -> bool) ks :
  mask_series (map f ks) (map Num ks) = map Num (List.filter f ks).
Proof.
  induction ks as [|k ks IH]; [reflexivity|].
  cbn [map List.filter]. rewrite mask_series_cons.
  destruct (f k); cbn [map]; now rewrite IH.
Qed.

Lemma mask_all_true {A} (f : Qc -> bool) ks : forall s : list A,
  forallb f ks = true -> List.length s = List.length ks ->
  mask_series (map f ks) s = s.
Proof.
  induction ks as [|k ks IH]; intros [|x s] Hf Hl; try discriminate Hl;
    [reflexivity|].
  cbn [forallb] in Hf. apply andb_true_iff in Hf as [Hk Hf].
  cbn [map]. rewrite mask_series_cons, Hk. f_equal. apply IH; [exact Hf|].
  simpl in Hl. lia.
Qed.

(** A row that passes the filter is read from the slice as from the
    frame. *)
Lemma filtered_cell (f : Qc -> bool) k ks : f k = true -> forall vals : Series,
  (index_of (Num k) (mask_series (map f ks) (map Num ks))
     ≫= fun i => mask_series (map f ks) vals !! i)
  = (index_of (Num k) (map Num ks) ≫= fun i => vals !! i).
Proof.
  intros Hk. induction ks as [|k0 ks IH]; intros vals; [reflexivity|].
  destruct vals as [|v vals].
  { rewrite mask_series_nil_r.
    assert (Hn : forall x : option nat,
              x ≫= (fun i => (@nil cell) !! i) = None)
      by (intros [i|]; reflexivity).
    now rewrite !Hn. }
  cbn [map]. rewrite !mask_series_cons. cbn [index_of cell_eqb].
  destruct (Qc_eqb k k0) eqn:E.
  - apply Qc_eqb_eq in E. subst k0. rewrite Hk. cbn [index_of cell_eqb].
    assert (Qc_eqb k k = true) as -> by now apply Qc_eqb_eq.
    reflexivity.
  - destruct (f k0).
    + cbn [index_of cell_eqb]. rewrite E. specialize (IH vals).
      destruct (index_of _ (mask_series _ _));
        destruct (index_of _ (map _ _)); exact IH.
    + rewrite IH. now destruct (index_of _ (map _ _)).
Qed.

Lemma select_rows_all (f : Qc -> bool) ks (df : DataFrame) :
  forallb f ks = true -> rect (List.length ks) df ->
  select_rows (map f ks) df = df.
Proof.
  intros Ha Hrect. unfold select_rows. unfold rect in Hrect.
  induction Hrect as [|[n s] d Hs Hd IH]; [reflexivity|].
  cbn [map fst snd]. cbn [snd] in Hs.
  rewrite (mask_all_true _ ks s Ha Hs). f_equal. exact IH.
Qed.

Lemma slice_rounds_total l sel h df ks :
  h !! l = Some df -> get_col "round" df = Some (map Num ks) ->
  exists ov h', slice_rounds l sel h = Some (ov, h').
Proof.
  intros Hl Hr. unfold slice_rounds, bind, load, lift, alloc, copy, bind, load.
  rewrite Hl, Hr, mapM_between_rounds. rewrite lookup_insert_eq.
  unfold alloc. eauto.
Qed.

(** X13.  The round filter never raises on a frame whose rounds are
    numbers.  It puts the slice in a new object and leaves the overview
    as it is; the slice keeps the labels, holds the rows whose round
    lies in the selected range, in their order, with the cells they have
    in the overview, and is equal to the overview when every round lies
    in the range. *)
Theorem slice_rounds_rows
    (l : loc) (sel : Z * Z) (h : heap) (df : DataFrame) (ks : list Qc) :
  h !! l = Some df ->
  get_col "round" df = Some (map Num ks) ->
  exists ov h' s,
    slice_rounds l sel h = Some (ov, h')
    /\ h !! ov = None /\ h' !! l = Some df /\ h' !! ov = Some s
    /\ s = select_rows (map (in_range sel) ks) df
    /\ labels s = labels df
    /\ get_col "round" s = Some (map Num (List.filter (in_range sel) ks))
    /\ (forall k n, in_range sel k = true -> cell_at s k n = cell_at df k n)
    /\ (forallb (in_range sel) ks = true -> rect (List.length ks) df ->
        s = df).
Proof.
  intros Hl Hr.
  destruct (slice_rounds_total l sel h df ks Hl Hr) as (ov & h' & H).
  exists ov, h', (select_rows (map (in_range sel) ks) df).
  split; [exact H|].
  apply slice_rounds_inv in H as (df' & r & mask & Hl' & Hr' & Hm & Hn & Hs & U).
  rewrite Hl in Hl'. apply (inj Some) in Hl'. subst df'.
  rewrite Hr in Hr'. apply (inj Some) in Hr'. subst r.
  rewrite mapM_between_rounds in Hm. apply (inj Some) in Hm. subst mask.
  split; [exact Hn|]. split; [now apply U|]. split; [exact Hs|].
  split; [reflexivity|].
  split; [unfold select_rows, labels; rewrite map_map; reflexivity|].
  split; [|split].
  - unfold select_rows. rewrite get_col_map_series, Hr. cbn [fmap option_fmap option_map].
    now rewrite mask_rounds.
  - intros k n Hk. unfold cell_at, select_rows.
    rewrite !get_col_map_series, Hr. cbn [fmap option_fmap option_map mbind option_bind].
    destruct (get_col n df) as [vals|]; [|reflexivity].
    cbn [fmap option_fmap option_map mbind option_bind].
    now apply filtered_cell.
  - intros Ha Hrect. now apply select_rows_all.
Qed.

Lemma slice_rounds_rows_witness :
  exists ov h' s,
    slice_rounds 1%positive (1, 2)%Z sample_heap = Some (ov, h')
    /\ h' !! 1%positive = Some sample_overview
    /\ h' !! ov = Some s
    /\ get_col "round" s = Some [Num (of_int 1); Num (of_int 2)].
Proof.
  destruct (slice_rounds_rows 1%positive (1, 2)%Z sample_heap sample_overview
              [of_int 1; of_int 2; of_int 3])
    as (ov & h' & s & H1 & _ & H3 & H4 & _ & _ & H7 & _).
  - vm_compute. reflexivity.
  - vm_compute. reflexivity.
  - exists ov, h', s. exact (conj H1 (conj H3 (conj H4 H7))).
Defined.


Lemma head_group_of keys k : forall vals : Series,
  group_of keys k vals !! 0 = index_of k keys ≫= fun i => vals !! i.
Proof.
  unfold group_of. induction keys as [|c keys IH]; intros vals; [reflexivity|].
  destruct vals as [|v vals].
  { rewrite mask_series_nil_r. now destruct (index_of k (c :: keys)). }
  cbn [map index_of]. rewrite mask_series_cons.
  destruct (cell_eqb k c); [reflexivity|].
  rewrite IH. now destruct (index_of k keys).
Qed.

Lemma iloc_group_none k r (df : DataFrame) :
  index_of k r = None -> iloc 0 (select_rows (map (cell_eqb k) r) df) = None.
Proof.
  intros Hi. destruct df as [|[n s] df]; [reflexivity|].
  unfold iloc, select_rows. cbn [map fst snd mapM].
  fold (group_of r k s). now rewrite head_group_of, Hi.
Qed.

Lemma iloc_group k r i : forall df : DataFrame,
  index_of k r = Some i -> rect (List.length r) df -> df <> [] ->
  iloc 0 (select_rows (map (cell_eqb k) r) df)
  = Some (map (fun p => (fst p, default NA (snd p !! i))) df).
Proof.
  intros df Hi Hrect Hne.
  assert (Hlt : i < List.length r)
    by (apply index_of_Some in Hi; now apply lookup_lt_Some in Hi).
  assert (Hm : mapM (fun p : string * Series => c ← snd p !! 0; Some (fst p, c))
                 (select_rows (map (cell_eqb k) r) df)
               = Some (map (fun p => (fst p, default NA (snd p !! i))) df)).
  { clear Hne. unfold rect in Hrect.
    induction Hrect as [|[n s] d Hs Hd IH]; [reflexivity|].
    unfold select_rows in *. cbn [map fst snd mapM]. rewrite IH.
    fold (group_of r k s). rewrite head_group_of, Hi.
    cbn [mbind option_bind]. cbn [snd] in Hs.
    destruct (s !! i) as [c|] eqn:E; [reflexivity|].
    apply lookup_ge_None in E. lia. }
  destruct df as [|p df]; [now contradiction Hne|exact Hm].
Qed.

Lemma list_to_map_unique (l : list (string * cell)) n c :
  List.filter (fun p => String.eqb (fst p) n) l = [(n, c)] ->
  (list_to_map l : gmap string cell) !! n = Some c.
Proof.
  induction l as [|[k v] l IH]; [discriminate|].
  cbn [List.filter fst list_to_map foldr]. destruct (String.eqb_spec k n) as [->|Hne].
  - intros [= -> _]. apply lookup_insert_eq.
  - intros H. rewrite lookup_insert_ne by exact Hne. now apply IH.
Qed.

Lemma to_dict_lookup (g : string * Series -> cell) (df : DataFrame) n s :
  get_col n df = Some s ->
  to_dict (map (fun p => (fst p, g p)) df) !! n = Some (g (n, s)).
Proof.
  intros H. unfold to_dict. apply list_to_map_unique.
  rewrite List.filter_rev, List.filter_map_swap. cbn [fst].
  unfold get_col in H.
  destruct (List.filter (fun p => String.eqb (fst p) n) df)
    as [|[n' s'] [|q l]] eqn:E; try discriminate H.
  injection H as ->.
  assert (Hin : In (n', s) (List.filter (fun p => String.eqb (fst p) n) df))
    by (rewrite E; now left).
  apply filter_In in Hin as [_ Hn]. cbn [fst] in Hn.
  apply String.eqb_eq in Hn. subst n'. reflexivity.
Qed.

Lemma latest_max ov ks m :
  get_col "round" ov = Some (map Num ks) -> is_max m ks ->
  latest ov = Some (trunc m).
Proof.
  intros Hr Hm. unfold latest. rewrite Hr. cbn [mbind option_bind].
  rewrite series_max_rounds. destruct ks as [|x l]; [now destruct Hm|].
  cbn [mbind option_bind to_int].
  now rewrite (is_max_unique _ _ _ (Qc_max_fold x l) Hm).
Qed.

Lemma not_In_map_Num k ks : ~ In k ks -> ~ In (Num k) (map Num ks).
Proof.
  intros H Hin. apply in_map_iff in Hin as (k' & [= ->] & Hk). now apply H.
Qed.

(** X14.  The KPI cards read the first row of the slice whose round is
    the integer part of its largest round.  With no row in the selected
    range the script raises at line 246; when the largest round has a
    fraction, the row read is that of its integer part, and the script
    raises at line 247 when no row has that round. *)
Theorem ov_latest_row (ov : DataFrame) (ks : list Qc) (m : Qc) :
  get_col "round" ov = Some (map Num ks) ->
  rect (List.length ks) ov ->
  (ks = [] -> latest ov = None /\ ov_latest ov = None)
  /\ (is_max m ks ->
        latest ov = Some (trunc m)
        /\ (~ In (of_int (trunc m)) ks -> ov_latest ov = None)
        /\ (In (of_int (trunc m)) ks ->
              exists d,
                ov_latest ov = Some d
                /\ forall n s, get_col n ov = Some s ->
                     d !! n = cell_at ov (of_int (trunc m)) n)).
Proof.
  intros Hr Hrect. split.
  - intros ->. unfold ov_latest, latest. rewrite Hr. now cbn.
  - intros Hm. pose proof (latest_max ov ks m Hr Hm) as Hl.
    split; [exact Hl|]. unfold ov_latest. rewrite Hl, Hr.
    cbn [mbind option_bind]. split.
    + intros Hno. rewrite iloc_group_none; [reflexivity|].
      now apply index_of_None, not_In_map_Num.
    + intros Hin.
      destruct (index_of_map_Num ks _ Hin) as (i & Hi & Hk).
      rewrite (iloc_group _ _ i ov Hi);
        [|now rewrite length_map|intros ->; discriminate Hr].
      cbn [mbind option_bind]. eexists. split; [reflexivity|].
      intros n s Hs.
      rewrite (to_dict_lookup (fun p => default NA (snd p !! i)) ov n s Hs).
      unfold cell_at. rewrite Hr, Hs. cbn [mbind option_bind]. rewrite Hi.
      cbn [mbind option_bind snd].
      destruct (s !! i) as [c|] eqn:E; [reflexivity|].
      apply lookup_ge_None in E. apply lookup_lt_Some in Hk.
      unfold rect in Hrect. rewrite List.Forall_forall in Hrect.
      specialize (Hrect (n, s) (get_col_In _ _ _ Hs)). cbn [snd] in Hrect. lia.
Qed.

Lemma ov_latest_row_witness :
  latest sample_overview = Some 3%Z
  /\ exists d, ov_latest sample_overview = Some d.
Proof.
  destruct (ov_latest_row sample_overview [of_int 1; of_int 2; of_int 3]
              (of_int 3)) as (_ & H).
  - vm_compute. reflexivity.
  - unfold rect. vm_compute. repeat constructor.
  - destruct H as (H1 & _ & H3).
    + split; [right; right; left; reflexivity|].
      intros k [<-|[<-|[<-|[]]]]; vm_compute; discriminate.
    + split; [exact H1|].
      destruct H3 as (d & Hd & _); [right; right; left; reflexivity|].
      exists d. exact Hd.
Defined.


(** ** The export block on the overview of the script *)

Lemma get_col_NoDup n (df : DataFrame) :
  List.NoDup (labels df) -> In n (labels df) -> exists s, get_col n df = Some s.
Proof.
  induction df as [|[m s] df IH]; [easy|]. cbn [labels map fst].
  intros Hn Hin. inversion Hn as [|? ? Hm Hn']; subst.
  rewrite get_col_cons. destruct (String.eqb_spec m n) as [->|Hne].
  - destruct (has_label n df) eqn:E; [|eauto].
    apply has_label_In in E. contradiction.
  - destruct Hin as [->|Hin]; [congruence|]. now apply IH.
Qed.

Lemma has_numeric_col_frame n (df : DataFrame) :
  List.NoDup (labels df) -> In n (labels df) ->
  Forall (fun p => numeric (snd p) = true) df ->
  has_numeric_col df n = true.
Proof.
  intros Hn Hin Hf. destruct (get_col_NoDup n df Hn Hin) as (s & Hs).
  unfold has_numeric_col. rewrite Hs.
  rewrite List.Forall_forall in Hf.
  exact (Hf (n, s) (get_col_In _ _ _ Hs)).
Qed.

Lemma has_numeric_col_inv df n :
  has_numeric_col df n = true ->
  exists s, get_col n df = Some s /\ numeric s = true.
Proof.
  unfold has_numeric_col. destruct (get_col n df) as [s|]; [eauto|discriminate].
Qed.

Lemma select_cols_total cols df :
  (forall c, In c cols -> is_Some (get_col c df)) ->
  is_Some (select_cols cols df).
Proof.
  intros H. unfold select_cols. apply mapM_is_Some.
  apply List.Forall_forall. intros c Hc. destruct (H c Hc) as (s & Hs).
  cbn. rewrite Hs. now cbn.
Qed.

Lemma scale_pct_total s : numeric s = true -> is_Some (mapM scale_pct s).
Proof.
  intros H. apply mapM_is_Some. apply List.Forall_forall. intros c Hc.
  unfold numeric in H. rewrite forallb_forall in H. specialize (H c Hc).
  destruct c; cbn; [eauto|eauto|discriminate H].
Qed.

Lemma rescale_all_total cols :
  List.NoDup cols -> forall df,
  (forall c, In c cols -> has_numeric_col df c = true) ->
  is_Some (rescale_all cols df).
Proof.
  induction 1 as [|c cols Hc Hn IH]; intros df Hdf; [now eexists|].
  cbn [rescale_all]. unfold rescale_frame.
  destruct (has_numeric_col_inv df c (Hdf c ltac:(now left))) as (s & Hs & Hnum).
  destruct (scale_pct_total s Hnum) as (s' & Hs').
  rewrite Hs. cbn [mbind option_bind]. rewrite Hs'. cbn [mbind option_bind].
  apply IH. intros c' Hc'. unfold has_numeric_col.
  rewrite get_col_setitem_ne by (intros ->; contradiction).
  apply Hdf. now right.
Qed.

Lemma for_each_rescale_total tidy cols : forall (h : heap) df df',
  h !! tidy = Some df -> rescale_all cols df = Some df' ->
  for_each cols (rescale tidy) h = Some (tt, <[tidy := df']> h).
Proof.
  induction cols as [|c cols IH]; intros h df df' Hd H.
  - injection H as <-. cbn [for_each]. unfold ret. now rewrite insert_id.
  - cbn [rescale_all] in H. apply bind_Some in H as (df1 & H1 & H).
    cbn [for_each]. unfold bind at 1.
    assert (Hr : rescale tidy c h = Some (tt, <[tidy := df1]> h)).
    { unfold rescale_frame in H1.
      apply bind_Some in H1 as (s & Hs & H1).
      apply bind_Some in H1 as (s' & Hs' & H1). injection H1 as <-.
      unfold rescale, bind, load, lift, store. now rewrite Hd, Hs, Hs', Hd. }
    rewrite Hr. rewrite (IH _ df1 df' (lookup_insert_eq _ _ _) H).
    now rewrite insert_insert_eq.
Qed.

Lemma export_block_total ov (h : heap) df :
  h !! ov = Some df ->
  (forall c, In c show_cols -> has_numeric_col df c = true) ->
  exists tidy h', export_block ov h = Some (tidy, h').
Proof.
  intros Hl Hc.
  destruct (select_cols_total show_cols df) as (sel & Hsel).
  { intros c Hin. destruct (has_numeric_col_inv df c (Hc c Hin)) as (s & -> & _).
    now eexists. }
  pose proof (select_cols_inv _ _ _ Hsel) as [Ls Gs].
  destruct (rescale_all_total pct_cols NoDup_pct_cols sel) as (out & Hout).
  { intros c Hin. apply pct_cols_shown in Hin. unfold has_numeric_col.
    rewrite (Gs NoDup_show_cols c Hin). now apply Hc. }
  unfold export_block, bind at 1, load. rewrite Hl.
  unfold bind at 1, lift. rewrite Hsel.
  unfold bind at 1, alloc. unfold bind at 1, copy, bind at 1, load.
  rewrite lookup_insert_eq. unfold alloc at 1. unfold bind at 1.
  erewrite for_each_rescale_total; [|apply lookup_insert_eq|exact Hout].
  unfold ret. eauto.
Qed.


Lemma overview_shown_numeric prod comp wh o c :
  overview prod comp wh = Some o -> In c show_cols ->
  has_numeric_col o c = true.
Proof.
  intros H Hc.
  destruct (overview_cols prod comp wh o H)
    as (pa & ca & inb & outb & pp & ks & rc & ri & ro & rp & _ & _ & _ & _
        & _ & _ & _ & _ & _ & _ & _ & _ & _ & Fo & Lo & _).
  apply has_numeric_col_frame; [| |exact Fo]; rewrite Lo.
  - repeat (constructor; [simpl; intros E;
                          repeat (destruct E as [E|E]; [discriminate E|]);
                          exact E|]).
    constructor.
  - unfold show_cols in Hc. simpl in Hc. simpl.
    repeat (destruct Hc as [<-|Hc]; [tauto|]). destruct Hc.
Qed.

(** X15.  On the overview that the script builds, the round filter and
    the export block never raise, whatever range is selected: every
    column that the export names is a column of the overview and holds
    no text.  The exported table has the twelve export columns, its
    rounds are the selected rounds of the overview in their order, and
    the overview itself is left as it was. *)
Theorem export_after_filter_total
    (prod comp wh o : DataFrame) (l : loc) (sel : Z * Z) (h : heap) :
  overview prod comp wh = Some o ->
  h !! l = Some o ->
  exists ks ov h1 tidy h2 tdf,
    get_col "round" o = Some (map Num ks)
    /\ slice_rounds l sel h = Some (ov, h1)
    /\ export_block ov h1 = Some (tidy, h2)
    /\ h2 !! tidy = Some tdf
    /\ h2 !! l = Some o
    /\ labels tdf = show_cols
    /\ get_col "round" tdf = Some (map Num (List.filter (in_range sel) ks)).
Proof.
  intros H Hl.
  destruct (overview_cols prod comp wh o H)
    as (pa & ca & inb & outb & pp & ks & rc & ri & ro & rp & _ & _ & _ & _
        & _ & _ & _ & Gov & _).
  destruct (slice_rounds_rows l sel h o ks Hl Gov)
    as (ov & h1 & s & Hs & Hn & Hl1 & Hov & Es & Ls & Gs & _).
  destruct (export_block_total ov h1 s Hov) as (tidy & h2 & He).
  { intros c Hc. subst s. apply select_rows_numeric_col.
    now apply (overview_shown_numeric prod comp wh). }
  exists ks, ov, h1, tidy, h2.
  pose proof He as He'.
  apply export_block_inv in He' as (df & sl & out & Hd & Hsel & Hout & Ht & Ho & U).
  rewrite Hov in Hd. apply (inj Some) in Hd. subst df.
  exists out. split; [exact Gov|]. split; [exact Hs|]. split; [exact He|].
  split; [exact Ho|]. split; [now apply U|].
  apply select_cols_inv in Hsel as [Lsl Gsl].
  apply (rescale_all_spec pct_cols NoDup_pct_cols) in Hout as (Lo & _ & Oo).
  split; [congruence|].
  rewrite Oo.
  - rewrite (Gsl NoDup_show_cols "round"); [exact Gs|now left].
  - unfold pct_cols. simpl. intros E.
    repeat (destruct E as [E|E]; [discriminate E|]). exact E.
Qed.

Lemma export_after_filter_total_witness :
  exists ks ov h1 tidy h2,
    get_col "round" sample_overview = Some (map Num ks)
    /\ slice_rounds 1%positive (2, 3)%Z sample_heap = Some (ov, h1)
    /\ export_block ov h1 = Some (tidy, h2).
Proof.
  destruct (export_after_filter_total sample_product sample_component
              sample_warehouse sample_overview 1%positive (2, 3)%Z sample_heap)
    as (ks & ov & h1 & tidy & h2 & tdf & H1 & H2 & H3 & _).
  - vm_compute. reflexivity.
  - vm_compute. reflexivity.
  - exists ks, ov, h1, tidy, h2. exact (conj H1 (conj H2 H3)).
Defined.


(** ** Charts *)

Lemma scatter_is_Some df x col ax :
  is_Some (scatter df x col ax)
  <-> is_Some (get_col x df) /\ is_Some (get_col col df).
Proof.
  unfold scatter. destruct (get_col x df) as [xs|]; cbn.
  - destruct (get_col col df) as [ys|]; cbn.
    + split; [intros _; split; eauto|eauto].
    + split; [intros [? H]; discriminate H|intros [_ [? H]]; discriminate H].
  - split; [intros [? H]; discriminate H|intros [[? H] _]; discriminate H].
Qed.

Lemma mapM_scatter_is_Some df x ax cols :
  is_Some (mapM (fun col => scatter df x col ax) cols)
  <-> forall c, In c cols ->
        is_Some (get_col x df) /\ is_Some (get_col c df).
Proof.
  rewrite mapM_is_Some, List.Forall_forall. split.
  - intros H c Hc. apply (scatter_is_Some df x c ax). exact (H c Hc).
  - intros H c Hc. apply scatter_is_Some. exact (H c Hc).
Qed.

Lemma mapM_scatter_Some df x ax cols ts :
  mapM (fun col => scatter df x col ax) cols = Some ts ->
  map trace_name ts = cols
  /\ map trace_axis ts = repeat ax (List.length cols)
  /\ (forall tr, In tr ts ->
        get_col x df = Some (trace_x tr)
        /\ get_col (trace_name tr) df = Some (trace_y tr)).
Proof.
  intros H. apply mapM_Some in H.
  induction H as [|c tr cols ts Hc H IH]; [now repeat split|].
  destruct IH as (I1 & I2 & I3).
  unfold scatter in Hc. apply bind_Some in Hc as (xs & Hx & Hc).
  apply bind_Some in Hc as (ys & Hy & Hc). injection Hc as <-.
  cbn [map trace_name trace_axis List.length repeat].
  split; [now f_equal|]. split; [now f_equal|].
  intros tr [<-|Hin]; [now split|now apply I3].
Qed.

Lemma line_chart_single df x col t yt sec :
  line_chart df x (inl col) t yt sec = line_chart df x (inr [col]) t yt sec.
Proof.
  unfold line_chart. cbn [mapM]. destruct (scatter df x col Y1); reflexivity.
Qed.

Lemma line_chart_list_is_Some df x cols t yt sec :
  is_Some (line_chart df x (inr cols) t yt sec)
  <-> forall c, In c (cols ++ default [] sec) ->
        is_Some (get_col x df) /\ is_Some (get_col c df).
Proof.
  unfold line_chart.
  split.
  + intros [fig H]. apply bind_Some in H as (t1 & H1 & H).
    intros c Hc. apply in_app_iff in Hc as [Hc|Hc].
    * apply (proj1 (mapM_scatter_is_Some df x Y1 cols)); [eauto|exact Hc].
    * destruct sec as [[|c0 cs]|]; cbn [default from_option id] in Hc; try easy.
      apply bind_Some in H as (t2 & H2 & _).
      apply (proj1 (mapM_scatter_is_Some df x Y2 (c0 :: cs))); [eauto|exact Hc].
  + intros Hall.
    destruct (proj2 (mapM_scatter_is_Some df x Y1 cols)) as (t1 & ->).
    { intros c Hc. apply Hall, in_app_iff. now left. }
    cbn [mbind option_bind]. destruct sec as [[|c0 cs]|]; try (now eexists).
    destruct (proj2 (mapM_scatter_is_Some df x Y2 (c0 :: cs))) as (t2 & ->).
    { intros c Hc. apply Hall, in_app_iff. now right. }
    now eexists.
Qed.

Lemma line_chart_list_Some df x cols t yt sec fig :
  line_chart df x (inr cols) t yt sec = Some fig ->
  map trace_name (traces fig) = cols ++ default [] sec
  /\ map trace_axis (traces fig)
     = repeat Y1 (List.length cols)
       ++ repeat Y2 (List.length (default [] sec))
  /\ (forall tr, In tr (traces fig) ->
        get_col x df = Some (trace_x tr)
        /\ get_col (trace_name tr) df = Some (trace_y tr))
  /\ (yaxis2_title fig = None <-> default [] sec = []).
Proof.
  unfold line_chart.
  intros H. apply bind_Some in H as (t1 & H1 & H).
  apply mapM_scatter_Some in H1 as (N1 & A1 & X1).
  destruct sec as [[|c cs]|]; cbn [default from_option id List.length repeat] in *.
  + injection H as <-. cbn [traces yaxis2_title].
    rewrite !app_nil_r.
    split; [exact N1|]. split; [exact A1|]. split; [exact X1|now split].
  + apply bind_Some in H as (t2 & H2 & H).
    apply mapM_scatter_Some in H2 as (N2 & A2 & X2).
    injection H as <-. cbn [traces yaxis2_title].
    rewrite !map_app, N1, N2, A1, A2.
    split; [reflexivity|]. split; [reflexivity|]. split.
    * intros tr Hin. apply in_app_iff in Hin as [Hin|Hin]; auto.
    * split; discriminate.
  + injection H as <-. cbn [traces yaxis2_title].
    rewrite !app_nil_r.
    split; [exact N1|]. split; [exact A1|]. split; [exact X1|now split].
Qed.

(** X16.  [line_chart] raises exactly when the label [x] or one of the
    labels it is asked to trace is not a column of the frame.  Otherwise
    the figure has one trace per label of [y], on the first axis,
    followed by one trace per label of [secondary_y], on the second:
    each trace has the column [x] as abscissa and its own column as
    ordinate, and a label given in both lists is traced twice.  A single
    label for [y] is the list of that label, and the second axis exists
    only when [secondary_y] has a label. *)
Theorem line_chart_traces
    (df : DataFrame) (x : string) (y : string + list string)
    (t yt : option string) (sec : option (list string)) :
  (is_Some (line_chart df x y t yt sec)
   <-> forall c, In c (traced y sec) ->
         is_Some (get_col x df) /\ is_Some (get_col c df))
  /\ (forall fig, line_chart df x y t yt sec = Some fig ->
        map trace_name (traces fig) = traced y sec
        /\ map trace_axis (traces fig)
           = repeat Y1 (List.length (y_labels y))
             ++ repeat Y2 (List.length (default [] sec))
        /\ (forall tr, In tr (traces fig) ->
              get_col x df = Some (trace_x tr)
              /\ get_col (trace_name tr) df = Some (trace_y tr))
        /\ (yaxis2_title fig = None <-> default [] sec = [])).
Proof.
  assert (Hy : line_chart df x y t yt sec
               = line_chart df x (inr (y_labels y)) t yt sec)
    by (destruct y; [apply line_chart_single|reflexivity]).
  rewrite Hy. unfold traced. split.
  - apply line_chart_list_is_Some.
  - intros fig. apply line_chart_list_Some.
Qed.

Lemma line_chart_traces_witness :
  exists fig,
    line_chart sample_overview "round"
      (inr ["component_availability_pct_avg"; "realized_revenue"])
      (Some "Availability vs Revenue") (Some "") (Some ["realized_revenue"])
    = Some fig
    /\ map trace_name (traces fig)
       = ["component_availability_pct_avg"; "realized_revenue";
          "realized_revenue"]
    /\ map trace_axis (traces fig) = [Y1; Y1; Y2].
Proof.
  destruct (line_chart_traces sample_overview "round"
              (inr ["component_availability_pct_avg"; "realized_revenue"])
              (Some "Availability vs Revenue") (Some "")
              (Some ["realized_revenue"])) as [H1 H2].
  destruct (proj2 H1) as (fig & Hf).
  - intros c [<-|[<-|[<-|[]]]]; split; vm_compute; eauto.
  - exists fig. destruct (H2 fig Hf) as (N & A & _).
    exact (conj Hf (conj N A)).
Defined.


Lemma bar_line_combo_is_Some df x b l t y1 y2 :
  is_Some (get_col x df) -> is_Some (get_col b df) -> is_Some (get_col l df) ->
  exists fig,
    bar_line_combo df x b l t y1 y2 = Some fig
    /\ map trace_name (traces fig) = [b; l]
    /\ (forall tr, In tr (traces fig) ->
          get_col x df = Some (trace_x tr)
          /\ get_col (trace_name tr) df = Some (trace_y tr)).
Proof.
  intros (xs & Hx) (bs & Hb) (ls & Hl). unfold bar_line_combo.
  rewrite Hx, Hb, Hl. cbn [mbind option_bind]. eexists. split; [reflexivity|].
  cbn [traces map trace_name]. split; [reflexivity|].
  intros tr [<-|[<-|[]]]; now split.
Qed.

Lemma draw_total df c :
  (forall n, In n ("round" :: chart_labels c) -> is_Some (get_col n df)) ->
  exists fig,
    draw df c = Some fig
    /\ map trace_name (traces fig) = chart_labels c
    /\ (forall tr, In tr (traces fig) ->
          get_col "round" df = Some (trace_x tr)
          /\ get_col (trace_name tr) df = Some (trace_y tr)).
Proof.
  intros H. destruct c as [y t yt sec|b l t y1 y2]; cbn [draw chart_labels] in *.
  - destruct (proj2 (line_chart_list_is_Some df "round" y (Some t) (Some yt) sec))
      as (fig & Hf).
    { intros c Hc. split; apply H; [now left|now right]. }
    exists fig. split; [exact Hf|].
    apply line_chart_list_Some in Hf as (N & _ & X & _). now split.
  - apply bar_line_combo_is_Some; apply H; cbn; auto.
Qed.

Lemma overview_has_cols prod comp wh o n :
  overview prod comp wh = Some o ->
  In n [ "round"; "avg_service_pct"; "fg_stock_weeks_avg";
         "mape_pct"; "product_obsol_pct_avg"; "realized_revenue";
         "gross_margin_per_week"; "cogs";
         "component_availability_pct_avg"; "component_stock_weeks_avg";
         "component_obsolescence_pct_avg";
         "component_delivery_reliability_pct_avg";
         "inbound_util"; "outbound_util"; "ppa" ] ->
  is_Some (get_col n o).
Proof.
  intros H Hn.
  destruct (overview_cols prod comp wh o H)
    as (pa & ca & inb & outb & pp & ks & rc & ri & ro & rp & _ & _ & _ & _
        & _ & _ & _ & _ & _ & _ & _ & _ & _ & _ & Lo & _).
  apply get_col_NoDup; rewrite Lo; [|exact Hn].
  repeat (constructor; [simpl; intros E;
                        repeat (destruct E as [E|E]; [discriminate E|]);
                        exact E|]).
  constructor.
Qed.

(** X17.  Every chart that the dashboard draws from the overview names
    columns that the overview has: on the overview that the script
    builds, filtered by any mask, none of the seventeen calls raises.
    The traces of a chart carry the labels of its call, in order, and
    each plots a column of the overview against its rounds, both
    restricted to the selected rows. *)
Theorem overview_charts_drawn
    (prod comp wh o : DataFrame) (mask : list bool) (c : chart) :
  overview prod comp wh = Some o ->
  In c overview_charts ->
  exists fig,
    draw (select_rows mask o) c = Some fig
    /\ map trace_name (traces fig) = chart_labels c
    /\ (forall tr, In tr (traces fig) ->
          exists rs s,
            get_col "round" o = Some rs
            /\ get_col (trace_name tr) o = Some s
            /\ trace_x tr = mask_series mask rs
            /\ trace_y tr = mask_series mask s).
Proof.
  intros H Hc.
  assert (Hall : forallb
            (fun c => forallb
               (fun n => existsb (String.eqb n)
                  [ "round"; "avg_service_pct"; "fg_stock_weeks_avg";
                    "mape_pct"; "product_obsol_pct_avg"; "realized_revenue";
                    "gross_margin_per_week"; "cogs";
                    "component_availability_pct_avg";
                    "component_stock_weeks_avg";
                    "component_obsolescence_pct_avg";
                    "component_delivery_reliability_pct_avg";
                    "inbound_util"; "outbound_util"; "ppa" ])
               ("round" :: chart_labels c)) overview_charts = true)
    by (vm_compute; reflexivity).
  rewrite forallb_forall in Hall. specialize (Hall c Hc).
  rewrite forallb_forall in Hall.
  destruct (draw_total (select_rows mask o) c) as (fig & Hf & N & X).
  { intros n Hn. specialize (Hall n Hn). apply existsb_exists in Hall as (m & Hm & E).
    apply String.eqb_eq in E. subst m.
    destruct (overview_has_cols prod comp wh o n H Hm) as (s & Hs).
    unfold select_rows. rewrite get_col_map_series, Hs. now eexists. }
  exists fig. split; [exact Hf|]. split; [exact N|].
  intros tr Hin. destruct (X tr Hin) as [Hx Hy].
  unfold select_rows in Hx, Hy. rewrite get_col_map_series in Hx, Hy.
  apply fmap_Some in Hx as (rs & Hrs & ->).
  apply fmap_Some in Hy as (s & Hs & ->).
  now exists rs, s.
Qed.

Lemma overview_charts_drawn_witness :
  exists fig,
    draw (select_rows [true; false; true] sample_overview)
      (BarLine "realized_revenue" "cogs"
         "Financials: Revenue (bars) vs COGS (line)" "Revenue" "COGS")
    = Some fig
    /\ map trace_name (traces fig) = ["realized_revenue"; "cogs"].
Proof.
  destruct (overview_charts_drawn sample_product sample_component
              sample_warehouse sample_overview [true; false; true]
              (BarLine "realized_revenue" "cogs"
                 "Financials: Revenue (bars) vs COGS (line)" "Revenue" "COGS"))
    as (fig & Hf & N & _).
  - vm_compute. reflexivity.
  - right. left. reflexivity.
  - exists fig. exact (conj Hf N).
Defined.


(** ** The component tabs and the Vitamin-C chart *)

Lemma sort_uniq_nil_inv {A} (cmp : A -> A -> comparison) (l : list A) :
  (forall x y, cmp x y = Eq <-> x = y) -> sort_uniq cmp l = [] -> l = [].
Proof.
  intros Heq H. destruct l as [|x l]; [reflexivity|].
  assert (Hin : In x (sort_uniq cmp (x :: l)))
    by (apply (sort_uniq_In cmp Heq); now left).
  rewrite H in Hin. destruct Hin.
Qed.

Lemma In_take {A} (x : A) n l : In x (take n l) -> In x l.
Proof.
  revert l. induction n as [|n IH]; intros [|y l]; simpl; try tauto.
  intros [->|H]; [now left|right; now apply IH].
Qed.

Lemma filter_not_round cidx :
  ~ In "round" cidx ->
  List.filter (fun c => negb (String.eqb c "round")) cidx = cidx.
Proof.
  induction cidx as [|c cidx IH]; [reflexivity|]. intros H.
  cbn [List.filter]. destruct (String.eqb_spec c "round") as [->|_].
  - exfalso. apply H. now left.
  - cbn [negb]. f_equal. apply IH. intros Hin. apply H. now right.
Qed.

(** The frame of a pivot by round and component. *)
Lemma pivot_frame df values r c v pv :
  get_col "round" df = Some r -> get_col "component" df = Some c ->
  get_col values df = Some v ->
  pivot_table df "round" "component" values = Some pv ->
  exists ridx cidx cols,
    pv = ("round", map Num ridx) :: cols
    /\ labels cols = cidx
    /\ List.NoDup cidx /\ ~ In "round" cidx
    /\ (ridx = [] -> cidx = [])
    /\ get_col "round" pv = Some (map Num ridx)
    /\ (forall cn, In cn cidx -> is_Some (get_col cn pv))
    /\ (forall cn, In cn cidx <->
          exists i rk x, r !! i = Some (Num rk) /\ c !! i = Some (Text cn)
                         /\ v !! i = Some (Num x)).
Proof.
  intros Hr Hc Hv H.
  apply pivot_table_inv in H as (r' & c' & v' & Hr' & Hc' & Hv' & Hni & ->).
  rewrite Hr in Hr'. rewrite Hc in Hc'. rewrite Hv in Hv'.
  injection Hr' as <-. injection Hc' as <-. injection Hv' as <-.
  set (live := pivot_live r c v (combine r (combine c v))) in *.
  set (ridx := sort_uniq Qccompare (map fst live)) in *.
  set (cidx := sort_uniq String.compare (map snd live)) in *.
  set (cols := map (fun cn => (cn, map (fun rk => agg_mean (pivot_group r c v rk cn)) ridx)) cidx).
  assert (Nc : List.NoDup cidx).
  { apply sort_uniq_NoDup;
      [apply string_compare_eq|apply string_compare_gt|apply string_compare_trans]. }
  assert (Lp : labels cols = cidx).
  { unfold cols, labels. rewrite map_map. cbn [fst]. apply map_id. }
  assert (Gr : get_col "round" (("round", map Num ridx) :: cols)
               = Some (map Num ridx)).
  { rewrite get_col_cons, String.eqb_refl.
    destruct (has_label "round" cols) eqn:E; [|reflexivity].
    apply has_label_In in E. rewrite Lp in E. tauto. }
  exists ridx, cidx, cols.
  split; [reflexivity|]. split; [exact Lp|]. split; [exact Nc|].
  split; [exact Hni|]. split; [|split; [exact Gr|split]].
  - intros E. apply (sort_uniq_nil_inv Qccompare _ Qccompare_eq) in E.
    apply map_eq_nil in E. unfold cidx. now rewrite E.
  - intros cn Hcn. rewrite get_col_cons.
    destruct (String.eqb_spec "round" cn) as [<-|_]; [tauto|].
    unfold cols.
    rewrite (get_col_tabulate
               (fun cn => map (fun rk => agg_mean (pivot_group r c v rk cn)) ridx)
               cidx cn Nc Hcn).
    now eexists.
  - intros cn. unfold cidx. rewrite sort_uniq_In by apply string_compare_eq.
    rewrite in_map_snd. split.
    + intros (rk & Hin). apply pivot_live_rows in Hin as (i & x & ?).
      now exists i, rk, x.
    + intros (i & rk & x & ?). exists rk. apply pivot_live_rows. now exists i, x.
Qed.

Lemma single_chart_is_Some df cn t yt :
  is_Some (line_chart df "round" (inr [cn]) t yt None)
  <-> is_Some (get_col "round" df) /\ is_Some (get_col cn df).
Proof.
  rewrite line_chart_list_is_Some. cbn [default from_option id app]. split.
  - intros H. apply H. now left.
  - intros H c [<-|[]]. exact H.
Qed.

(** X18.  The component tabs are drawn for the first three components,
    in name order, that have a stock value in some round.  Their
    stock-weeks charts never raise, but the availability charts read the
    same components from the availability pivot: the block raises
    exactly when one of these components has no availability value in
    any round. *)
Theorem component_tabs_spec
    (comp wp ap : DataFrame) (r c w a : Series) :
  get_col "round" comp = Some r ->
  get_col "component" comp = Some c ->
  get_col "stock_(weeks)" comp = Some w ->
  get_col "component_availability_(%)" comp = Some a ->
  weeks_pivot comp = Some wp ->
  avail_pivot comp = Some ap ->
  List.NoDup (comp_list wp)
  /\ (forall cn, In cn (comp_list wp) <->
        exists i rk x, r !! i = Some (Num rk) /\ c !! i = Some (Text cn)
                       /\ w !! i = Some (Num x))
  /\ (is_Some (component_tabs wp ap) <->
        forall cn, In cn (take 3 (comp_list wp)) ->
          exists i rk x, r !! i = Some (Num rk) /\ c !! i = Some (Text cn)
                         /\ a !! i = Some (Num x)).
Proof.
  intros Hr Hc Hw Ha Hwp Hap.
  destruct (pivot_frame comp _ r c w wp Hr Hc Hw Hwp)
    as (ridx & cidx & cols & -> & Lc & Nc & Rc & Ec & Gr & Gc & Cc).
  destruct (pivot_frame comp _ r c a ap Hr Hc Ha Hap)
    as (ridx' & aidx & cols' & -> & La & Na & Ra & Ea & Gr' & Ga & Ca).
  assert (Hcl : comp_list (("round", map Num ridx) :: cols) = cidx).
  { unfold comp_list. cbn [labels map fst]. fold (labels cols). rewrite Lc.
    cbn [List.filter]. rewrite String.eqb_refl. cbn [negb].
    now apply filter_not_round. }
  rewrite Hcl. split; [exact Nc|]. split; [exact Cc|].
  unfold component_tabs. rewrite Hcl. cbn [frame_empty].
  destruct (Nat.eqb_spec (List.length (map Num ridx)) 0) as [E|E].
  - rewrite length_map in E. apply length_zero_iff_nil in E.
    rewrite (Ec E). split; [intros _ cn []|intros _; now eexists].
  - destruct (proj2 (mapM_is_Some
                (fun cn => line_chart (("round", map Num ridx) :: cols) "round"
                             (inr [cn])
                             (Some (String.append cn " — Weeks of Stock"))
                             (Some "Weeks") None)
                (take 3 cidx))) as (f1 & ->).
    { apply List.Forall_forall. intros cn Hcn. apply In_take in Hcn.
      apply single_chart_is_Some. split; [rewrite Gr; now eexists|now apply Gc]. }
    cbn [mbind option_bind]. split.
    + intros (res & H) cn Hcn. apply bind_Some in H as (f2 & H2 & _).
      assert (S2 : is_Some (mapM
                (fun cn => line_chart (("round", map Num ridx') :: cols') "round"
                             (inr [cn])
                             (Some (String.append cn " — Availability %"))
                             (Some "%") None) (take 3 cidx))) by eauto.
      rewrite mapM_is_Some, List.Forall_forall in S2.
      specialize (S2 cn Hcn). apply single_chart_is_Some in S2 as [_ (s & Hs)].
      apply Ca. apply get_col_has_label, has_label_In in Hs.
      cbn [labels map fst] in Hs. fold (labels cols') in Hs. rewrite La in Hs.
      destruct Hs as [<-|Hs]; [|exact Hs].
      exfalso. apply Rc. now apply In_take in Hcn.
    + intros Hall.
      destruct (proj2 (mapM_is_Some
                (fun cn => line_chart (("round", map Num ridx') :: cols') "round"
                             (inr [cn])
                             (Some (String.append cn " — Availability %"))
                             (Some "%") None)
                (take 3 cidx))) as (f2 & ->); [|now eexists].
      apply List.Forall_forall. intros cn Hcn.
      apply single_chart_is_Some. split; [rewrite Gr'; now eexists|].
      apply Ga, Ca, Hall, Hcn.
Qed.


Lemma component_tabs_spec_witness :
  List.NoDup (comp_list (default [] (weeks_pivot pulp_components)))
  /\ ~ is_Some (component_tabs (default [] (weeks_pivot pulp_components))
                               (default [] (avail_pivot pulp_components))).
Proof.
  assert (Hw : weeks_pivot pulp_components
               = Some (default [] (weeks_pivot pulp_components)))
    by (vm_compute; reflexivity).
  assert (Ha : avail_pivot pulp_components
               = Some (default [] (avail_pivot pulp_components)))
    by (vm_compute; reflexivity).
  destruct (component_tabs_spec pulp_components _ _
              [int_cell 1; int_cell 1; int_cell 2; int_cell 2]
              [Text "Orange Pulp"; Text "Vitamin C"; Text "Orange Pulp";
               Text "Vitamin C"]
              [int_cell 2; int_cell 3; int_cell 4; int_cell 5]
              [NA; frac_cell 9 10; NA; frac_cell 19 20]
              eq_refl eq_refl eq_refl eq_refl Hw Ha) as (H1 & _ & H3).
  split; [exact H1|]. intros HS.
  destruct (proj1 H3 HS "Orange Pulp") as (i & rk & x & _ & Hc & Hx).
  - vm_compute. left. reflexivity.
  - destruct i as [|[|[|[|i]]]]; cbn in Hc, Hx; discriminate.
Defined.

(** X19.  The Vitamin-C chart never raises on the table of line 212: it
    is skipped when the table has no row, and otherwise it has a single
    trace, the mean obsolescence against the rounds of the table. *)
Theorem vitc_chart_drawn (comp vo : DataFrame) :
  vitc_obsol comp = Some vo ->
  exists res xs ys,
    vitc_chart vo = Some res
    /\ get_col "round" vo = Some xs
    /\ get_col "obsoletes_(%)" vo = Some ys
    /\ (res = None <-> xs = [])
    /\ (forall fig, res = Some fig ->
          traces fig = [Scatter xs ys "obsoletes_(%)" Y1]).
Proof.
  intros H. unfold vitc_obsol in H. apply bind_Some in H as (v & _ & H).
  apply groupby_mean_inv in H as (keys & ks & vals & _ & _ & _ & ->).
  unfold vitc_chart. cbn [frame_empty]. rewrite length_map.
  destruct ks as [|k ks].
  - exists None, [], (agg_series Mean keys [] vals).
    cbn. repeat split; try reflexivity. intros fig E. discriminate E.
  - eexists _, (map Num (k :: ks)), (agg_series Mean keys (k :: ks) vals).
    cbn [List.length Nat.eqb]. split; [reflexivity|].
    split; [reflexivity|]. split; [reflexivity|]. split.
    + split; [intros E; discriminate E|intros E; discriminate E].
    + intros fig E. injection E as <-. reflexivity.
Qed.

Lemma vitc_chart_drawn_witness :
  exists res xs ys,
    vitc_chart (default [] (vitc_obsol sample_component)) = Some res
    /\ get_col "round" (default [] (vitc_obsol sample_component)) = Some xs
    /\ get_col "obsoletes_(%)" (default [] (vitc_obsol sample_component))
       = Some ys.
Proof.
  assert (Hv : vitc_obsol sample_component
               = Some (default [] (vitc_obsol sample_component)))
    by (vm_compute; reflexivity).
  destruct (vitc_chart_drawn sample_component _ Hv)
    as (res & xs & ys & H1 & H2 & H3 & _).
  exists res, xs, ys. exact (conj H1 (conj H2 H3)).
Defined.
